(** * Differential evolution for few-pixel attacks: a shallow embedding

    The development follows [differential_evolution.py]: the mutation engine
    [generate_children], the compositor [generate_image_variants], the fitness
    evaluator [evaluation_step], the convergence check [stopping_criterion]
    and the orchestrator [evolution_step].

    NumPy arrays carry their dtype (int64 or float) and their shape; torch
    tensors live in a heap of storages, so that sharing ([detach]) and fresh
    allocation ([repeat]) are visible, and carry their element type (float32
    or float64), to which an assignment converts what it stores.  Floating-point arithmetic, the random
    generator and the classifier are libraries outside the repository: they
    enter as interfaces, and binary64 instances are given at the end of the
    definitions so that everything can be run on concrete inputs. *)

From Stdlib Require Import ZArith List Bool Lia PeanoNat Sorted.
From Stdlib Require PrimFloat SpecFloat FloatOps FloatAxioms.
Import ListNotations.

Set Implicit Arguments.

(** ** Machine integers *)

(** NumPy's default integer dtype is a signed 64-bit integer whose arithmetic
    wraps around silently. *)
Definition wrap64 (z : Z) : Z :=
  ((z + 2 ^ 63) mod 2 ^ 64 - 2 ^ 63)%Z.

Definition int64_range (z : Z) : Prop :=
  (- 2 ^ 63 <= z < 2 ^ 63)%Z.

(** ** Element types of tensors *)

(** The float element types of an image tensor: float32, which is torch's
    default, and float64. *)
Inductive dtype : Type :=
| Float32
| Float64.

(** ** Floating-point interface *)

(** The operations of the float dtype the program relies on.  [rint_to_int]
    is [np.rint(x).astype(int)]; [of_int] is the promotion of an integer to
    the float dtype; [to_float32] and [float32_of_int] are the conversions of
    a float and of an int64 to float32, whose values are among those of the
    float dtype; [argmax] and [argmin] are the library reductions, used on
    non-empty vectors only. *)
Class FloatType (F : Type) : Type := {
  fzero : F;
  fone : F;
  fadd : F -> F -> F;
  fsub : F -> F -> F;
  fmul : F -> F -> F;
  fneg : F -> F;
  flt : F -> F -> bool;
  fle : F -> F -> bool;
  of_int : Z -> F;
  rint_to_int : F -> Z;
  to_float32 : F -> F;
  float32_of_int : Z -> F;
  argmax : list F -> nat;
  argmin : list F -> nat
}.

(** ** Errors *)

(** The ways in which the program, NumPy or torch abort a call. *)
Inductive error : Type :=
| ShapeAssertion      (* the [assert] of [generate_image_variants] *)
| IndexOutOfRange     (* an index outside [-len, len) *)
| NonIntegerIndex     (* a float used as a tensor index *)
| BroadcastMismatch   (* operands whose shapes cannot be broadcast *)
| EmptyPool           (* [np.random.choice(0, size=3)] *)
| EmptyStack          (* [np.stack([])] *)
| EmptyReduction      (* [argmax] or [argmin] of an empty tensor *)
| ClassifierFailure.  (* anything the classifier raises *)

Inductive result (A : Type) : Type :=
| Ok (a : A)
| Raise (e : error).

Arguments Raise {A} e.

Definition rbind {A B} (r : result A) (k : A -> result B) : result B :=
  match r with
  | Ok a => k a
  | Raise e => Raise e
  end.

(** ** State and error monad *)

(** A computation reads and updates a world [W]; when it raises, the world
    is the one reached at the point of the error. *)
Definition M (W A : Type) : Type := W -> result A * W.

Definition ret {W A} (a : A) : M W A := fun w => (Ok a, w).

Definition raise {W A} (e : error) : M W A := fun w => (Raise e, w).

Definition bind {W A B} (m : M W A) (k : A -> M W B) : M W B :=
  fun w =>
    match m w with
    | (Ok a, w') => k a w'
    | (Raise e, w') => (Raise e, w')
    end.

Definition lift {W A} (r : result A) : M W A := fun w => (r, w).

Declare Scope monad_scope.
Delimit Scope monad_scope with monad.

Notation "x <- m ;; k" := (bind m (fun x => k))
  (at level 61, m at next level, right associativity) : monad_scope.
Notation "' p <- m ;; k" := (bind m (fun p => k))
  (at level 61, p pattern, m at next level, right associativity) : monad_scope.
Notation "m ;;; k" := (bind m (fun _ => k))
  (at level 61, right associativity) : monad_scope.

Open Scope monad_scope.

(** [for x in xs], collecting the results of the body. *)
Fixpoint for_each {W A B} (xs : list A) (body : A -> M W B) : M W (list B) :=
  match xs with
  | [] => ret []
  | x :: xs' =>
      b <- body x ;;
      bs <- for_each xs' body ;;
      ret (b :: bs)
  end.

(** [for x in xs], for the effect of the body only. *)
Fixpoint for_each_ {W A} (xs : list A) (body : A -> M W unit) : M W unit :=
  match xs with
  | [] => ret tt
  | x :: xs' => body x ;;; for_each_ xs' body
  end.

(** Python's [range(0, n)]. *)
Definition range (n : nat) : list nat := seq 0 n.

(** ** Indexing *)

(** An index [k] into an axis of length [len]: Python, NumPy and torch count
    negative indices from the end and reject everything outside
    [-len, len). *)
Definition normalize_index (len : nat) (k : Z) : result nat :=
  if ((0 <=? k) && (k <? Z.of_nat len))%Z then Ok (Z.to_nat k)
  else if ((- Z.of_nat len <=? k) && (k <? 0))%Z then Ok (Z.to_nat (k + Z.of_nat len))
  else Raise IndexOutOfRange.

(** Broadcasting of two one-dimensional operands. *)
Definition broadcast2 {A B C} (f : A -> B -> C) (xs : list A) (ys : list B)
  : result (list C) :=
  if length xs =? length ys then Ok (map (fun p => f (fst p) (snd p)) (combine xs ys))
  else match xs, ys with
       | [x], _ => Ok (map (f x) ys)
       | _, [y] => Ok (map (fun x => f x y) xs)
       | _, _ => Raise BroadcastMismatch
       end.

(** [.nonzero()] of a boolean vector: the positions holding [True]. *)
Definition nonzero (bs : list bool) : list nat :=
  filter (fun k => nth k bs false) (range (length bs)).

(** ** NumPy arrays *)

Section Program.

Context {F : Type} {FT : FloatType F}.

(** The two comparisons the source writes with [>] and [>=]. *)
Definition fgt (x y : F) : bool := flt y x.
Definition fge (x y : F) : bool := fle y x.

(** An array element, with the dtype it has. *)
Inductive scalar : Type :=
| SInt (z : Z)
| SFloat (x : F).

(** The contents of an array indexed by [I]: either all int64 or all
    float. *)
Inductive buffer (I : Type) : Type :=
| IntBuf (f : I -> Z)
| FloatBuf (f : I -> F).

Definition item {I} (b : buffer I) (k : I) : scalar :=
  match b with
  | IntBuf f => SInt (f k)
  | FloatBuf f => SFloat (f k)
  end.

Definition is_int {I} (b : buffer I) : bool :=
  match b with
  | IntBuf _ => true
  | FloatBuf _ => false
  end.

(** Promotion of the contents to the float dtype. *)
Definition as_float {I} (b : buffer I) : I -> F :=
  match b with
  | IntBuf f => fun k => of_int (f k)
  | FloatBuf f => f
  end.

Definition float_of_scalar (s : scalar) : F :=
  match s with
  | SInt z => of_int z
  | SFloat x => x
  end.

(** An array element converted to the element type of a tensor, as the
    assignment of a NumPy value into a tensor of that type does. *)
Definition to_dtype (t : dtype) (s : scalar) : F :=
  match t, s with
  | Float64, SInt z => of_int z
  | Float64, SFloat x => x
  | Float32, SInt z => float32_of_int z
  | Float32, SFloat x => to_float32 x
  end.

(** A value of the float dtype rounded into the element type [t]. *)
Definition round_to (t : dtype) (x : F) : F :=
  match t with
  | Float32 => to_float32 x
  | Float64 => x
  end.

(** The element type of the result of an operation on tensors of element
    types [a] and [b]. *)
Definition promote (a b : dtype) : dtype :=
  match a, b with
  | Float32, Float32 => Float32
  | _, _ => Float64
  end.

(** [x - y] on tensors, for a result of element type [t]: the difference
    rounded into [t].  On operands of type float32 this is the subtraction
    of float32, because rounding the float64 difference of two float32
    values to float32 gives their correctly rounded difference. *)
Definition tensor_sub (t : dtype) (x y : F) : F :=
  round_to t (fsub x y).

(** The contents when they are integers ([0] stands for the values of a
    float buffer, which no caller asks for). *)
Definition as_int {I} (b : buffer I) : I -> Z :=
  match b with
  | IntBuf f => f
  | FloatBuf _ => fun _ => 0%Z
  end.

(** A view: the same contents read through another indexing. *)
Definition view {I J} (g : J -> I) (b : buffer I) : buffer J :=
  match b with
  | IntBuf f => IntBuf (fun k => f (g k))
  | FloatBuf f => FloatBuf (fun k => f (g k))
  end.

(** [np.where(cond, x, y)]: the result is int64 when both branches are,
    float otherwise. *)
Definition np_where {I} (cond : I -> bool) (x y : buffer I) : buffer I :=
  match x, y with
  | IntBuf f, IntBuf g => IntBuf (fun k => if cond k then f k else g k)
  | _, _ => FloatBuf (fun k => if cond k then as_float x k else as_float y k)
  end.

(** [x - y] on arrays. *)
Definition np_sub {I} (x y : buffer I) : buffer I :=
  match x, y with
  | IntBuf f, IntBuf g => IntBuf (fun k => wrap64 (f k - g k))
  | _, _ => FloatBuf (fun k => fsub (as_float x k) (as_float y k))
  end.

(** [-x] on arrays. *)
Definition np_neg {I} (x : buffer I) : buffer I :=
  match x with
  | IntBuf f => IntBuf (fun k => wrap64 (- f k))
  | FloatBuf f => FloatBuf (fun k => fneg (f k))
  end.

(** [c * x] for a Python float [c]: always a float array. *)
Definition np_scale {I} (c : F) (x : buffer I) : I -> F :=
  fun k => fmul c (as_float x k).

(** [x + y] for a float array [y]. *)
Definition np_add_float {I} (x : buffer I) (y : I -> F) : I -> F :=
  fun k => fadd (as_float x k) (y k).

(** [x < n] and [x > n] for a Python integer [n]. *)
Definition np_lt_int {I} (x : buffer I) (n : Z) : I -> bool :=
  match x with
  | IntBuf f => fun k => (f k <? n)%Z
  | FloatBuf f => fun k => flt (f k) (of_int n)
  end.

Definition np_gt_int {I} (x : buffer I) (n : Z) : I -> bool :=
  match x with
  | IntBuf f => fun k => (n <? f k)%Z
  | FloatBuf f => fun k => fgt (f k) (of_int n)
  end.

(** [n - x] for a Python integer [n]. *)
Definition np_int_sub {I} (n : Z) (x : buffer I) : buffer I :=
  match x with
  | IntBuf f => IntBuf (fun k => wrap64 (n - f k))
  | FloatBuf f => FloatBuf (fun k => fsub (of_int n) (f k))
  end.

(** [1.0 - x]: always a float array. *)
Definition np_one_sub {I} (x : buffer I) : buffer I :=
  FloatBuf (fun k => fsub fone (as_float x k)).

Definition index2 : Type := nat * nat.
Definition index3 : Type := nat * nat * nat.

(** A three-dimensional array of shape [(dim0, dim1, dim2)]; the contents
    are read at indices inside the shape only. *)
Record ndarray : Type := NDArray {
  dim0 : nat;
  dim1 : nat;
  dim2 : nat;
  buf : buffer index3
}.

(** [a[i]] for [i] inside the first axis. *)
Definition row (a : ndarray) (i : nat) : buffer index2 :=
  view (fun jd : index2 => (i, fst jd, snd jd)) (buf a).

(** [np.delete(a, i, 0)]: position [k] of the result is position [k] of [a]
    before [i] and position [k + 1] from [i] on. *)
Definition skip (i k : nat) : nat := if k <? i then k else S k.

Definition np_delete (a : ndarray) (i : nat) : ndarray :=
  {| dim0 := pred (dim0 a);
     dim1 := dim1 a;
     dim2 := dim2 a;
     buf := view (fun ijd : index3 => let '(k, j, d) := ijd in (skip i k, j, d)) (buf a) |}.

(** [a[k]] for an index array entry [k], which NumPy checks. *)
Definition take_row (a : ndarray) (k : nat) : result (buffer index2) :=
  if k <? dim0 a then Ok (row a k) else Raise IndexOutOfRange.

(** [np.stack(children)] for arrays of one shape [(p, d)]. *)
Definition np_stack (p d : nat) (children : list (buffer index2)) : result ndarray :=
  match children with
  | [] => Raise EmptyStack
  | c0 :: _ =>
      Ok {| dim0 := length children;
            dim1 := p;
            dim2 := d;
            buf :=
              if forallb is_int children
              then IntBuf (fun ijd : index3 =>
                             let '(i, j, d) := ijd in as_int (nth i children c0) (j, d))
              else FloatBuf (fun ijd : index3 =>
                               let '(i, j, d) := ijd in as_float (nth i children c0) (j, d)) |}
  end.

(** ** Torch tensors and the world *)

(** A storage maps a multi-index to a value; tensors are handles on a
    storage, and several handles may share one. *)
Definition storage : Type := list nat -> F.

Record heap : Type := Heap {
  next : nat;
  cell : nat -> storage
}.

(** An image of shape [(channels, height, width)] and its element type. *)
Record image : Type := Image {
  img_ptr : nat;
  img_dtype : dtype;
  channels : nat;
  height : nat;
  width : nat
}.

(** A batch of shape [(batch_size, batch_channels, batch_height,
    batch_width)] and its element type. *)
Record batch : Type := Batch {
  batch_ptr : nat;
  batch_dtype : dtype;
  batch_size : nat;
  batch_channels : nat;
  batch_height : nat;
  batch_width : nat
}.

(** What the classifier is handed: the element type, the shape and the
    contents of a batch. *)
Record batch_value : Type := BatchValue {
  bv_dtype : dtype;
  bv_size : nat;
  bv_channels : nat;
  bv_height : nat;
  bv_width : nat;
  bv_at : storage
}.

(** Logits of shape [(rows, classes)] and their element type. *)
Record logits : Type := Logits {
  logits_dtype : dtype;
  rows : nat;
  classes : nat;
  logit : nat -> nat -> F
}.

Definition classifier : Type := batch_value -> result logits.

(** The generator behind [np.random]: [choice3 n] is
    [np.random.choice(n, size=3, replace=True)] for [n > 0] and [uniform n]
    is [np.random.uniform(size=n)], both returning the next generator
    state. *)
Class RandomState (G : Type) : Type := {
  choice3 : nat -> G -> (nat * nat * nat) * G;
  uniform : nat -> G -> (nat -> F) * G
}.

Context {G : Type} {RS : RandomState G}.

(** The world of a run: the tensor heap, the generator, the batches the
    classifier has been queried with (oldest first) and the numbers printed
    (oldest first). *)
Record world : Type := World {
  tensors : heap;
  rng : G;
  queries : list batch_value;
  stdout : list F
}.

Definition np_random_choice3 (n : nat) : M world (nat * nat * nat) :=
  fun w =>
    match n with
    | O => (Raise EmptyPool, w)
    | S _ =>
        let '(abc, g) := choice3 n (rng w) in
        (Ok abc, {| tensors := tensors w; rng := g; queries := queries w; stdout := stdout w |})
    end.

Definition np_random_uniform (n : nat) : M world (nat -> F) :=
  fun w =>
    let '(u, g) := uniform n (rng w) in
    (Ok u, {| tensors := tensors w; rng := g; queries := queries w; stdout := stdout w |}).

(** ** Mutation engine *)

(** [parents[0] + F*(parents[1] - parents[2])], a float array. *)
Definition linear_combination (F_ : F) (p0 p1 p2 : buffer index2) : index2 -> F :=
  np_add_float p0 (np_scale F_ (np_sub p1 p2)).

(** Lines 37 to 41 of the source: the three parents sampled for agent [i]. *)
Definition sample_parents (parent_candidates : ndarray) (i : nat)
  : M world (buffer index2 * buffer index2 * buffer index2) :=
  let parent_candidates_ := np_delete parent_candidates i in
  ' parent_idx <- np_random_choice3 (dim0 parent_candidates_) ;;
  let '(a, b, c) := parent_idx in
  p0 <- lift (take_row parent_candidates_ a) ;;
  p1 <- lift (take_row parent_candidates_ b) ;;
  p2 <- lift (take_row parent_candidates_ c) ;;
  ret (p0, p1, p2).

(** Lines 43 to 48: the potential child, rounded to integers on request. *)
Definition potential_child (F_ : F) (round_ : bool)
  (parents : buffer index2 * buffer index2 * buffer index2) : buffer index2 :=
  let '(p0, p1, p2) := parents in
  if round_
  then IntBuf (fun k => rint_to_int (linear_combination F_ p0 p1 p2 k))
  else FloatBuf (linear_combination F_ p0 p1 p2).

(** The body of the loop of [generate_children] for agent [i]. *)
Definition generate_child (parent_candidates : ndarray) (cr_prob F_ : F)
  (round_ : bool) (i : nat) : M world (buffer index2) :=
  let num_pixels := dim1 parent_candidates in
  parents <- sample_parents parent_candidates i ;;
  let potential_child := potential_child F_ round_ parents in
  u <- np_random_uniform num_pixels ;;
  let mask := fun j => flt (u j) cr_prob in
  ret (np_where (fun jd : index2 => mask (fst jd)) potential_child
         (row parent_candidates i)).

Definition generate_children (parent_candidates : ndarray) (cr_prob F_ : F)
  (round_ : bool) : M world ndarray :=
  children <- for_each (range (dim0 parent_candidates))
                (generate_child parent_candidates cr_prob F_ round_) ;;
  lift (np_stack (dim1 parent_candidates) (dim2 parent_candidates) children).

(** ** Image compositor *)

Definition set_tensors (w : world) (h : heap) : world :=
  {| tensors := h; rng := rng w; queries := queries w; stdout := stdout w |}.

(** [img.detach()]: a tensor on the same storage. *)
Definition detach (img : image) : image := img.

(** [t.repeat(n, 1, 1, 1)] for a three-dimensional [t]: a new storage is
    allocated and filled with [n] copies of the contents of [t]; the result
    has the element type of [t]. *)
Definition repeat_batch (n : nat) (t : image) : M world batch :=
  fun w =>
    let h := tensors w in
    let src := cell h (img_ptr t) in
    let p := next h in
    let copy : storage :=
      fun idx =>
        match idx with
        | [_; c; x; y] => src [c; x; y]
        | _ => fzero
        end in
    (Ok {| batch_ptr := p;
           batch_dtype := img_dtype t;
           batch_size := n;
           batch_channels := channels t;
           batch_height := height t;
           batch_width := width t |},
     set_tensors w {| next := S p; cell := fun q => if q =? p then copy else cell h q |}).

(** [a[i, j, d]] read element by element: the last axis is checked, the
    first two are inside the shape at every call. *)
Definition element (a : ndarray) (i j d : nat) : result scalar :=
  if d <? dim2 a then Ok (item (buf a) (i, j, d)) else Raise IndexOutOfRange.

(** A NumPy scalar used as a tensor index. *)
Definition as_index (s : scalar) : result Z :=
  match s with
  | SInt z => Ok z
  | SFloat _ => Raise NonIntegerIndex
  end.

(** [t[i, :, x, y] = torch.from_numpy(value)] for a NumPy vector [value] of
    [len] entries: both indices are normalised, the vector is broadcast over
    the channels when it has one entry, its entries are converted to the
    element type of [t], and the storage of [t] is updated in place. *)
Definition setitem_pixel (t : batch) (i : nat) (x y : scalar)
  (value : nat -> scalar) (len : nat) : M world unit :=
  x <- lift (as_index x) ;;
  y <- lift (as_index y) ;;
  x <- lift (normalize_index (batch_height t) x) ;;
  y <- lift (normalize_index (batch_width t) y) ;;
  if (len =? batch_channels t) || (len =? 1)
  then
    fun w =>
      let h := tensors w in
      let old := cell h (batch_ptr t) in
      let new : storage :=
        fun idx =>
          match idx with
          | [i'; c; x'; y'] =>
              if (i' =? i) && (x' =? x) && (y' =? y)
              then to_dtype (batch_dtype t) (value (if len =? 1 then 0 else c))
              else old idx
          | _ => old idx
          end in
      (Ok tt,
       set_tensors w {| next := next h;
                        cell := fun q => if q =? batch_ptr t then new else cell h q |})
  else raise BroadcastMismatch.

(** Lines 83 to 87 of the source: unit [j] of agent [i] is written into
    variant [i]. *)
Definition write_unit (new_imgs : batch)
  (all_candidate_coords all_candidate_pixel_vals : ndarray) (i j : nat) : M world unit :=
  x <- lift (element all_candidate_coords i j 0) ;;
  y <- lift (element all_candidate_coords i j 1) ;;
  let pixel_val := fun c => item (buf all_candidate_pixel_vals) (i, j, c) in
  setitem_pixel new_imgs i x y pixel_val (dim2 all_candidate_pixel_vals).

Definition generate_image_variants (img : image)
  (all_candidate_coords all_candidate_pixel_vals : ndarray) : M world batch :=
  if (dim0 all_candidate_coords =? dim0 all_candidate_pixel_vals)
     && (dim1 all_candidate_coords =? dim1 all_candidate_pixel_vals)
  then
    let num_candidates := dim0 all_candidate_coords in
    new_imgs <- repeat_batch num_candidates (detach img) ;;
    for_each_ (range num_candidates) (fun i =>
      for_each_ (range (dim1 all_candidate_coords)) (fun j =>
        write_unit new_imgs all_candidate_coords all_candidate_pixel_vals i j)) ;;;
    ret new_imgs
  else raise ShapeAssertion.

(** ** Fitness evaluator *)

(** The contents of a batch in a world. *)
Definition contents (w : world) (t : batch) : batch_value :=
  {| bv_dtype := batch_dtype t;
     bv_size := batch_size t;
     bv_channels := batch_channels t;
     bv_height := batch_height t;
     bv_width := batch_width t;
     bv_at := cell (tensors w) (batch_ptr t) |}.

(** [t.to('cpu')] for a tensor that is on the CPU already: the tensor itself,
    read when the classifier is called. *)
Definition load (t : batch) : M world batch_value :=
  fun w => (Ok (contents w t), w).

(** [model(imgs)]: the query is recorded, then the classifier answers or
    fails. *)
Definition call_model (model : classifier) (imgs : batch_value) : M world logits :=
  fun w =>
    (model imgs,
     {| tensors := tensors w; rng := rng w;
        queries := queries w ++ [imgs]; stdout := stdout w |}).

Definition print (xs : list F) : M world unit :=
  fun w =>
    (Ok tt,
     {| tensors := tensors w; rng := rng w;
        queries := queries w; stdout := stdout w ++ xs |}).

(** [l[:, k]] for a class index [k]. *)
Definition column (l : logits) (k : Z) : result (list F) :=
  rbind (normalize_index (classes l) k)
        (fun k' => Ok (map (fun r => logit l r k') (range (rows l)))).

(** [torch.where(mask, x, y)] on one-dimensional operands. *)
Definition torch_where (mask : list bool) (xs ys : list F) : result (list F) :=
  rbind (broadcast2 pair xs ys)
        (fun xys => broadcast2 (fun (m : bool) (xy : F * F) => if m then fst xy else snd xy)
                      mask xys).

Definition reduce_index (f : list F -> nat) (xs : list F) : result nat :=
  match xs with
  | [] => Raise EmptyReduction
  | _ :: _ => Ok (f xs)
  end.

Definition evaluation_step (model : classifier) (parent_imgs child_imgs : batch)
  (target_class actual_class : Z) : M world (list bool * list F * list F) :=
  parent_imgs <- load parent_imgs ;;
  child_imgs <- load child_imgs ;;
  parent_logits <- call_model model parent_imgs ;;
  child_logits <- call_model model child_imgs ;;
  parent_target <- lift (column parent_logits target_class) ;;
  parent_actual <- lift (column parent_logits actual_class) ;;
  let parent_dtype := logits_dtype parent_logits in
  let child_dtype := logits_dtype child_logits in
  parent_divergence <-
    lift (broadcast2 (tensor_sub parent_dtype) parent_target parent_actual) ;;
  child_target <- lift (column child_logits target_class) ;;
  child_actual <- lift (column child_logits actual_class) ;;
  child_divergence <-
    lift (broadcast2 (tensor_sub child_dtype) child_target child_actual) ;;
  actual_class_degradation <-
    lift (broadcast2 (tensor_sub (promote parent_dtype child_dtype))
            parent_actual child_actual) ;;
  update_mask <- lift (broadcast2 fge child_divergence parent_divergence) ;;
  new_target_logits <- lift (torch_where update_mask child_target parent_target) ;;
  new_actual_logits <- lift (torch_where update_mask child_actual parent_actual) ;;
  best_target_logit <- lift (reduce_index argmax new_target_logits) ;;
  best_actual_logit <- lift (reduce_index argmin new_actual_logits) ;;
  print [nth best_target_logit new_target_logits fzero;
         nth best_target_logit new_actual_logits fzero;
         nth best_actual_logit new_actual_logits fzero;
         nth best_actual_logit new_target_logits fzero] ;;;
  ret (update_mask, new_target_logits, new_actual_logits).

(** ** Convergence check *)

Definition stopping_criterion (target_logits actual_logits : list F)
  : result (bool * option (list nat)) :=
  rbind (broadcast2 fgt target_logits actual_logits) (fun exceeds =>
    if existsb (fun b : bool => b) exceeds
    then rbind (broadcast2 fgt target_logits actual_logits) (fun exceeds' =>
           Ok (true, Some (nonzero exceeds')))
    else Ok (false, None)).

(** ** Boundary repair *)

Definition with_buf (a : ndarray) (f : buffer index3 -> buffer index3) : ndarray :=
  {| dim0 := dim0 a; dim1 := dim1 a; dim2 := dim2 a; buf := f (buf a) |}.

(** Lines 188 and 189 of the source, in that order. *)
Definition repair_coords (image_size : Z) (child_coords : ndarray) : ndarray :=
  let child_coords :=
    with_buf child_coords (fun b => np_where (np_lt_int b 0) (np_neg b) b) in
  with_buf child_coords (fun b =>
    np_where (np_gt_int b (image_size - 1)) (np_int_sub (image_size - 1) b) b).

(** Lines 192 and 193 of the source, in that order. *)
Definition repair_pixel_values (child_pixel_values : ndarray) : ndarray :=
  let child_pixel_values :=
    with_buf child_pixel_values (fun b => np_where (np_lt_int b 0) (np_neg b) b) in
  with_buf child_pixel_values (fun b =>
    np_where (np_gt_int b 1) (np_one_sub b) b).

(** ** Generation orchestrator *)

(** Broadcasting of one axis: the common length, and the position read in an
    operand of length [len]. *)
Definition broadcast_dim (m n : nat) : result nat :=
  if m =? n then Ok m
  else if m =? 1 then Ok n
  else if n =? 1 then Ok m
  else Raise BroadcastMismatch.

Definition broadcast_pos (len i : nat) : nat := if len =? 1 then 0 else i.

(** [np.where(np.expand_dims(mask, (1,2)), x, y)]. *)
Definition np_where_agents (mask : list bool) (x y : ndarray) : result ndarray :=
  rbind (broadcast_dim (dim0 x) (dim0 y)) (fun n0 =>
  rbind (broadcast_dim (length mask) n0) (fun n0 =>
  rbind (broadcast_dim (dim1 x) (dim1 y)) (fun n1 =>
  rbind (broadcast_dim (dim2 x) (dim2 y)) (fun n2 =>
    let at_ (a : ndarray) :=
      view (fun ijd : index3 =>
              let '(i, j, d) := ijd in
              (broadcast_pos (dim0 a) i, broadcast_pos (dim1 a) j, broadcast_pos (dim2 a) d))
           (buf a) in
    Ok {| dim0 := n0; dim1 := n1; dim2 := n2;
          buf := np_where (fun ijd : index3 =>
                             nth (broadcast_pos (length mask) (fst (fst ijd))) mask false)
                          (at_ x) (at_ y) |})))).

Definition evolution_step (model : classifier) (img : image)
  (parent_coords parent_pixel_vals : ndarray) (target_class actual_class : Z)
  (cr_prob F_ : F)
  : M world (list bool * ndarray * ndarray * bool * option (list nat)) :=
  child_coords <- generate_children parent_coords cr_prob F_ true ;;
  child_pixel_values <- generate_children parent_pixel_vals cr_prob F_ false ;;
  let image_size := Z.of_nat (height img) in
  let child_coords := repair_coords image_size child_coords in
  let child_pixel_values := repair_pixel_values child_pixel_values in
  parent_imgs <- generate_image_variants img parent_coords parent_pixel_vals ;;
  child_imgs <- generate_image_variants img child_coords child_pixel_values ;;
  ' evaluated <- evaluation_step model parent_imgs child_imgs target_class actual_class ;;
  let '(update_mask, new_target_logits, new_actual_logits) := evaluated in
  ' verdict <- lift (stopping_criterion new_target_logits new_actual_logits) ;;
  let '(stop, best_agent) := verdict in
  next_gen_coords <- lift (np_where_agents update_mask child_coords parent_coords) ;;
  next_gen_pixel_vals <-
    lift (np_where_agents update_mask child_pixel_values parent_pixel_vals) ;;
  ret (update_mask, next_gen_coords, next_gen_pixel_vals, stop, best_agent).

End Program.

(** ** Instances for running the program *)

(** IEEE binary64, the float dtype of NumPy, on Rocq's primitive floats. *)
Module Binary64.

Import PrimFloat SpecFloat FloatOps.

Definition float_of_int (z : Z) : float :=
  SF2Prim (binary_normalize prec emax z 0 false).

(** The integer nearest to [m * 2 ^ e], ties to even. *)
Definition nearest_even (m e : Z) : Z :=
  if (0 <=? e)%Z then (m * 2 ^ e)%Z
  else
    let d := (2 ^ (- e))%Z in
    let q := (m / d)%Z in
    let r := (m mod d)%Z in
    if (2 * r <? d)%Z then q
    else if (d <? 2 * r)%Z then (q + 1)%Z
    else if Z.even q then q else (q + 1)%Z.

(** [np.rint(x).astype(int)]; what does not fit in int64 becomes the least
    int64, as the conversion instruction of x86-64 has it. *)
Definition float_rint_to_int (x : float) : Z :=
  match Prim2SF x with
  | S754_zero _ => 0%Z
  | S754_finite s m e =>
      let z := nearest_even (Zpos m) e in
      let z := if s then (- z)%Z else z in
      if ((- 2 ^ 63 <=? z) && (z <? 2 ^ 63))%Z then z else (- 2 ^ 63)%Z
  | _ => (- 2 ^ 63)%Z
  end.

(** Rounding to the nearest float32, ties to even; what is too large
    becomes an infinity, and zeros, infinities and NaN are kept. *)
Definition round_to_float32 (x : float) : float :=
  match Prim2SF x with
  | S754_finite s m e => SF2Prim (binary_round 24 128 s m e)
  | _ => x
  end.

Definition float32_of_int64 (z : Z) : float :=
  SF2Prim (binary_normalize 24 128 z 0 false).

Definition is_nan (x : float) : bool := negb (eqb x x).

(** torch's order for [argmax]: a NaN beats every number. *)
Definition greater_or_nan (x y : float) : bool :=
  if is_nan x then negb (is_nan y) else ltb y x.

(** torch's order for [argmin]: a NaN beats every number. *)
Definition less_or_nan (x y : float) : bool :=
  if is_nan x then negb (is_nan y) else ltb x y.

(** The first position whose entry no other entry beats. *)
Definition arg_best (better : float -> float -> bool) (xs : list float) : nat :=
  fst (fst (fold_left
              (fun (st : nat * float * nat) (x : float) =>
                 let '(best, bx, k) := st in
                 if better x bx then (k, x, S k) else (best, bx, S k))
              (tl xs) (0, hd zero xs, 1))).

#[export] Instance binary64 : FloatType float := {|
  fzero := zero;
  fone := one;
  fadd := add;
  fsub := sub;
  fmul := mul;
  fneg := opp;
  flt := ltb;
  fle := leb;
  of_int := float_of_int;
  rint_to_int := float_rint_to_int;
  to_float32 := round_to_float32;
  float32_of_int := float32_of_int64;
  argmax := arg_best greater_or_nan;
  argmin := arg_best less_or_nan
|}.

End Binary64.

(** A generator that replays recorded draws: indices are reduced modulo the
    pool size, uniform draws are read in order and [0.0] once the record is
    exhausted. *)
Module Replay.

Import PrimFloat.

Record tape : Type := Tape {
  indices : list nat;
  uniforms : list float
}.

Definition replay_choice3 (n : nat) (t : tape) : (nat * nat * nat) * tape :=
  let k := fun p => nth p (indices t) 0 mod n in
  ((k 0, k 1, k 2), {| indices := skipn 3 (indices t); uniforms := uniforms t |}).

Definition replay_uniform (n : nat) (t : tape) : (nat -> float) * tape :=
  (fun j => if j <? n then nth j (uniforms t) zero else zero,
   {| indices := indices t; uniforms := skipn n (uniforms t) |}).

#[export] Instance replay : RandomState (F := float) tape := {|
  choice3 := replay_choice3;
  uniform := replay_uniform
|}.

End Replay.

(** * Vocabulary of the statements *)

(** No value is strictly below itself (for a NaN, every comparison is
    false). *)
Class FloatLaws (F : Type) {FT : FloatType F} : Prop := {
  flt_irrefl : forall x : F, flt x x = false
}.

(** Operands that broadcast: equal lengths, or one of them of length one. *)
Definition broadcastable (m n : nat) : bool :=
  (m =? n) || (m =? 1) || (n =? 1).

Section Vocabulary.

Context {F : Type} {FT : FloatType F}.

(** The divergence of row [i] of a score table: target-class score minus
    actual-class score, in the element type of the table. *)
Definition divergence (l : logits) (target actual i : nat) : F :=
  tensor_sub (logits_dtype l) (logit l i target) (logit l i actual).

(** What [np.where] does to an element: it is kept when the result is an
    integer array and promoted to float otherwise. *)
Definition cast_like (int_result : bool) (x : scalar) : scalar :=
  if int_result then x else SFloat (float_of_scalar x).

(** The proposal of the source, [p0 + F*(p1 - p2)], rounded on request. *)
Definition proposal (F_ : F) (round_ : bool) (p0 p1 p2 : buffer index2) (jd : index2)
  : scalar :=
  let x := fadd (as_float p0 jd) (fmul F_ (as_float (np_sub p1 p2) jd)) in
  if round_ then SInt (rint_to_int x) else SFloat x.

(** Whether unit [j] of agent [i] is written at pixel [(x, y)] of an image
    of [h] by [w] pixels. *)
Definition lands_on (h w : nat) (coords : index3 -> Z) (i j x y : nat) : bool :=
  match normalize_index h (coords (i, j, 0)), normalize_index w (coords (i, j, 1)) with
  | Ok x', Ok y' => (x' =? x) && (y' =? y)
  | _, _ => false
  end.

(** The last position below [p] that satisfies [hit]. *)
Fixpoint last_such (hit : nat -> bool) (p : nat) : option nat :=
  match p with
  | O => None
  | S p' => if hit p' then Some p' else last_such hit p'
  end.

(** The value of channel [c] of pixel [(x, y)] of the variant of agent [i]
    once the first [p] units of the agent have been written over [base], in
    a tensor of element type [t]. *)
Definition painted (base : storage (F := F)) (t : dtype) (h w : nat)
  (coords : index3 -> Z) (vals : ndarray (F := F)) (p : nat) (i c x y : nat) : F :=
  match last_such (fun j => lands_on h w coords i j x y) p with
  | Some j => to_dtype t (item (buf vals) (i, j, if dim2 vals =? 1 then 0 else c))
  | None => base [c; x; y]
  end.

Context {G : Type}.

(** The part of the world a write to the storage at [ptr] leaves alone. *)
Definition frame (ptr : nat) (w0 w : @world F G) : Prop :=
  next (tensors w) = next (tensors w0)
  /\ rng w = rng w0
  /\ queries w = queries w0
  /\ stdout w = stdout w0
  /\ forall q, q <> ptr -> cell (tensors w) q = cell (tensors w0) q.

(** A computation keeps a relation between the world it starts in and the
    world it ends in, whether it returns or raises. *)
Definition preserves {W A} (R : W -> W -> Prop) (m : M W A) : Prop :=
  forall w, R w (snd (m w)).

(** Nothing but the generator has changed. *)
Definition only_rng_differs (w w' : @world F G) : Prop :=
  tensors w' = tensors w /\ queries w' = queries w /\ stdout w' = stdout w.

(** The storages below address [n] are as they were, and no address has
    been given back. *)
Definition keeps_tensors_below (n : nat) (w w' : @world F G) : Prop :=
  next (tensors w) <= next (tensors w')
  /\ forall q, q < n -> cell (tensors w') q = cell (tensors w) q.

(** The generator returns positions of the pool it is given. *)
Definition draws_in_pool {RS : @RandomState F G} (n : nat) : Prop :=
  forall g : G,
    let '(a, b, c) := fst (choice3 n g) in a < n /\ b < n /\ c < n.

(** The same, for the worlds in which the addresses below [n] are all in
    use. *)
Definition keeps_tensors_from (n : nat) (w w' : @world F G) : Prop :=
  n <= next (tensors w) -> keeps_tensors_below n w w'.

End Vocabulary.

(** ** Concrete data for running the program *)

Module Examples.

Import PrimFloat Binary64 Replay.

(** An int64 array and a float array from nested lists. *)
Definition int_array (n p d : nat) (l : list (list (list Z))) : ndarray (F := float) :=
  {| dim0 := n; dim1 := p; dim2 := d;
     buf := IntBuf (fun ijd : index3 =>
                      let '(i, j, k) := ijd in nth k (nth j (nth i l []) []) 0%Z) |}.

Definition float_array (n p d : nat) (l : list (list (list float))) : ndarray (F := float) :=
  {| dim0 := n; dim1 := p; dim2 := d;
     buf := FloatBuf (fun ijd : index3 =>
                        let '(i, j, k) := ijd in nth k (nth j (nth i l []) []) zero) |}.

(** A world whose only tensor, at address [0], is a grey float32 image. *)
Definition grey_world (t : tape) : world :=
  {| tensors := {| next := 1; cell := fun _ _ => 0.25%float |};
     rng := t;
     queries := [];
     stdout := [] |}.

Definition grey_image : image :=
  {| img_ptr := 0; img_dtype := Float32; channels := 3; height := 5; width := 5 |}.

(** A classifier with two classes: the score of class [0] is the red value
    of pixel [(0, 0)], the score of class [1] the red value of pixel
    [(2, 3)]; the scores have the element type of the images. *)
Definition two_pixel_model : classifier (F := float) :=
  fun imgs =>
    Ok {| logits_dtype := bv_dtype imgs;
          rows := bv_size imgs;
          classes := 2;
          logit := fun r k =>
                     if k =? 0 then bv_at imgs [r; 0; 0; 0] else bv_at imgs [r; 0; 2; 3] |}.

Definition empty_tape : tape := {| indices := []; uniforms := [] |}.

(** What a classifier answers, as a score table (empty when it fails). *)
Definition scores_of (model : classifier (F := float)) (imgs : batch_value) : logits :=
  match model imgs with
  | Ok l => l
  | Raise _ => {| logits_dtype := Float32; rows := 0; classes := 0;
                  logit := fun _ _ => zero |}
  end.

(** A batch of [n] grey images on the storage at address [0]. *)
Definition grey_batch (n : nat) : batch :=
  {| batch_ptr := 0; batch_dtype := Float32; batch_size := n; batch_channels := 3;
     batch_height := 5; batch_width := 5 |}.

(** A world with a parent batch at address [1] and a child batch at address
    [2], three images each, that differ in the two pixels the classifier
    looks at. *)
Definition scored_storage (at00 at23 : list float) : storage (F := float) :=
  fun idx =>
    match idx with
    | [r; 0; 0; 0] => nth r at00 zero
    | [r; 0; 2; 3] => nth r at23 zero
    | _ => zero
    end.

Definition scored_world : world (G := tape) :=
  {| tensors :=
       {| next := 3;
          cell := fun q =>
                    if q =? 1 then scored_storage [0.5; 0.25; 0.125]%float [0.25; 0.5; 0.125]%float
                    else if q =? 2 then scored_storage [0.5; 0.5; 0.25]%float [0.75; 0.5; 0.25]%float
                    else fun _ => zero |};
     rng := empty_tape;
     queries := [];
     stdout := [] |}.

Definition scored_parents : batch :=
  {| batch_ptr := 1; batch_dtype := Float32; batch_size := 3; batch_channels := 3;
     batch_height := 5; batch_width := 5 |}.

Definition scored_children : batch :=
  {| batch_ptr := 2; batch_dtype := Float32; batch_size := 3; batch_channels := 3;
     batch_height := 5; batch_width := 5 |}.

Definition is_ok {A} (r : result A) : bool :=
  match r with
  | Ok _ => true
  | Raise _ => false
  end.

(** The elements of an array, as nested lists. *)
Definition dump (a : ndarray (F := float)) : list (list (list scalar)) :=
  map (fun i =>
         map (fun j => map (fun d => item (buf a) (i, j, d)) (range (dim2 a)))
             (range (dim1 a)))
      (range (dim0 a)).

(** Three agents of one pixel each, in an image of size 5. *)
Definition example_coords : ndarray (F := float) :=
  int_array 3 1 2 [[[0; 0]]; [[2; 3]]; [[4; 1]]]%Z.

Definition example_colors : ndarray (F := float) :=
  float_array 3 1 3 [[[0.25; 0.5; 0.75]]; [[0.5; 0.5; 0.5]]; [[0.75; 0.25; 1]]]%float.

(** Draws for two calls of [generate_children] on three agents of one
    pixel: three pool positions per agent, then one uniform draw per agent
    and pixel. *)
Definition example_tape : tape :=
  {| indices := [0; 1; 0; 1; 1; 0; 0; 0; 1; 1; 0; 1; 0; 1; 1; 1; 1; 1];
     uniforms := [0.5; 0.9375; 0.125; 0.25; 0.375; 0.96875]%float |}.

(** Draws whose second and third pool positions coincide. *)
Definition duplicate_tape : tape :=
  {| indices := [0; 1; 1]; uniforms := [] |}.

(** One agent with two units at the same pixel [(1, 1)], the first grey, the
    second not. *)
Definition twice_coords : ndarray (F := float) :=
  int_array 1 2 2 [[[1; 1]; [1; 1]]]%Z.

Definition twice_colors : ndarray (F := float) :=
  float_array 1 2 3 [[[0.5; 0.5; 0.5]; [0.75; 0.25; 1]]]%float.

(** Colours for two agents only. *)
Definition two_colors : ndarray (F := float) :=
  float_array 2 1 3 [[[0.5; 0.5; 0.5]]; [[0.75; 0.25; 1]]]%float.

(** One agent of one unit, grey, at the given coordinates. *)
Definition single_coords (x y : Z) : ndarray (F := float) :=
  int_array 1 1 2 [[[x; y]]].

Definition single_color : ndarray (F := float) :=
  float_array 1 1 3 [[[0.5; 0.5; 0.5]]]%float.

(** Draws that make child 1 the proposal built from agents 2, 2 and 0, and
    leave the differentials of every other proposal at zero. *)
Definition far_tape : tape :=
  {| indices := [0; 0; 0; 1; 1; 0; 0; 0; 0];
     uniforms := [0.5; 0.5; 0.5; 0.5; 0.5; 0.5]%float |}.

(** One agent whose coordinates are stored as floats. *)
Definition fractional_coords : ndarray (F := float) :=
  float_array 1 1 2 [[[1.5; 2]]]%float.

(** One agent of one unit whose colour has a single entry. *)
Definition one_entry_color : ndarray (F := float) :=
  float_array 1 1 1 [[[0.75]]]%float.

(** A population that agrees with [example_coords] and [example_colors] on
    agent [0] only. *)
Definition other_coords : ndarray (F := float) :=
  int_array 3 1 2 [[[0; 0]]; [[1; 1]]; [[3; 3]]]%Z.

Definition other_colors : ndarray (F := float) :=
  float_array 3 1 3 [[[0.25; 0.5; 0.75]]; [[1; 1; 1]]; [[0; 0; 0]]]%float.

(** One agent of one unit whose red value, the binary64 nearest to 0.1, is
    not a float32. *)
Definition tenth_color : ndarray (F := float) :=
  float_array 1 1 3 [[[0x1.999999999999ap-4; 0.5; 0.5]]]%float.

(** The grey image as a float64 tensor. *)
Definition grey_image64 : image :=
  {| img_ptr := 0; img_dtype := Float64; channels := 3; height := 5; width := 5 |}.

(** A classifier that always fails. *)
Definition failing_model : classifier (F := float) :=
  fun _ => Raise ClassifierFailure.

(** A classifier that answers with an empty score table of two classes. *)
Definition silent_model : classifier (F := float) :=
  fun imgs =>
    Ok {| logits_dtype := bv_dtype imgs; rows := 0; classes := 2;
          logit := fun _ _ => zero |}.

End Examples.

(** * Properties *)

(** ** Laws of binary64 *)

Section Binary64Laws.

Import PrimFloat SpecFloat FloatOps FloatAxioms.

Lemma SFcompare_refl_not_Lt (f : spec_float) : SFcompare f f <> Some Lt.
Proof.
  destruct f as [s | s | | s m e]; simpl; try discriminate.
  - destruct s; discriminate.
  - destruct s; rewrite Z.compare_refl, Pos.compare_cont_refl; discriminate.
Qed.

Lemma ltb_irrefl (x : float) : ltb x x = false.
Proof.
  rewrite ltb_spec. unfold SFltb.
  destruct (SFcompare (Prim2SF x) (Prim2SF x)) as [[ | | ] | ] eqn:E; try reflexivity.
  exfalso. exact (SFcompare_refl_not_Lt _ E).
Qed.

#[export] Instance binary64_laws : @FloatLaws PrimFloat.float Binary64.binary64.
Proof. constructor. exact ltb_irrefl. Qed.

End Binary64Laws.

(** ** Lists as one-dimensional tensors *)

Lemma length_map_range {A} (f : nat -> A) (n : nat) :
  length (map f (range n)) = n.
Proof. unfold range. now rewrite length_map, length_seq. Qed.

Lemma nth_map_range {A} (f : nat -> A) (n i : nat) (d : A) :
  i < n -> nth i (map f (range n)) d = f i.
Proof.
  intros Hi. unfold range.
  rewrite (nth_indep _ d (f 0)) by now rewrite length_map, length_seq.
  rewrite (map_nth f (seq 0 n) 0 i), seq_nth; auto.
Qed.

Lemma combine_map_same {A B C} (g : A -> B) (h : A -> C) (l : list A) :
  combine (map g l) (map h l) = map (fun a => (g a, h a)) l.
Proof. induction l as [| a l IH]; simpl; congruence. Qed.

Lemma broadcast2_same_length {A B C} (f : A -> B -> C) xs ys :
  length xs = length ys ->
  broadcast2 f xs ys = Ok (map (fun p => f (fst p) (snd p)) (combine xs ys)).
Proof. intros H. unfold broadcast2. now rewrite H, Nat.eqb_refl. Qed.

Lemma broadcast2_map_range {A B C} (f : A -> B -> C) (g : nat -> A) (h : nat -> B) n :
  broadcast2 f (map g (range n)) (map h (range n))
  = Ok (map (fun r => f (g r) (h r)) (range n)).
Proof.
  rewrite broadcast2_same_length by now rewrite !length_map_range.
  now rewrite combine_map_same, map_map.
Qed.

Lemma broadcast2_raise_iff {A B C} (f : A -> B -> C) xs ys :
  broadcast2 f xs ys = Raise BroadcastMismatch
  <-> broadcastable (length xs) (length ys) = false.
Proof.
  unfold broadcast2, broadcastable.
  destruct (length xs =? length ys) eqn:E; simpl.
  - split; discriminate.
  - destruct xs as [| x [| x' xs]]; destruct ys as [| y [| y' ys]]; simpl in *;
      split; intros H; try discriminate; try reflexivity.
Qed.

Lemma broadcast2_ok_length {A B C} (f : A -> B -> C) xs ys zs :
  broadcast2 f xs ys = Ok zs ->
  length zs = if length xs =? 1 then length ys else length xs.
Proof.
  unfold broadcast2.
  destruct (length xs =? length ys) eqn:E.
  - intros H. injection H as <-. apply Nat.eqb_eq in E.
    rewrite length_map, length_combine, <- E, Nat.min_id.
    now destruct (length xs =? 1).
  - destruct xs as [| x [| x' xs]]; destruct ys as [| y [| y' ys]]; simpl in *;
      intros H; try discriminate; injection H as <-; simpl;
      rewrite ?length_map; reflexivity.
Qed.

Lemma nth_map_combine {A B C} (f : A -> B -> C) xs ys (dx : A) (dy : B) (d : C) i :
  length xs = length ys -> i < length xs ->
  nth i (map (fun p => f (fst p) (snd p)) (combine xs ys)) d = f (nth i xs dx) (nth i ys dy).
Proof.
  revert ys i. induction xs as [| x xs IH]; intros [| y ys] i Hlen Hi; simpl in *; try lia.
  destruct i as [| i]; [reflexivity |]. apply IH; lia.
Qed.

Lemma broadcast2_cases {A B C} (f : A -> B -> C) xs ys :
  (broadcastable (length xs) (length ys) = true
   /\ exists zs, broadcast2 f xs ys = Ok zs
                 /\ length zs = if length xs =? 1 then length ys else length xs)
  \/ (broadcastable (length xs) (length ys) = false
      /\ broadcast2 f xs ys = Raise BroadcastMismatch).
Proof.
  destruct (broadcastable (length xs) (length ys)) eqn:E.
  - left. split; [reflexivity |].
    destruct (broadcast2 f xs ys) as [zs | e] eqn:Hb.
    + exists zs. split; [reflexivity |]. eapply broadcast2_ok_length; eauto.
    + exfalso. assert (e = BroadcastMismatch) as ->.
      { unfold broadcast2 in Hb. destruct (length xs =? length ys); [discriminate |].
        destruct xs as [| x [| x' xs]]; destruct ys as [| y [| y' ys]];
          try discriminate; now injection Hb. }
      apply broadcast2_raise_iff in Hb. congruence.
  - right. split; [reflexivity |]. now apply broadcast2_raise_iff.
Qed.

Lemma existsb_id_nth (bs : list bool) :
  existsb (fun b : bool => b) bs = true <-> exists i, i < length bs /\ nth i bs false = true.
Proof.
  rewrite existsb_exists. split.
  - intros (b & Hin & ->). destruct (In_nth _ _ false Hin) as (i & Hi & Hnth). eauto.
  - intros (i & Hi & Hnth). exists true. split; [| reflexivity].
    rewrite <- Hnth. now apply nth_In.
Qed.

Lemma in_nonzero (bs : list bool) (i : nat) :
  In i (nonzero bs) <-> i < length bs /\ nth i bs false = true.
Proof.
  unfold nonzero, range. rewrite filter_In, in_seq. intuition lia.
Qed.

Lemma NoDup_nonzero (bs : list bool) : NoDup (nonzero bs).
Proof. unfold nonzero, range. apply NoDup_filter, seq_NoDup. Qed.

(** ** Loops *)

Lemma for_each_ok_nth {W A B} (body : A -> M W B) (xs : list A) :
  forall (w w' : W) (bs : list B),
    for_each xs body w = (Ok bs, w') ->
    length bs = length xs
    /\ forall i dx db, i < length xs ->
         exists w0 w1, body (nth i xs dx) w0 = (Ok (nth i bs db), w1).
Proof.
  induction xs as [| x xs IH]; intros w w' bs H.
  - cbn in H. injection H as <- _. split; [reflexivity |]. cbn. intros; lia.
  - cbn [for_each] in H. unfold bind at 1 in H.
    destruct (body x w) as [[b | e] w1] eqn:Hb; [| discriminate].
    unfold bind at 1 in H.
    destruct (for_each xs body w1) as [[bs' | e] w2] eqn:Hrest; [| discriminate].
    injection H as <- _.
    destruct (IH _ _ _ Hrest) as [Hlen Hnth].
    split; [cbn; congruence |].
    intros [| i] dx db Hi; cbn in *.
    + eauto.
    + apply Hnth. lia.
Qed.

Lemma for_each__invariant {W} (Inv : nat -> W -> Prop) (body : nat -> M W unit) (n : nat) :
  (forall k w, k < n -> Inv k w -> exists w', body k w = (Ok tt, w') /\ Inv (S k) w') ->
  forall w, Inv 0 w -> exists w', for_each_ (range n) body w = (Ok tt, w') /\ Inv n w'.
Proof.
  intros Hstep.
  assert (Hgen : forall len start w, start + len = n -> Inv start w ->
                   exists w', for_each_ (seq start len) body w = (Ok tt, w') /\ Inv n w').
  { induction len as [| len IH]; intros start w Hn Hinv.
    - exists w. split; [reflexivity |]. now replace n with start by lia.
    - destruct (Hstep start w) as (w1 & Hbody & Hinv1); [lia | assumption |].
      destruct (IH (S start) w1) as (w' & Hrest & Hinv'); [lia | assumption |].
      exists w'. split; [| assumption].
      cbn [seq for_each_]. unfold bind. now rewrite Hbody. }
  intros w Hinv. now apply Hgen.
Qed.

(** A loop whose body either succeeds or raises [e], and raises [e] at some
    element whatever the world, raises [e]. *)
Lemma for_each__raises {W A} (e : error) (body : A -> M W unit) (xs : list A) :
  (forall x w, In x xs ->
     (exists w', body x w = (Ok tt, w')) \/ (exists w', body x w = (Raise e, w'))) ->
  (exists x, In x xs /\ forall w, exists w', body x w = (Raise e, w')) ->
  forall w, exists w', for_each_ xs body w = (Raise e, w').
Proof.
  induction xs as [| x xs IH]; intros Hbody (x0 & Hin & Hfail) w.
  - destruct Hin.
  - cbn [for_each_]. unfold bind.
    destruct (Hbody x w (or_introl eq_refl)) as [(w1 & Hok) | (w1 & Hraise)].
    + rewrite Hok. apply IH.
      * intros y w2 Hy. apply Hbody. now right.
      * destruct Hin as [<- | Hin].
        -- destruct (Hfail w) as (w2 & Hf). congruence.
        -- exists x0. auto.
    + rewrite Hraise. eauto.
Qed.

Lemma for_each__ok_or_raises {W A} (e : error) (body : A -> M W unit) (xs : list A) :
  (forall x w, In x xs ->
     (exists w', body x w = (Ok tt, w')) \/ (exists w', body x w = (Raise e, w'))) ->
  forall w,
    (exists w', for_each_ xs body w = (Ok tt, w'))
    \/ (exists w', for_each_ xs body w = (Raise e, w')).
Proof.
  induction xs as [| x xs IH]; intros Hbody w.
  - left. exists w. reflexivity.
  - cbn [for_each_]. unfold bind.
    destruct (Hbody x w (or_introl eq_refl)) as [(w1 & Hok) | (w1 & Hraise)].
    + rewrite Hok. apply IH. intros y w2 Hy. apply Hbody. now right.
    + rewrite Hraise. right. eauto.
Qed.

Lemma for_each__raise_inv {W A} (e : error) (body : A -> M W unit) (xs : list A) :
  forall w w', for_each_ xs body w = (Raise e, w') ->
  exists x w0 w1, In x xs /\ body x w0 = (Raise e, w1).
Proof.
  induction xs as [| x xs IH]; intros w w' H.
  - discriminate.
  - cbn [for_each_] in H. unfold bind in H.
    destruct (body x w) as [[[] | e1] w1] eqn:Hb.
    + destruct (IH _ _ H) as (y & w0 & w2 & Hin & Hy). exists y, w0, w2. split; [now right | assumption].
    + injection H as -> ->. exists x, w, w'. split; [now left | assumption].
Qed.

Lemma normalize_index_cases (len : nat) (k : Z) :
  ((- Z.of_nat len <= k < Z.of_nat len)%Z
   /\ normalize_index len k
      = Ok (if (k <? 0)%Z then Z.to_nat (k + Z.of_nat len) else Z.to_nat k))
  \/ (~ (- Z.of_nat len <= k < Z.of_nat len)%Z
      /\ normalize_index len k = Raise IndexOutOfRange).
Proof.
  unfold normalize_index.
  destruct (Z.leb_spec 0 k), (Z.ltb_spec k (Z.of_nat len)),
    (Z.leb_spec (- Z.of_nat len) k), (Z.ltb_spec k 0); cbn [andb];
    try (left; split; [lia | reflexivity]); try (right; split; [lia | reflexivity]); lia.
Qed.

Section Theory.

Context {F : Type} {FT : FloatType F} {G : Type} {RS : @RandomState F G}.

Lemma torch_where_map_range (m : nat -> bool) (x y : nat -> F) n :
  torch_where (map m (range n)) (map x (range n)) (map y (range n))
  = Ok (map (fun r => if m r then x r else y r) (range n)).
Proof.
  unfold torch_where. rewrite broadcast2_map_range. simpl.
  now rewrite (broadcast2_map_range _ m (fun r => (x r, y r))).
Qed.

Lemma torch_where_ok (mask : list bool) (xs ys : list F) :
  broadcastable (length xs) (length ys) = true ->
  length mask = (if length xs =? 1 then length ys else length xs) ->
  exists zs, torch_where mask xs ys = Ok zs /\ length zs = length mask.
Proof.
  intros Hb Hlen. unfold torch_where.
  destruct (broadcast2_cases (@pair F F) xs ys) as [(_ & xys & Hxys & Lxys) | (Hx & _)];
    [| congruence].
  rewrite Hxys. cbn [rbind].
  rewrite broadcast2_same_length by congruence.
  eexists. split; [reflexivity |].
  rewrite length_map, length_combine. rewrite Lxys, <- Hlen. apply Nat.min_id.
Qed.

(** ** Fitness evaluator *)

(** C1.  Let the classifier answer the parent batch and the child batch with
    score tables of the same number [n > 0] of rows, in which the target and
    the actual class are valid columns.  Then [evaluation_step] returns, and
    its selection mask has [n] entries, entry [i] being True exactly when the
    divergence of child [i] is greater than or equal to the divergence of
    parent [i]; on a tie the child is selected. *)
Theorem evaluation_step_mask_iff_child_ge_parent
  (model : classifier) (parent_imgs child_imgs : batch) (target_class actual_class : Z)
  (w : @world F G) (parent_logits child_logits : logits) (pt pa ct ca : nat) :
  model (contents w parent_imgs) = Ok parent_logits ->
  model (contents w child_imgs) = Ok child_logits ->
  rows child_logits = rows parent_logits ->
  0 < rows parent_logits ->
  normalize_index (classes parent_logits) target_class = Ok pt ->
  normalize_index (classes parent_logits) actual_class = Ok pa ->
  normalize_index (classes child_logits) target_class = Ok ct ->
  normalize_index (classes child_logits) actual_class = Ok ca ->
  exists update_mask new_target_logits new_actual_logits w',
    evaluation_step model parent_imgs child_imgs target_class actual_class w
    = (Ok (update_mask, new_target_logits, new_actual_logits), w')
    /\ length update_mask = rows parent_logits
    /\ (forall i, i < rows parent_logits ->
          (nth i update_mask false = true
           <-> fge (divergence child_logits ct ca i) (divergence parent_logits pt pa i) = true))
    /\ (forall i, i < rows parent_logits ->
          divergence child_logits ct ca i = divergence parent_logits pt pa i ->
          fle (divergence parent_logits pt pa i) (divergence parent_logits pt pa i) = true ->
          nth i update_mask false = true).
Proof.
  intros Hp Hc Hrows Hpos Hpt Hpa Hct Hca.
  set (n := rows parent_logits) in *.
  set (mask := fun r => fge (divergence child_logits ct ca r) (divergence parent_logits pt pa r)).
  exists (map mask (range n)).
  unfold evaluation_step, bind, load, call_model, lift, column, print, ret.
  simpl. rewrite Hp, Hc, Hpt, Hpa, Hct, Hca. simpl.
  rewrite Hrows. fold n.
  rewrite !broadcast2_map_range.
  rewrite (torch_where_map_range (fun r =>
             fge (tensor_sub (logits_dtype child_logits)
                    (logit child_logits r ct) (logit child_logits r ca))
                 (tensor_sub (logits_dtype parent_logits)
                    (logit parent_logits r pt) (logit parent_logits r pa)))).
  rewrite (torch_where_map_range (fun r =>
             fge (tensor_sub (logits_dtype child_logits)
                    (logit child_logits r ct) (logit child_logits r ca))
                 (tensor_sub (logits_dtype parent_logits)
                    (logit parent_logits r pt) (logit parent_logits r pa)))).
  destruct n as [| n']; [lia |].
  unfold reduce_index, range. simpl seq. simpl map.
  do 3 eexists. split; [reflexivity |].
  split; [| split].
  - simpl. now rewrite length_map, length_seq.
  - intros i Hi. change (mask 0 :: map mask (seq 1 n')) with (map mask (range (S n'))).
    rewrite nth_map_range by assumption. reflexivity.
  - intros i Hi Heq Hle. change (mask 0 :: map mask (seq 1 n')) with (map mask (range (S n'))).
    rewrite nth_map_range by assumption. unfold mask, fge. now rewrite Heq.
Qed.

(** C8, as the code has it.  The evaluator hands the parent batch to the
    classifier first, whatever the shapes of the two batches.  When the
    classifier answers both batches and the two classes are valid columns,
    both queries have been made by the time the call ends, and the numbers
    of rows of the two score tables decide how it ends: in a broadcasting
    error exactly when they differ and neither is one; in the error of a
    reduction over nothing exactly when they broadcast and one of them is
    zero; and with a mask, of as many entries as the larger table has rows,
    when they broadcast and both tables have a row (one image against
    several, for instance).  The shape assertion of the compositor is never
    raised here. *)
Theorem evaluation_step_queries_before_broadcast
  (model : classifier) (parent_imgs child_imgs : batch) (target_class actual_class : Z)
  (w : @world F G) :
  (exists later,
     queries (snd (evaluation_step model parent_imgs child_imgs target_class actual_class w))
     = queries w ++ contents w parent_imgs :: later)
  /\ forall (parent_logits child_logits : logits) (pt pa ct ca : nat),
      model (contents w parent_imgs) = Ok parent_logits ->
      model (contents w child_imgs) = Ok child_logits ->
      normalize_index (classes parent_logits) target_class = Ok pt ->
      normalize_index (classes parent_logits) actual_class = Ok pa ->
      normalize_index (classes child_logits) target_class = Ok ct ->
      normalize_index (classes child_logits) actual_class = Ok ca ->
      let outcome :=
        evaluation_step model parent_imgs child_imgs target_class actual_class w in
      queries (snd outcome)
      = queries w ++ [contents w parent_imgs; contents w child_imgs]
      /\ (fst outcome = Raise BroadcastMismatch
          <-> broadcastable (rows parent_logits) (rows child_logits) = false)
      /\ (fst outcome = Raise EmptyReduction
          <-> broadcastable (rows parent_logits) (rows child_logits) = true
              /\ (rows parent_logits = 0 \/ rows child_logits = 0))
      /\ (broadcastable (rows parent_logits) (rows child_logits) = true ->
          1 <= rows parent_logits -> 1 <= rows child_logits ->
          exists update_mask new_target_logits new_actual_logits,
            fst outcome = Ok (update_mask, new_target_logits, new_actual_logits)
            /\ length update_mask = Nat.max (rows parent_logits) (rows child_logits))
      /\ fst outcome <> Raise ShapeAssertion.
Proof.
  split.
  - unfold evaluation_step, bind, load, call_model, lift, print, ret.
    cbn [fst snd].
    destruct (model (contents w parent_imgs)) as [pl | e]; cbn [fst snd queries].
    2: { exists []. reflexivity. }
    exists [contents w child_imgs].
    destruct (model (contents w child_imgs)) as [cl | e]; cbn [fst snd queries].
    2: { now rewrite <- app_assoc. }
    repeat match goal with
           | |- context [match ?r with Ok _ => _ | Raise _ => _ end] =>
               destruct r; cbn [fst snd queries]
           end; now rewrite <- app_assoc.
  - intros pl cl pt pa ct ca Hp Hc Hpt Hpa Hct Hca outcome. subst outcome.
    unfold evaluation_step, bind, load, call_model, lift, print, ret, column.
    cbn [fst snd]. rewrite Hp. cbn [fst snd queries tensors].
    assert (Hc' : model (contents
                   {| tensors := tensors w; rng := rng w;
                      queries := queries w ++ [contents w parent_imgs];
                      stdout := stdout w |} child_imgs) = Ok cl) by exact Hc.
    change (model (contents w child_imgs)) with
      (model (contents
                {| tensors := tensors w; rng := rng w;
                   queries := queries w ++ [contents w parent_imgs];
                   stdout := stdout w |} child_imgs)).
    rewrite Hc'. rewrite Hpt, Hpa, Hct, Hca. cbn [rbind].
    rewrite !broadcast2_map_range.
    set (pav := map (fun r => logit pl r pa) (range (rows pl))).
    set (cav := map (fun r => logit cl r ca) (range (rows cl))).
    set (ptv := map (fun r => logit pl r pt) (range (rows pl))).
    set (ctv := map (fun r => logit cl r ct) (range (rows cl))).
    set (pdv := map _ (range (rows pl))).
    set (cdv := map _ (range (rows cl))).
    assert (Lpa : length pav = rows pl) by apply length_map_range.
    assert (Lca : length cav = rows cl) by apply length_map_range.
    assert (Lpt : length ptv = rows pl) by apply length_map_range.
    assert (Lct : length ctv = rows cl) by apply length_map_range.
    assert (Lpd : length pdv = rows pl) by apply length_map_range.
    assert (Lcd : length cdv = rows cl) by apply length_map_range.
    assert (Hq : queries w ++ [contents w parent_imgs; contents w child_imgs]
                 = (queries w ++ [contents w parent_imgs]) ++ [contents w child_imgs])
      by now rewrite <- app_assoc.
    destruct (broadcast2_cases
                (tensor_sub (promote (logits_dtype pl) (logits_dtype cl))) pav cav)
      as [(Hb & zs & Hzs & _) | (Hb & Hr)];
      rewrite Lpa, Lca in Hb.
    2: { rewrite Hr. cbn [fst snd queries]. rewrite Hq, Hb.
         split; [reflexivity |]. split; [split; reflexivity |].
         split; [split; [discriminate | intros [Hx _]; discriminate Hx] |].
         split; [intros Hx; discriminate Hx | discriminate]. }
    rewrite Hzs.
    assert (Hb' : broadcastable (rows cl) (rows pl) = true).
    { unfold broadcastable in *. rewrite (Nat.eqb_sym (rows cl)).
      destruct (rows pl =? rows cl), (rows pl =? 1), (rows cl =? 1); auto. }
    destruct (broadcast2_cases fge cdv pdv) as [(_ & mask & Hmask & Lmask) | (Hx & _)];
      rewrite Lcd, Lpd in *; [| congruence].
    rewrite Hmask.
    destruct (torch_where_ok mask ctv ptv) as (nt & Hnt & Lnt);
      rewrite ?Lct, ?Lpt; auto.
    destruct (torch_where_ok mask cav pav) as (na & Hna & Lna);
      rewrite ?Lca, ?Lpa; auto.
    rewrite Hnt, Hna.
    assert (Hlen : length nt = if rows cl =? 1 then rows pl else rows cl) by congruence.
    assert (Hlen' : length na = length nt) by congruence.
    assert (Hbc : rows pl = rows cl \/ rows pl = 1 \/ rows cl = 1).
    { unfold broadcastable in Hb.
      destruct (Nat.eqb_spec (rows pl) (rows cl)); [now left |].
      destruct (Nat.eqb_spec (rows pl) 1); [now right; left |].
      destruct (Nat.eqb_spec (rows cl) 1); [now right; right | discriminate]. }
    destruct nt as [| t0 nt]; destruct na as [| a0 na];
      cbn [length] in Hlen, Hlen'; try discriminate Hlen';
      cbn [reduce_index lift bind fst snd queries]; rewrite Hq, Hb.
    + split; [reflexivity |]. split; [split; discriminate |].
      split.
      { split; [intros _ | reflexivity]. split; [reflexivity |].
        destruct (Nat.eqb_spec (rows cl) 1); lia. }
      split; [| discriminate].
      intros _ H1 H2. exfalso. destruct (Nat.eqb_spec (rows cl) 1); lia.
    + split; [reflexivity |]. split; [split; discriminate |].
      split.
      { split; [discriminate |]. intros [_ H0]. exfalso.
        destruct (Nat.eqb_spec (rows cl) 1); lia. }
      split; [| discriminate].
      intros _ H1 H2. do 3 eexists. split; [reflexivity |].
      rewrite Lmask. destruct (Nat.eqb_spec (rows cl) 1); lia.
Qed.

(** ** Convergence check *)

(** C2.  On score vectors of one length the check returns; it stops exactly
    when some agent's target score is strictly greater than its actual score,
    and then the winners are exactly the agents with that strict inequality,
    each listed once; when it does not stop there are no winners.  An agent
    whose two scores are the same value is never a winner, and if that is so
    of every agent the check does not stop. *)
Theorem stopping_criterion_strict_success {FL : @FloatLaws F FT}
  (target_logits actual_logits : list F) :
  length target_logits = length actual_logits ->
  let exceeds i := fgt (nth i target_logits fzero) (nth i actual_logits fzero) in
  exists stop best_agent,
    stopping_criterion target_logits actual_logits = Ok (stop, best_agent)
    /\ (stop = true <-> exists i, i < length target_logits /\ exceeds i = true)
    /\ (stop = true ->
        exists winners,
          best_agent = Some winners /\ NoDup winners
          /\ forall i, In i winners <-> i < length target_logits /\ exceeds i = true)
    /\ (stop = false -> best_agent = None)
    /\ (forall i, nth i target_logits fzero = nth i actual_logits fzero ->
        exceeds i = false
        /\ forall winners, best_agent = Some winners -> ~ In i winners)
    /\ ((forall i, i < length target_logits ->
           nth i target_logits fzero = nth i actual_logits fzero) ->
        stop = false).
Proof.
  intros Hlen exceeds.
  unfold stopping_criterion.
  rewrite broadcast2_same_length by assumption. cbn [rbind].
  set (gt := map (fun p => fgt (fst p) (snd p)) (combine target_logits actual_logits)).
  assert (Lgt : length gt = length target_logits).
  { unfold gt. rewrite length_map, length_combine. lia. }
  assert (Hnth : forall i, i < length target_logits -> nth i gt false = exceeds i).
  { intros i Hi. unfold gt, exceeds. now apply nth_map_combine. }
  assert (Hany : existsb (fun b : bool => b) gt = true
                 <-> exists i, i < length target_logits /\ exceeds i = true).
  { rewrite existsb_id_nth. rewrite Lgt. split; intros (i & Hi & H); exists i;
      (split; [assumption |]); [rewrite <- Hnth | rewrite Hnth]; assumption. }
  assert (Hwin : forall i, In i (nonzero gt) <-> i < length target_logits /\ exceeds i = true).
  { intros i. rewrite in_nonzero, Lgt. split; intros (Hi & H); (split; [assumption |]);
      [rewrite <- Hnth | rewrite Hnth]; assumption. }
  assert (Htie : forall i, nth i target_logits fzero = nth i actual_logits fzero ->
                           exceeds i = false).
  { intros i Heq. unfold exceeds, fgt. rewrite Heq. apply flt_irrefl. }
  destruct (existsb (fun b : bool => b) gt) eqn:E.
  - exists true, (Some (nonzero gt)).
    split; [reflexivity |]. split; [tauto |]. split.
    { intros _. exists (nonzero gt). auto using NoDup_nonzero. }
    split; [discriminate |]. split.
    { intros i Heq. split; [auto |]. intros winners [= <-] Hin.
      apply Hwin in Hin. rewrite (Htie i Heq) in Hin. now destruct Hin. }
    intros Hall. destruct Hany as [Hany _]. destruct (Hany eq_refl) as (i & Hi & Hex).
    rewrite (Htie i (Hall i Hi)) in Hex. discriminate.
  - exists false, None.
    split; [reflexivity |]. split.
    { split; [discriminate |]. intros H. apply Hany in H. discriminate. }
    split; [discriminate |]. split; [reflexivity |]. split; [| reflexivity].
    intros i Heq. split; [auto |]. discriminate.
Qed.

(** ** Boundary repair *)

Lemma wrap64_small (z : Z) : int64_range z -> wrap64 z = z.
Proof.
  unfold int64_range, wrap64. intros H.
  rewrite Z.mod_small; lia.
Qed.

(** C3, as the code has it.  The two rules run one after the other on every
    component by itself.  An int64 coordinate [v] (other than the least
    int64) of an image of size [size] is kept when [0 <= v <= size - 1],
    becomes [size - 1 - v] when [v > size - 1], becomes [- v] when
    [- (size - 1) <= v < 0], and is reflected twice, to [size - 1 + v], when
    [v < - (size - 1)].  A colour [c] goes through the same two steps with
    the bounds [0] and [1]: negated when below [0], then subtracted from
    [1.0] when what the first step left is above [1]. *)
Theorem boundary_repair_rules_in_sequence
  (height : nat) (n p d : nat) (coords : index3 -> Z) (colors : index3 -> F)
  (k : index3) :
  let size := Z.of_nat height in
  let v := coords k in
  let c := colors k in
  let repaired_coord :=
    item (buf (repair_coords size (NDArray n p d (IntBuf coords)))) k in
  let repaired_color :=
    item (buf (repair_pixel_values (NDArray n p d (FloatBuf colors)))) k in
  (- 2 ^ 63 < v < 2 ^ 63)%Z ->
  ((0 <= v <= size - 1)%Z -> repaired_coord = SInt v)
  /\ ((0 <= v /\ size - 1 < v)%Z -> repaired_coord = SInt (size - 1 - v))
  /\ ((- (size - 1) <= v < 0)%Z -> repaired_coord = SInt (- v))
  /\ ((v < 0 /\ v < - (size - 1))%Z -> repaired_coord = SInt (size - 1 + v))
  /\ (flt c (of_int 0) = false -> fgt c (of_int 1) = false ->
      repaired_color = SFloat c)
  /\ (flt c (of_int 0) = false -> fgt c (of_int 1) = true ->
      repaired_color = SFloat (fsub fone c))
  /\ (flt c (of_int 0) = true -> fgt (fneg c) (of_int 1) = false ->
      repaired_color = SFloat (fneg c))
  /\ (flt c (of_int 0) = true -> fgt (fneg c) (of_int 1) = true ->
      repaired_color = SFloat (fsub fone (fneg c))).
Proof.
  intros size v c repaired_coord repaired_color Hv.
  assert (Hneg : wrap64 (- v) = (- v)%Z) by (apply wrap64_small; unfold int64_range; lia).
  assert (Hsize : (0 <= size)%Z) by (unfold size; lia).
  subst repaired_coord repaired_color.
  unfold repair_coords, repair_pixel_values, with_buf.
  cbn [buf np_where np_lt_int np_gt_int np_neg np_int_sub np_one_sub as_float item].
  fold v c.
  repeat split.
  - intros H. destruct (Z.ltb_spec v 0); [lia |].
    destruct (Z.ltb_spec (size - 1) v); [lia | reflexivity].
  - intros H. destruct (Z.ltb_spec v 0); [lia |].
    destruct (Z.ltb_spec (size - 1) v); [| lia].
    f_equal. apply wrap64_small. unfold int64_range. lia.
  - intros H. destruct (Z.ltb_spec v 0); [| lia]. rewrite Hneg.
    destruct (Z.ltb_spec (size - 1) (- v)); [lia | reflexivity].
  - intros H. destruct (Z.ltb_spec v 0); [| lia]. rewrite Hneg.
    destruct (Z.ltb_spec (size - 1) (- v)); [| lia].
    f_equal. rewrite wrap64_small; unfold int64_range; lia.
  - intros H0 H1. rewrite H0, H1. reflexivity.
  - intros H0 H1. rewrite H0, H1. reflexivity.
  - intros H0 H1. rewrite H0, H1. reflexivity.
  - intros H0 H1. rewrite H0, H1. reflexivity.
Qed.

(** ** Mutation engine *)

Lemma skip_neq (i k : nat) : skip i k <> i.
Proof. unfold skip. destruct (Nat.ltb_spec k i); lia. Qed.

Lemma skip_lt (n i k : nat) : k < n - 1 -> skip i k < n.
Proof. unfold skip. destruct (Nat.ltb_spec k i); lia. Qed.

Lemma skip_onto (n i m : nat) :
  i < n -> m < n -> m <> i ->
  exists k, k < n - 1 /\ skip i k = m /\ forall k', skip i k' = m -> k' = k.
Proof.
  intros Hi Hm Hne. exists (if m <? i then m else pred m).
  unfold skip. destruct (Nat.ltb_spec m i) as [H | H].
  - split; [lia |]. split.
    + destruct (Nat.ltb_spec m i); lia.
    + intros k'. destruct (Nat.ltb_spec k' i); lia.
  - split; [lia |]. split.
    + destruct (Nat.ltb_spec (pred m) i); lia.
    + intros k'. destruct (Nat.ltb_spec k' i); lia.
Qed.

Lemma take_row_np_delete (a : @ndarray F) (i k : nat) :
  k < dim0 a - 1 ->
  take_row (np_delete a i) k = Ok (row a (skip i k)).
Proof.
  intros Hk. unfold take_row, np_delete, row. cbn [dim0 buf].
  destruct (Nat.ltb_spec k (pred (dim0 a))); [| lia].
  destruct (buf a); reflexivity.
Qed.

(** C4.  For agent [i] the pool is the parent array without row [i]:
    position [k] of the pool is agent [skip i k], which is never [i], and
    every other agent sits at exactly one position of the pool, so that a
    draw over the positions is a draw over the other agents.  With a single
    agent the pool is empty and sampling fails.  Otherwise, whatever three
    positions [a], [b], [c] of the pool the generator returns, equal or not,
    the parents sampled are the rows of agents [skip i a], [skip i b] and
    [skip i c], none of them [i]; when [b] and [c] coincide the differential
    of integer rows is zero (and [x - x] on float rows). *)
Theorem sampled_parents_exclude_self
  (parent_candidates : @ndarray F) (i : nat) (w : @world F G) :
  let n := dim0 parent_candidates in
  i < n ->
  (forall k, k < n - 1 -> skip i k < n /\ skip i k <> i)
  /\ (forall m, m < n -> m <> i ->
      exists k, k < n - 1 /\ skip i k = m /\ forall k', skip i k' = m -> k' = k)
  /\ (n = 1 -> sample_parents parent_candidates i w = (Raise EmptyPool, w))
  /\ (forall a b c g,
        2 <= n ->
        choice3 (n - 1) (rng w) = ((a, b, c), g) ->
        a < n - 1 -> b < n - 1 -> c < n - 1 ->
        sample_parents parent_candidates i w
        = (Ok (row parent_candidates (skip i a),
               row parent_candidates (skip i b),
               row parent_candidates (skip i c)),
           {| tensors := tensors w; rng := g; queries := queries w; stdout := stdout w |})
        /\ skip i a <> i /\ skip i b <> i /\ skip i c <> i
        /\ (b = c ->
            forall jd,
              item (np_sub (row parent_candidates (skip i b))
                           (row parent_candidates (skip i c))) jd
              = match item (row parent_candidates (skip i b)) jd with
                | SInt _ => SInt 0
                | SFloat x => SFloat (fsub x x)
                end)).
Proof.
  intros n Hi. split; [| split; [| split]].
  - intros k Hk. split; [now apply skip_lt | apply skip_neq].
  - intros m Hm Hne. now apply skip_onto.
  - intros Hn. unfold sample_parents, bind, np_random_choice3, np_delete. cbn [dim0].
    fold n. rewrite Hn. reflexivity.
  - intros a b c g Hn Hdraw Ha Hb Hc.
    split; [| repeat split; try apply skip_neq].
    + unfold sample_parents, bind, np_random_choice3.
      replace (dim0 (np_delete parent_candidates i)) with (n - 1)
        by (unfold np_delete; cbn [dim0]; fold n; lia).
      destruct (n - 1) as [| n'] eqn:En; [lia |].
      rewrite Hdraw. unfold lift, ret.
      rewrite !take_row_np_delete by (fold n; lia). reflexivity.
    + intros -> jd. unfold row. destruct (buf parent_candidates) as [f | f]; cbn.
      * rewrite Z.sub_diag. reflexivity.
      * reflexivity.
Qed.

Lemma item_np_where {I} (cond : I -> bool) (x y : buffer I) (k : I) :
  item (np_where cond x y) k
  = cast_like (is_int x && is_int y) (if cond k then item x k else item y k).
Proof. destruct x, y; cbn; destruct (cond k); reflexivity. Qed.

Lemma is_int_np_where {I} (cond : I -> bool) (x y : buffer I) :
  is_int (np_where cond x y) = is_int x && is_int y.
Proof. destruct x, y; reflexivity. Qed.

Lemma is_int_row (a : @ndarray F) (i : nat) : is_int (row a i) = is_int (buf a).
Proof. unfold row. destruct (buf a); reflexivity. Qed.

Lemma item_row (a : @ndarray F) (i j d : nat) :
  item (row a i) (j, d) = item (buf a) (i, j, d).
Proof. unfold row. destruct (buf a); reflexivity. Qed.

Lemma is_int_potential_child (F_ : F) (round_ : bool) parents :
  is_int (potential_child F_ round_ parents) = round_.
Proof. destruct parents as [[p0 p1] p2], round_; reflexivity. Qed.

Lemma item_potential_child (F_ : F) (round_ : bool) p0 p1 p2 jd :
  item (potential_child F_ round_ (p0, p1, p2)) jd = proposal F_ round_ p0 p1 p2 jd.
Proof. destruct round_; reflexivity. Qed.

Lemma generate_child_ok (parent_candidates : @ndarray F) (cr_prob F_ : F)
  (round_ : bool) (i : nat) (w w' : @world F G) (child : buffer index2) :
  generate_child parent_candidates cr_prob F_ round_ i w = (Ok child, w') ->
  exists p0 p1 p2 wi u,
    sample_parents parent_candidates i w = (Ok (p0, p1, p2), wi)
    /\ fst (uniform (dim1 parent_candidates) (rng wi)) = u
    /\ is_int child = round_ && is_int (buf parent_candidates)
    /\ forall j d,
         item child (j, d)
         = cast_like (round_ && is_int (buf parent_candidates))
             (if flt (u j) cr_prob
              then proposal F_ round_ p0 p1 p2 (j, d)
              else item (buf parent_candidates) (i, j, d)).
Proof.
  unfold generate_child, bind. intros H.
  destruct (sample_parents parent_candidates i w) as [[[[p0 p1] p2] | e] wi] eqn:Hs;
    [| discriminate].
  unfold np_random_uniform, ret in H.
  destruct (uniform (dim1 parent_candidates) (rng wi)) as [u g] eqn:Hu.
  injection H as <- _.
  change (if round_
          then IntBuf (fun k : index2 => rint_to_int (linear_combination F_ p0 p1 p2 k))
          else FloatBuf (linear_combination F_ p0 p1 p2))
    with (potential_child F_ round_ (p0, p1, p2)).
  exists p0, p1, p2, wi, u. split; [reflexivity |]. split; [now rewrite Hu |]. split.
  - now rewrite is_int_np_where, is_int_potential_child, is_int_row.
  - intros j d.
    rewrite item_np_where, is_int_potential_child, is_int_row, item_potential_child, item_row.
    reflexivity.
Qed.

Lemma np_stack_item (p d : nat) (children : list (buffer index2)) (b : bool)
  (a : @ndarray F) :
  (forall i c0, i < length children -> is_int (nth i children c0) = b) ->
  np_stack p d children = Ok a ->
  dim0 a = length children /\ dim1 a = p /\ dim2 a = d
  /\ forall i j k c0, i < length children ->
       item (buf a) (i, j, k) = item (nth i children c0) (j, k).
Proof.
  intros Hint H. unfold np_stack in H.
  destruct children as [| c0 rest] eqn:Hc; [discriminate |].
  rewrite <- Hc in *. injection H as <-. cbn [dim0 dim1 dim2 buf].
  repeat split.
  intros i j k c1 Hi.
  assert (Hall : forallb is_int children = b).
  { destruct b.
    - apply forallb_forall. intros c Hin.
      destruct (In_nth _ _ c0 Hin) as (m & Hm & <-). now apply Hint.
    - destruct (forallb is_int children) eqn:E; [| reflexivity].
      rewrite forallb_forall in E.
      assert (H0 : 0 < length children) by (rewrite Hc; cbn; lia).
      rewrite <- (Hint 0 c0 H0). symmetry. apply E, nth_In, H0. }
  rewrite Hall. rewrite (nth_indep children c1 c0 Hi).
  specialize (Hint i c0 Hi).
  destruct b; cbn; destruct (nth i children c0); cbn in *; congruence.
Qed.

(** When [generate_children] returns, each child is the outcome of the loop
    body for its agent, and the array has the shape of the parents. *)
Lemma generate_children_ok (parent_candidates : @ndarray F) (cr_prob F_ : F)
  (round_ : bool) (w w' : @world F G) (children : @ndarray F) :
  generate_children parent_candidates cr_prob F_ round_ w = (Ok children, w') ->
  dim0 children = dim0 parent_candidates
  /\ dim1 children = dim1 parent_candidates
  /\ dim2 children = dim2 parent_candidates
  /\ forall i, i < dim0 parent_candidates ->
       exists (child : buffer index2) (w0 w1 : @world F G),
         generate_child parent_candidates cr_prob F_ round_ i w0 = (Ok child, w1)
         /\ forall j d, item (buf children) (i, j, d) = item child (j, d).
Proof.
  unfold generate_children, bind, lift. intros H.
  destruct (for_each (range (dim0 parent_candidates))
              (generate_child parent_candidates cr_prob F_ round_) w)
    as [[cs | e] w1] eqn:Hloop; [| discriminate].
  destruct (np_stack (dim1 parent_candidates) (dim2 parent_candidates) cs)
    as [a | e] eqn:Hstack; [| discriminate].
  injection H as <- _.
  destruct (for_each_ok_nth _ _ _ Hloop) as [Hlen Hnth].
  unfold range in Hlen, Hnth. rewrite length_seq in Hlen, Hnth.
  assert (Hint : forall i c0, i < length cs ->
                   is_int (nth i cs c0) = round_ && is_int (buf parent_candidates)).
  { intros i c0 Hi. rewrite Hlen in Hi.
    destruct (Hnth i 0 c0 Hi) as (w0 & w2 & Hchild). rewrite seq_nth in Hchild by assumption.
    destruct (generate_child_ok _ _ _ _ _ _ Hchild) as (? & ? & ? & ? & ? & _ & _ & Hd & _).
    exact Hd. }
  destruct (np_stack_item _ _ _ Hint Hstack) as (D0 & D1 & D2 & Hitem).
  rewrite D0, D1, D2, Hlen. repeat split.
  intros i Hi.
  destruct (Hnth i 0 (IntBuf (fun _ => 0%Z)) Hi) as (w0 & w2 & Hchild).
  rewrite seq_nth in Hchild by assumption. cbn [Nat.add] in Hchild.
  exists (nth i cs (IntBuf (fun _ => 0%Z))), w0, w2. split; [exact Hchild |].
  intros j d. apply Hitem. lia.
Qed.

(** C5.  When [generate_children] returns, the children have the shape of
    the parents, and for every agent [i] there are the three parents sampled
    in its iteration and the vector [u] of uniform draws of its iteration,
    one draw per pixel unit, such that unit [j] of child [i] is, in every
    dimension [d] alike, the proposal [p0 + F*(p1 - p2)] (rounded when
    rounding is requested) if [u j < cr] and unit [j] of parent [i]
    otherwise.  Elements are promoted as NumPy does; for integer parents with
    rounding and for float parents without, they are taken as they are. *)
Theorem crossover_mask_per_pixel_unit
  (parent_candidates : @ndarray F) (cr_prob F_ : F) (round_ : bool)
  (w w' : @world F G) (children : @ndarray F) :
  generate_children parent_candidates cr_prob F_ round_ w = (Ok children, w') ->
  dim0 children = dim0 parent_candidates
  /\ dim1 children = dim1 parent_candidates
  /\ dim2 children = dim2 parent_candidates
  /\ forall i, i < dim0 parent_candidates ->
       exists (p0 p1 p2 : buffer index2) (u : nat -> F) (w0 wi : @world F G),
         sample_parents parent_candidates i w0 = (Ok (p0, p1, p2), wi)
         /\ fst (uniform (dim1 parent_candidates) (rng wi)) = u
         /\ (forall j d,
               item (buf children) (i, j, d)
               = cast_like (round_ && is_int (buf parent_candidates))
                   (if flt (u j) cr_prob
                    then proposal F_ round_ p0 p1 p2 (j, d)
                    else item (buf parent_candidates) (i, j, d)))
         /\ (round_ = is_int (buf parent_candidates) ->
             forall j d,
               item (buf children) (i, j, d)
               = if flt (u j) cr_prob
                 then proposal F_ round_ p0 p1 p2 (j, d)
                 else item (buf parent_candidates) (i, j, d)).
Proof.
  intros H. destruct (generate_children_ok _ _ _ _ _ H) as (D0 & D1 & D2 & Hrows).
  repeat split; try assumption.
  intros i Hi. destruct (Hrows i Hi) as (child & w0 & w2 & Hchild & Hitem).
  destruct (generate_child_ok _ _ _ _ _ _ Hchild)
    as (p0 & p1 & p2 & wi & u & Hs & Hu & _ & Hunit).
  exists p0, p1, p2, u, w0, wi.
  split; [exact Hs |]. split; [exact Hu |].
  assert (Hgen : forall j d,
             item (buf children) (i, j, d)
             = cast_like (round_ && is_int (buf parent_candidates))
                 (if flt (u j) cr_prob
                  then proposal F_ round_ p0 p1 p2 (j, d)
                  else item (buf parent_candidates) (i, j, d))).
  { intros j d. rewrite Hitem. apply Hunit. }
  split; [exact Hgen |].
  intros Hsame j d. rewrite Hgen. rewrite <- Hsame.
  unfold cast_like, proposal.
  destruct round_; cbn [andb].
  - reflexivity.
  - destruct (flt (u j) cr_prob); [reflexivity |].
    destruct (buf parent_candidates); [discriminate | reflexivity].
Qed.

(** ** Image compositor *)

Lemma last_such_none (hit : nat -> bool) (p : nat) :
  last_such hit p = None <-> forall j, j < p -> hit j = false.
Proof.
  induction p as [| p IH]; cbn.
  - split; [intros _ j Hj; lia | reflexivity].
  - destruct (hit p) eqn:E.
    + split; [discriminate |]. intros H. rewrite H in E by lia. discriminate.
    + rewrite IH. split; intros H j Hj.
      * destruct (Nat.eq_dec j p) as [-> | Hne]; [assumption | apply H; lia].
      * apply H. lia.
Qed.

Lemma last_such_some (hit : nat -> bool) (p j : nat) :
  last_such hit p = Some j
  <-> j < p /\ hit j = true /\ forall j', j < j' < p -> hit j' = false.
Proof.
  induction p as [| p IH]; cbn.
  - split; [discriminate | intros (H & _); lia].
  - destruct (hit p) eqn:E.
    + split.
      * intros [= <-]. repeat split; [lia | assumption | intros j' Hj'; lia].
      * intros (Hj & Hhit & Hlast).
        destruct (Nat.eq_dec j p) as [-> | Hne]; [reflexivity |].
        rewrite Hlast in E by lia. discriminate.
    + rewrite IH. split.
      * intros (Hj & Hhit & Hlast). repeat split; [lia | assumption |].
        intros j' Hj'. destruct (Nat.eq_dec j' p) as [-> | Hne]; [assumption | apply Hlast; lia].
      * intros (Hj & Hhit & Hlast).
        assert (j <> p) by congruence.
        repeat split; [lia | assumption | intros j' Hj'; apply Hlast; lia].
Qed.

Lemma frame_refl (ptr : nat) (w : @world F G) : frame ptr w w.
Proof. unfold frame. auto. Qed.

Lemma frame_trans (ptr : nat) (w0 w1 w2 : @world F G) :
  frame ptr w0 w1 -> frame ptr w1 w2 -> frame ptr w0 w2.
Proof.
  unfold frame. intros (A1 & B1 & C1 & D1 & E1) (A2 & B2 & C2 & D2 & E2).
  repeat split; try congruence. intros q Hq. rewrite E2, E1; auto.
Qed.

Lemma to_dtype_float64 (s : @scalar F) : to_dtype Float64 s = float_of_scalar s.
Proof. destruct s; reflexivity. Qed.

Lemma float_of_scalar_item {I} (b : buffer I) (k : I) :
  float_of_scalar (F := F) (item b k) = as_float b k.
Proof. destruct b; reflexivity. Qed.

Lemma setitem_pixel_ok (t : batch) (i : nat) (x y : Z) (value : nat -> scalar) (len : nat)
  (w : @world F G) (x' y' : nat) :
  normalize_index (batch_height t) x = Ok x' ->
  normalize_index (batch_width t) y = Ok y' ->
  (len =? batch_channels t) || (len =? 1) = true ->
  exists w',
    setitem_pixel t i (SInt x) (SInt y) value len w = (Ok tt, w')
    /\ frame (batch_ptr t) w w'
    /\ forall i' c a b,
         cell (tensors w') (batch_ptr t) [i'; c; a; b]
         = if (i' =? i) && (a =? x') && (b =? y')
           then to_dtype (batch_dtype t) (value (if len =? 1 then 0 else c))
           else cell (tensors w) (batch_ptr t) [i'; c; a; b].
Proof.
  intros Hx Hy Hlen.
  unfold setitem_pixel, bind, lift, as_index. rewrite Hx, Hy, Hlen.
  eexists. split; [reflexivity |]. split.
  - unfold frame, set_tensors. cbn. repeat split.
    intros q Hq. destruct (Nat.eqb_spec q (batch_ptr t)); [contradiction | reflexivity].
  - intros i' c a b. unfold set_tensors. cbn. now rewrite Nat.eqb_refl.
Qed.

Lemma lands_on_normalized (h wd : nat) (f : index3 -> Z) (i j x y x' y' : nat) :
  normalize_index h (f (i, j, 0)) = Ok x' ->
  normalize_index wd (f (i, j, 1)) = Ok y' ->
  lands_on h wd f i j x y = (x =? x') && (y =? y').
Proof.
  intros Hx Hy. unfold lands_on. rewrite Hx, Hy.
  now rewrite (Nat.eqb_sym x'), (Nat.eqb_sym y').
Qed.

(** The compositor on integer coordinates that index inside the image,
    from the front or from the end: it returns a batch on a fresh storage,
    every other storage is as before, and each pixel of each variant holds
    what the last unit written there left, or the base image. *)
Lemma generate_image_variants_paints (img : image) (coords vals : @ndarray F)
  (f : index3 -> Z) (w : @world F G) :
  dim0 coords = dim0 vals ->
  dim1 coords = dim1 vals ->
  buf coords = IntBuf f ->
  2 <= dim2 coords ->
  (dim2 vals =? channels img) || (dim2 vals =? 1) = true ->
  (forall i j, i < dim0 coords -> j < dim1 coords ->
     exists x y, normalize_index (height img) (f (i, j, 0)) = Ok x
                 /\ normalize_index (width img) (f (i, j, 1)) = Ok y) ->
  exists w',
    generate_image_variants img coords vals w
    = (Ok {| batch_ptr := next (tensors w);
             batch_dtype := img_dtype img;
             batch_size := dim0 coords;
             batch_channels := channels img;
             batch_height := height img;
             batch_width := width img |}, w')
    /\ next (tensors w') = S (next (tensors w))
    /\ rng w' = rng w /\ queries w' = queries w /\ stdout w' = stdout w
    /\ (forall q, q <> next (tensors w) -> cell (tensors w') q = cell (tensors w) q)
    /\ forall i c x y,
         cell (tensors w') (next (tensors w)) [i; c; x; y]
         = if i <? dim0 coords
           then painted (cell (tensors w) (img_ptr img)) (img_dtype img)
                  (height img) (width img) f vals (dim1 coords) i c x y
           else cell (tensors w) (img_ptr img) [c; x; y].
Proof.
  intros D0 D1 Hbuf D2 Hlen Hidx.
  set (p := next (tensors w)).
  set (base := cell (tensors w) (img_ptr img)).
  set (new_imgs := {| batch_ptr := p; batch_dtype := img_dtype img;
                      batch_size := dim0 coords;
                      batch_channels := channels img; batch_height := height img;
                      batch_width := width img |}).
  unfold generate_image_variants. rewrite <- D0, <- D1, !Nat.eqb_refl. cbn [andb].
  unfold bind at 1. unfold repeat_batch, detach. fold p. fold new_imgs.
  set (w1 := set_tensors w _).
  set (outer := fun (i0 : nat) (w2 : @world F G) =>
         frame p w1 w2
         /\ forall i c x y,
              cell (tensors w2) p [i; c; x; y]
              = if i <? i0
                then painted base (img_dtype img) (height img) (width img) f vals
                       (dim1 coords) i c x y
                else base [c; x; y]).
  assert (Hloop : exists w', for_each_ (range (dim0 coords))
                    (fun i => for_each_ (range (dim1 coords)) (fun j =>
                       write_unit new_imgs coords vals i j)) w1
                    = (Ok tt, w') /\ outer (dim0 coords) w').
  { apply for_each__invariant.
    - intros i0 w2 Hi0 (Hframe & Hcontent).
      set (inner := fun (j0 : nat) (w3 : @world F G) =>
             frame p w1 w3
             /\ forall i c x y,
                  cell (tensors w3) p [i; c; x; y]
                  = if i =? i0
                    then painted base (img_dtype img) (height img) (width img) f vals
                           j0 i c x y
                    else if i <? i0
                         then painted base (img_dtype img) (height img) (width img)
                                f vals (dim1 coords) i c x y
                         else base [c; x; y]).
      destruct (@for_each__invariant _ inner
                 (fun j => write_unit new_imgs coords vals i0 j)
                 (dim1 coords)) with (w := w2) as (w3 & Hrun & Hfr3 & Hc3).
      + intros j0 w3 Hj0 (Hfr & Hc).
        destruct (Hidx i0 j0 Hi0 Hj0) as (x' & y' & Hx & Hy).
        destruct (@setitem_pixel_ok new_imgs i0 (f (i0, j0, 0)) (f (i0, j0, 1))
                    (fun c => item (buf vals) (i0, j0, c)) (dim2 vals) w3 x' y')
          as (w4 & Hset & Hfr4 & Hc4); auto.
        exists w4. split.
        * unfold write_unit, bind, lift, element. rewrite Hbuf. cbn [item].
          destruct (Nat.ltb_spec 0 (dim2 coords)); [| lia].
          destruct (Nat.ltb_spec 1 (dim2 coords)); [| lia].
          exact Hset.
        * split; [eapply frame_trans; eassumption |].
          intros i c x y. cbn [batch_ptr new_imgs] in Hc4. rewrite Hc4, Hc.
          destruct (Nat.eqb_spec i i0) as [-> | Hne]; cbn [andb]; [| reflexivity].
          unfold painted. cbn [last_such]. cbv beta.
          rewrite (lands_on_normalized _ _ _ _ _ _ _ Hx Hy).
          destruct ((x =? x') && (y =? y')); reflexivity.
      + split; [assumption |]. intros i c x y. rewrite Hcontent.
        unfold painted. cbn [last_such].
        destruct (Nat.eqb_spec i i0) as [-> | Hne]; [| reflexivity].
        now rewrite Nat.ltb_irrefl.
      + exists w3. split; [exact Hrun |]. split; [assumption |].
        intros i c x y. rewrite Hc3.
        destruct (Nat.eqb_spec i i0) as [-> | Hne].
        * destruct (Nat.ltb_spec i0 (S i0)); [reflexivity | lia].
        * destruct (Nat.ltb_spec i i0), (Nat.ltb_spec i (S i0)); try reflexivity; lia.
    - split; [apply frame_refl |]. intros i c x y.
      unfold w1, set_tensors. cbn. now rewrite Nat.eqb_refl. }
  destruct Hloop as (w' & Hrun & (Hn & Hr & Hq & Hs & Hcells) & Hcontent).
  exists w'. unfold bind at 1. rewrite Hrun. split; [reflexivity |].
  unfold w1, set_tensors in Hn, Hr, Hq, Hs, Hcells. cbn in Hn, Hr, Hq, Hs, Hcells.
  repeat split; try assumption.
  - intros q Hne. rewrite Hcells by assumption.
    destruct (Nat.eqb_spec q p); [contradiction | reflexivity].
Qed.

Lemma normalize_index_front (len : nat) (k : Z) :
  (0 <= k < Z.of_nat len)%Z -> normalize_index len k = Ok (Z.to_nat k).
Proof.
  intros H. destruct (normalize_index_cases len k) as [(_ & ->) | (Hn & _)]; [| lia].
  destruct (Z.ltb_spec k 0); [lia | reflexivity].
Qed.

Lemma normalize_index_back (len k : nat) :
  1 <= k <= len -> normalize_index len (- Z.of_nat k) = Ok (len - k).
Proof.
  intros H.
  destruct (normalize_index_cases len (- Z.of_nat k)) as [(_ & ->) | (Hn & _)]; [| lia].
  destruct (Z.ltb_spec (- Z.of_nat k) 0); [| lia]. f_equal. lia.
Qed.

(** C6, as the code has it.  For integer positions inside the image and
    colour vectors of one entry per channel, the compositor returns a batch
    on a storage that did not exist before, of one variant per agent and of
    the shape and the element type of the base image.  Every storage that
    existed, that of the base image among them, is unchanged.  A pixel that
    is not in the position list of agent [i] holds the base image in variant
    [i]; a listed position holds, in every channel, the colour of the last
    unit of the agent listed at that position (the colour paired with it,
    when the positions of the agent are distinct), converted to the element
    type of the image: the colour itself in a float64 image, the colour
    rounded to float32 in a float32 image. *)
Theorem image_variants_overwrite_listed_pixels
  (img : image) (coords vals : @ndarray F) (f : index3 -> Z) (w : @world F G) :
  dim0 coords = dim0 vals ->
  dim1 coords = dim1 vals ->
  buf coords = IntBuf f ->
  2 <= dim2 coords ->
  dim2 vals = channels img ->
  img_ptr img < next (tensors w) ->
  (forall i j, i < dim0 coords -> j < dim1 coords ->
     (0 <= f (i, j, 0%nat) < Z.of_nat (height img))%Z
     /\ (0 <= f (i, j, 1%nat) < Z.of_nat (width img))%Z) ->
  exists new_imgs w',
    generate_image_variants img coords vals w = (Ok new_imgs, w')
    /\ batch_size new_imgs = dim0 coords
    /\ batch_channels new_imgs = channels img
    /\ batch_height new_imgs = height img
    /\ batch_width new_imgs = width img
    /\ batch_dtype new_imgs = img_dtype img
    /\ next (tensors w) <= batch_ptr new_imgs
    /\ (forall q, q < next (tensors w) -> cell (tensors w') q = cell (tensors w) q)
    /\ cell (tensors w') (img_ptr img) = cell (tensors w) (img_ptr img)
    /\ (forall i c x y,
          i < dim0 coords ->
          (forall j, j < dim1 coords ->
             ~ (f (i, j, 0) = Z.of_nat x /\ f (i, j, 1) = Z.of_nat y)) ->
          cell (tensors w') (batch_ptr new_imgs) [i; c; x; y]
          = cell (tensors w) (img_ptr img) [c; x; y])
    /\ (forall i j c,
          i < dim0 coords -> j < dim1 coords -> c < channels img ->
          (forall j', j < j' < dim1 coords ->
             ~ (f (i, j', 0) = f (i, j, 0) /\ f (i, j', 1) = f (i, j, 1))) ->
          cell (tensors w') (batch_ptr new_imgs)
            [i; c; Z.to_nat (f (i, j, 0)); Z.to_nat (f (i, j, 1))]
          = to_dtype (img_dtype img) (item (buf vals) (i, j, c))
          /\ (img_dtype img = Float64 ->
              cell (tensors w') (batch_ptr new_imgs)
                [i; c; Z.to_nat (f (i, j, 0)); Z.to_nat (f (i, j, 1))]
              = as_float (buf vals) (i, j, c))).
Proof.
  intros D0 D1 Hbuf D2 Hlen Hptr Hrange.
  assert (Hnorm : forall i j, i < dim0 coords -> j < dim1 coords ->
            normalize_index (height img) (f (i, j, 0)) = Ok (Z.to_nat (f (i, j, 0)))
            /\ normalize_index (width img) (f (i, j, 1)) = Ok (Z.to_nat (f (i, j, 1)))).
  { intros i j Hi Hj. destruct (Hrange i j Hi Hj).
    split; apply normalize_index_front; assumption. }
  destruct (@generate_image_variants_paints img coords vals f w)
    as (w' & Hrun & Hnext & _ & _ & _ & Hframe & Hpaint); auto.
  { rewrite Hlen, Nat.eqb_refl. reflexivity. }
  { intros i j Hi Hj. destruct (Hnorm i j Hi Hj). eauto. }
  eexists. exists w'. split; [exact Hrun |]. cbn [batch_size batch_channels batch_height
                                                  batch_width batch_ptr batch_dtype].
  do 5 (split; [reflexivity |]). split; [lia |].
  split; [intros q Hq; apply Hframe; lia |].
  split; [apply Hframe; lia |].
  split.
  - intros i c x y Hi Hnot. rewrite Hpaint.
    destruct (Nat.ltb_spec i (dim0 coords)); [| lia].
    unfold painted.
    replace (last_such (fun j => lands_on (height img) (width img) f i j x y) (dim1 coords))
      with (@None nat); [reflexivity |].
    symmetry. apply last_such_none. intros j Hj.
    destruct (Hnorm i j Hi Hj) as [Hx Hy]. destruct (Hrange i j Hi Hj).
    rewrite (lands_on_normalized _ _ _ _ _ _ _ Hx Hy).
    destruct (Nat.eqb_spec x (Z.to_nat (f (i, j, 0)))),
      (Nat.eqb_spec y (Z.to_nat (f (i, j, 1)))); try reflexivity.
    exfalso. apply (Hnot j Hj). lia.
  - intros i j c Hi Hj Hc Hlast. rewrite Hpaint.
    destruct (Nat.ltb_spec i (dim0 coords)); [| lia].
    unfold painted.
    replace (last_such
               (fun j0 => lands_on (height img) (width img) f i j0
                            (Z.to_nat (f (i, j, 0))) (Z.to_nat (f (i, j, 1))))
               (dim1 coords))
      with (Some j).
    + assert (Hch : (if dim2 vals =? 1 then 0 else c) = c).
      { destruct (Nat.eqb_spec (dim2 vals) 1); lia. }
      rewrite Hch. split; [reflexivity |].
      intros ->. now rewrite to_dtype_float64, float_of_scalar_item.
    + symmetry. apply last_such_some. split; [assumption |]. split.
      * destruct (Hnorm i j Hi Hj) as [Hx Hy].
        rewrite (lands_on_normalized _ _ _ _ _ _ _ Hx Hy). now rewrite !Nat.eqb_refl.
      * intros j' Hj'.
        destruct (Hnorm i j') as [Hx Hy]; [assumption | lia |].
        destruct (Hrange i j') as [? ?]; [assumption | lia |].
        destruct (Hrange i j Hi Hj) as [? ?].
        rewrite (lands_on_normalized _ _ _ _ _ _ _ Hx Hy).
        destruct (Nat.eqb_spec (Z.to_nat (f (i, j, 0))) (Z.to_nat (f (i, j', 0)))),
          (Nat.eqb_spec (Z.to_nat (f (i, j, 1))) (Z.to_nat (f (i, j', 1)))); try reflexivity.
        exfalso. apply (Hlast j' Hj'). lia.
Qed.

Lemma write_unit_not_assertion (new_imgs : batch) (coords vals : @ndarray F)
  (i j : nat) (w w' : @world F G) (e : error) :
  write_unit new_imgs coords vals i j w = (Raise e, w') -> e <> ShapeAssertion.
Proof.
  unfold write_unit, setitem_pixel, bind, lift, element, as_index, normalize_index, raise.
  repeat match goal with
         | |- context [if ?b then _ else _] => destruct b
         | |- context [match item ?b ?k with SInt _ => _ | SFloat _ => _ end] =>
             destruct (item b k)
         end;
    intros H; congruence.
Qed.

(** C7.  When the numbers of agents or the numbers of units of the two
    arrays disagree, the compositor raises the shape assertion at once: the
    world is the one it was called in, so no tensor has been allocated.
    When they agree, the assertion is not what it raises. *)
Theorem image_variants_assert_matching_counts
  (img : image) (coords vals : @ndarray F) (w : @world F G) :
  ((dim0 coords <> dim0 vals \/ dim1 coords <> dim1 vals) ->
   generate_image_variants img coords vals w = (Raise ShapeAssertion, w))
  /\ ((dim0 coords = dim0 vals /\ dim1 coords = dim1 vals) ->
      fst (generate_image_variants img coords vals w) <> Raise ShapeAssertion).
Proof.
  unfold generate_image_variants. split.
  - intros Hne.
    destruct (Nat.eqb_spec (dim0 coords) (dim0 vals)),
      (Nat.eqb_spec (dim1 coords) (dim1 vals)); cbn [andb]; try reflexivity.
    destruct Hne; contradiction.
  - intros [-> ->]. rewrite !Nat.eqb_refl. cbn [andb].
    unfold bind at 1. unfold repeat_batch. unfold bind at 1.
    match goal with
    | |- context [for_each_ ?xs ?body ?w1] =>
        destruct (for_each_ xs body w1) as [[[] | e] w2] eqn:Hloop
    end.
    + discriminate.
    + cbn [fst]. intros [= ->].
      destruct (for_each__raise_inv _ _ _ Hloop) as (i & w3 & w4 & _ & Hinner).
      destruct (for_each__raise_inv _ _ _ Hinner) as (j & w5 & w6 & _ & Hunit).
      now apply write_unit_not_assertion in Hunit.
Qed.

Lemma write_unit_cases (new_imgs : batch) (coords vals : @ndarray F) (f : index3 -> Z)
  (i j : nat) (w : @world F G) :
  buf coords = IntBuf f ->
  2 <= dim2 coords ->
  (dim2 vals =? batch_channels new_imgs) || (dim2 vals =? 1) = true ->
  let inside :=
    (- Z.of_nat (batch_height new_imgs) <= f (i, j, 0%nat) < Z.of_nat (batch_height new_imgs))%Z
    /\ (- Z.of_nat (batch_width new_imgs) <= f (i, j, 1%nat) < Z.of_nat (batch_width new_imgs))%Z in
  (inside /\ exists w', write_unit new_imgs coords vals i j w = (Ok tt, w'))
  \/ (~ inside /\ exists w', write_unit new_imgs coords vals i j w = (Raise IndexOutOfRange, w')).
Proof.
  intros Hbuf D2 Hlen inside. subst inside.
  unfold write_unit, bind, lift, element. rewrite Hbuf. cbn [item].
  destruct (Nat.ltb_spec 0 (dim2 coords)); [| lia].
  destruct (Nat.ltb_spec 1 (dim2 coords)); [| lia].
  destruct (normalize_index_cases (batch_height new_imgs) (f (i, j, 0)))
    as [(Hx & Ex) | (Hx & Ex)];
    destruct (normalize_index_cases (batch_width new_imgs) (f (i, j, 1)))
      as [(Hy & Ey) | (Hy & Ey)].
  - left. split; [split; assumption |].
    destruct (setitem_pixel_ok new_imgs i (f (i, j, 0)) (f (i, j, 1))
                (fun c => item (buf vals) (i, j, c)) (dim2 vals) w Ex Ey Hlen)
      as (w' & Hset & _).
    exists w'. exact Hset.
  - right. split; [tauto |]. exists w.
    unfold setitem_pixel, bind, lift, as_index. now rewrite Ex, Ey.
  - right. split; [tauto |]. exists w.
    unfold setitem_pixel, bind, lift, as_index. now rewrite Ex.
  - right. split; [tauto |]. exists w.
    unfold setitem_pixel, bind, lift, as_index. now rewrite Ex.
Qed.

(** C10, as the code has it.  Take integer coordinates and colour vectors of
    one entry per channel.  If every coordinate [v] satisfies
    [-len <= v < len] for the length [len] of its axis, the compositor
    returns, and a unit whose coordinates normalise to the pixel [(x, y)]
    is written there, converted to the element type of the image (if no
    later unit of the agent lands on the same pixel); a coordinate [-k] with [1 <= k <= len] normalises to [len - k].
    If some coordinate is outside [-len, len), a negative one below [-len]
    for instance, the compositor raises the index error. *)
Theorem negative_coordinates_index_from_the_end
  (img : image) (coords vals : @ndarray F) (f : index3 -> Z) (w : @world F G) :
  dim0 coords = dim0 vals ->
  dim1 coords = dim1 vals ->
  buf coords = IntBuf f ->
  2 <= dim2 coords ->
  dim2 vals = channels img ->
  let inside i j :=
    (- Z.of_nat (height img) <= f (i, j, 0%nat) < Z.of_nat (height img))%Z
    /\ (- Z.of_nat (width img) <= f (i, j, 1%nat) < Z.of_nat (width img))%Z in
  ((forall i j, i < dim0 coords -> j < dim1 coords -> inside i j) ->
   exists new_imgs w',
     generate_image_variants img coords vals w = (Ok new_imgs, w')
     /\ forall i j c x y,
          i < dim0 coords -> j < dim1 coords -> c < channels img ->
          normalize_index (height img) (f (i, j, 0)) = Ok x ->
          normalize_index (width img) (f (i, j, 1)) = Ok y ->
          (forall j', j < j' < dim1 coords ->
             lands_on (height img) (width img) f i j' x y = false) ->
          cell (tensors w') (batch_ptr new_imgs) [i; c; x; y]
          = to_dtype (img_dtype img) (item (buf vals) (i, j, c)))
  /\ (forall len k, 1 <= k <= len -> normalize_index len (- Z.of_nat k) = Ok (len - k))
  /\ ((exists i j, i < dim0 coords /\ j < dim1 coords /\ ~ inside i j) ->
      exists w', generate_image_variants img coords vals w = (Raise IndexOutOfRange, w')).
Proof.
  intros D0 D1 Hbuf D2 Hlen inside.
  assert (Hlen' : (dim2 vals =? channels img) || (dim2 vals =? 1) = true)
    by (rewrite Hlen, Nat.eqb_refl; reflexivity).
  split; [| split].
  - intros Hin.
    destruct (@generate_image_variants_paints img coords vals f w)
      as (w' & Hrun & _ & _ & _ & _ & _ & Hpaint); auto.
    { intros i j Hi Hj. destruct (Hin i j Hi Hj) as [Hx Hy].
      destruct (normalize_index_cases (height img) (f (i, j, 0))) as [(_ & Ex) | (Hn & _)];
        [| contradiction].
      destruct (normalize_index_cases (width img) (f (i, j, 1))) as [(_ & Ey) | (Hn & _)];
        [| contradiction].
      eauto. }
    eexists. exists w'. split; [exact Hrun |]. cbn [batch_ptr].
    intros i j c x y Hi Hj Hc Hx Hy Hlast. rewrite Hpaint.
    destruct (Nat.ltb_spec i (dim0 coords)); [| lia].
    unfold painted.
    replace (last_such (fun j0 => lands_on (height img) (width img) f i j0 x y) (dim1 coords))
      with (Some j).
    + destruct (Nat.eqb_spec (dim2 vals) 1); [| reflexivity].
      replace c with 0 by lia. reflexivity.
    + symmetry. apply last_such_some. split; [assumption |]. split; [| assumption].
      rewrite (lands_on_normalized _ _ _ _ _ _ _ Hx Hy). now rewrite !Nat.eqb_refl.
  - intros len k Hk. now apply normalize_index_back.
  - intros (i0 & j0 & Hi0 & Hj0 & Hout).
    unfold generate_image_variants. rewrite <- D0, <- D1, !Nat.eqb_refl. cbn [andb].
    unfold bind at 1. unfold repeat_batch, detach.
    set (new_imgs := {| batch_ptr := next (tensors w); batch_dtype := img_dtype img;
                        batch_size := dim0 coords;
                        batch_channels := channels img; batch_height := height img;
                        batch_width := width img |}).
    set (w1 := set_tensors w _).
    assert (Hunit : forall i j (w2 : @world F G),
              (exists w3, write_unit new_imgs coords vals i j w2 = (Ok tt, w3))
              \/ (exists w3, write_unit new_imgs coords vals i j w2
                             = (Raise IndexOutOfRange, w3))).
    { intros i j w2.
      destruct (@write_unit_cases new_imgs coords vals f i j w2 Hbuf D2 Hlen')
        as [(_ & H) | (_ & H)]; auto. }
    destruct (@for_each__raises (@world F G) _ IndexOutOfRange
                (fun i => for_each_ (range (dim1 coords))
                            (fun j => write_unit new_imgs coords vals i j))
                (range (dim0 coords))) with (w := w1) as (w' & Hraise).
    + intros i w2 _. apply for_each__ok_or_raises. intros j w3 _. apply Hunit.
    + exists i0. split; [apply in_seq; lia |].
      intros w2. apply for_each__raises.
      * intros j w3 _. apply Hunit.
      * exists j0. split; [apply in_seq; lia |].
        intros w3.
        destruct (@write_unit_cases new_imgs coords vals f i0 j0 w3 Hbuf D2 Hlen')
          as [(Hin & _) | (_ & H)]; [contradiction | exact H].
    + exists w'. unfold bind at 1. now rewrite Hraise.
Qed.

(** ** Generation orchestrator *)

Lemma broadcast_pos_inside (len i : nat) : i < len -> broadcast_pos len i = i.
Proof. unfold broadcast_pos. destruct (Nat.eqb_spec len 1); lia. Qed.

Lemma broadcast_dim_same (n : nat) : broadcast_dim n n = Ok n.
Proof. unfold broadcast_dim. now rewrite Nat.eqb_refl. Qed.

Lemma is_int_view {I J} (g : J -> I) (b : buffer I) : is_int (view (F := F) g b) = is_int b.
Proof. destruct b; reflexivity. Qed.

Lemma item_view {I J} (g : J -> I) (b : buffer I) (k : J) :
  item (view (F := F) g b) k = item b (g k).
Proof. destruct b; reflexivity. Qed.

End Theory.

(** * Further properties of the five functions *)

(** ** Relations kept along a computation *)

Section Preservation.

Context {W : Type} (R : W -> W -> Prop).
Hypothesis R_refl : forall w, R w w.
Hypothesis R_trans : forall a b c, R a b -> R b c -> R a c.

Lemma preserves_ret {A} (a : A) : preserves R (ret a).
Proof. intros w. apply R_refl. Qed.

Lemma preserves_raise {A} (e : error) : preserves R (raise (A := A) e).
Proof. intros w. apply R_refl. Qed.

Lemma preserves_lift {A} (r : result A) : preserves R (lift r).
Proof. intros w. apply R_refl. Qed.

Lemma preserves_bind {A B} (m : M W A) (k : A -> M W B) :
  preserves R m -> (forall a, preserves R (k a)) -> preserves R (bind m k).
Proof.
  intros Hm Hk w. unfold bind. specialize (Hm w).
  destruct (m w) as [[a | e] w1]; cbn [snd] in *.
  - eapply R_trans; [exact Hm | apply Hk].
  - exact Hm.
Qed.

Lemma preserves_for_each {A B} (body : A -> M W B) (xs : list A) :
  (forall x, preserves R (body x)) -> preserves R (for_each xs body).
Proof.
  intros Hbody. induction xs as [| x xs IH]; cbn [for_each].
  - apply preserves_ret.
  - apply preserves_bind; [apply Hbody |]. intros b.
    apply preserves_bind; [exact IH |]. intros bs. apply preserves_ret.
Qed.

Lemma preserves_for_each_ {A} (body : A -> M W unit) (xs : list A) :
  (forall x, preserves R (body x)) -> preserves R (for_each_ xs body).
Proof.
  intros Hbody. induction xs as [| x xs IH]; cbn [for_each_].
  - apply preserves_ret.
  - apply preserves_bind; [apply Hbody |]. intros _. exact IH.
Qed.

End Preservation.

(** A loop whose body always returns, returns one result per element. *)
Lemma for_each_total {W A B} (body : A -> M W B) (xs : list A) :
  (forall x w, In x xs -> exists b w', body x w = (Ok b, w')) ->
  forall w, exists bs w', for_each xs body w = (Ok bs, w') /\ length bs = length xs.
Proof.
  induction xs as [| x xs IH]; intros Hbody w.
  - exists [], w. split; reflexivity.
  - destruct (Hbody x w (or_introl eq_refl)) as (b & w1 & Hb).
    destruct (IH (fun y w2 Hy => Hbody y w2 (or_intror Hy)) w1) as (bs & w2 & Hbs & Hlen).
    exists (b :: bs), w2. cbn [for_each]. unfold bind. rewrite Hb, Hbs.
    split; [reflexivity | cbn; congruence].
Qed.

Section MoreTheory.

Context {F : Type} {FT : FloatType F} {G : Type} {RS : @RandomState F G}.

(** ** Mutation engine *)

Lemma only_rng_differs_refl (w : @world F G) : only_rng_differs w w.
Proof. unfold only_rng_differs. auto. Qed.

Lemma only_rng_differs_trans (a b c : @world F G) :
  only_rng_differs a b -> only_rng_differs b c -> only_rng_differs a c.
Proof. unfold only_rng_differs. intuition congruence. Qed.

Lemma np_random_choice3_only_rng (n : nat) :
  preserves only_rng_differs (np_random_choice3 (G := G) n).
Proof.
  intros w. unfold np_random_choice3. destruct n; [apply only_rng_differs_refl |].
  destruct (choice3 (S n) (rng w)) as [abc g]. cbn. unfold only_rng_differs. auto.
Qed.

Lemma np_random_uniform_only_rng (n : nat) :
  preserves only_rng_differs (np_random_uniform (G := G) n).
Proof.
  intros w. unfold np_random_uniform.
  destruct (uniform n (rng w)) as [u g]. cbn. unfold only_rng_differs. auto.
Qed.

Lemma sample_parents_only_rng (parent_candidates : @ndarray F) (i : nat) :
  preserves only_rng_differs (sample_parents (G := G) parent_candidates i).
Proof.
  pose proof only_rng_differs_refl as Hr. pose proof only_rng_differs_trans as Ht.
  unfold sample_parents.
  apply preserves_bind; auto using np_random_choice3_only_rng.
  intros [[a b] c].
  apply preserves_bind; auto using preserves_lift. intros p0.
  apply preserves_bind; auto using preserves_lift. intros p1.
  apply preserves_bind; auto using preserves_lift.
Qed.

Lemma generate_child_only_rng (parent_candidates : @ndarray F) (cr_prob F_ : F)
  (round_ : bool) (i : nat) :
  preserves only_rng_differs
    (generate_child (G := G) parent_candidates cr_prob F_ round_ i).
Proof.
  pose proof only_rng_differs_refl as Hr. pose proof only_rng_differs_trans as Ht.
  unfold generate_child.
  apply preserves_bind; auto using sample_parents_only_rng. intros parents.
  apply preserves_bind; auto using np_random_uniform_only_rng, preserves_ret.
Qed.

Lemma generate_children_only_rng (parent_candidates : @ndarray F) (cr_prob F_ : F)
  (round_ : bool) :
  preserves only_rng_differs
    (generate_children (G := G) parent_candidates cr_prob F_ round_).
Proof.
  unfold generate_children.
  apply (preserves_bind only_rng_differs_trans).
  - apply (preserves_for_each only_rng_differs_refl only_rng_differs_trans).
    intros i. apply generate_child_only_rng.
  - intros cs. apply preserves_lift. apply only_rng_differs_refl.
Qed.

(** X1.  The mutation engine reads the population and advances the generator:
    whether it returns or raises, the tensors, the record of classifier
    queries and the printed output are as they were. *)
Theorem generate_children_touches_only_the_generator
  (parent_candidates : @ndarray F) (cr_prob F_ : F) (round_ : bool) (w : @world F G) :
  only_rng_differs w (snd (generate_children parent_candidates cr_prob F_ round_ w)).
Proof. exact (generate_children_only_rng parent_candidates cr_prob F_ round_ w). Qed.

Lemma generate_child_single_agent (parent_candidates : @ndarray F) (cr_prob F_ : F)
  (round_ : bool) (i : nat) (w : @world F G) :
  dim0 parent_candidates = 1 ->
  generate_child parent_candidates cr_prob F_ round_ i w = (Raise EmptyPool, w).
Proof.
  intros H. unfold generate_child, sample_parents, bind, np_random_choice3, np_delete.
  cbn [dim0]. rewrite H. reflexivity.
Qed.

Lemma generate_children_small_population
  (parent_candidates : @ndarray F) (cr_prob F_ : F) (round_ : bool) (w : @world F G) :
  (dim0 parent_candidates = 0 ->
   generate_children parent_candidates cr_prob F_ round_ w = (Raise EmptyStack, w))
  /\ (dim0 parent_candidates = 1 ->
      generate_children parent_candidates cr_prob F_ round_ w = (Raise EmptyPool, w))
  /\ (forall children w',
        generate_children parent_candidates cr_prob F_ round_ w = (Ok children, w') ->
        2 <= dim0 parent_candidates).
Proof.
  assert (H0 : dim0 parent_candidates = 0 ->
               generate_children parent_candidates cr_prob F_ round_ w
               = (Raise EmptyStack, w)).
  { intros H. unfold generate_children. rewrite H. reflexivity. }
  assert (H1 : dim0 parent_candidates = 1 ->
               generate_children parent_candidates cr_prob F_ round_ w
               = (Raise EmptyPool, w)).
  { intros H. unfold generate_children. rewrite H. cbn [range seq for_each].
    unfold bind at 1. unfold bind at 1.
    now rewrite generate_child_single_agent. }
  split; [exact H0 |]. split; [exact H1 |].
  intros children w' Hrun.
  destruct (dim0 parent_candidates) as [| [| n]] eqn:E; [| | lia].
  - rewrite H0 in Hrun by reflexivity. discriminate.
  - rewrite H1 in Hrun by reflexivity. discriminate.
Qed.

(** X2.  A population of no agent makes [np.stack] fail and a population of one
    agent leaves the pool of its only agent empty: in both cases the call
    raises in the world it was called in, so that the mutation engine
    returns only for populations of two agents or more. *)
Theorem generate_children_needs_two_agents
  (parent_candidates : @ndarray F) (cr_prob F_ : F) (round_ : bool) (w : @world F G) :
  (dim0 parent_candidates = 0 ->
   generate_children parent_candidates cr_prob F_ round_ w = (Raise EmptyStack, w))
  /\ (dim0 parent_candidates = 1 ->
      generate_children parent_candidates cr_prob F_ round_ w = (Raise EmptyPool, w))
  /\ (forall children w',
        generate_children parent_candidates cr_prob F_ round_ w = (Ok children, w') ->
        2 <= dim0 parent_candidates).
Proof. exact (generate_children_small_population parent_candidates cr_prob F_ round_ w). Qed.

Lemma np_stack_ok (p d : nat) (children : list (buffer index2)) (b : bool) :
  children <> [] ->
  (forall i c0, i < length children -> is_int (F := F) (nth i children c0) = b) ->
  exists a,
    np_stack p d children = Ok a
    /\ dim0 a = length children /\ dim1 a = p /\ dim2 a = d
    /\ is_int (buf a) = b.
Proof.
  intros Hne Hint. unfold np_stack.
  destruct children as [| c0 rest] eqn:Hc; [contradiction |]. rewrite <- Hc in *.
  eexists. split; [reflexivity |]. cbn [dim0 dim1 dim2 buf].
  repeat split.
  assert (Hall : forallb is_int children = b).
  { destruct b.
    - apply forallb_forall. intros c Hin.
      destruct (In_nth _ _ c0 Hin) as (m & Hm & <-). now apply Hint.
    - destruct (forallb is_int children) eqn:E; [| reflexivity].
      rewrite forallb_forall in E.
      assert (Hlen : 0 < length children) by (rewrite Hc; cbn; lia).
      rewrite <- (Hint 0 c0 Hlen). symmetry. apply E, nth_In, Hlen. }
  rewrite Hall. destruct b; reflexivity.
Qed.

Lemma sample_parents_total (parent_candidates : @ndarray F) (i : nat) (w : @world F G) :
  2 <= dim0 parent_candidates ->
  draws_in_pool (RS := RS) (dim0 parent_candidates - 1) ->
  exists parents w', sample_parents parent_candidates i w = (Ok parents, w').
Proof.
  intros Hn Hdraw. unfold sample_parents, bind, np_random_choice3.
  replace (dim0 (np_delete parent_candidates i)) with (dim0 parent_candidates - 1)
    by (unfold np_delete; cbn [dim0]; lia).
  specialize (Hdraw (rng w)).
  destruct (dim0 parent_candidates - 1) as [| n'] eqn:En; [lia |].
  destruct (choice3 (S n') (rng w)) as [[[a b] c] g]. cbn [fst] in Hdraw.
  destruct Hdraw as (Ha & Hb & Hc).
  unfold lift, ret. rewrite !take_row_np_delete by lia. eauto.
Qed.

Lemma generate_child_total (parent_candidates : @ndarray F) (cr_prob F_ : F)
  (round_ : bool) (i : nat) (w : @world F G) :
  2 <= dim0 parent_candidates ->
  draws_in_pool (RS := RS) (dim0 parent_candidates - 1) ->
  exists child w',
    generate_child parent_candidates cr_prob F_ round_ i w = (Ok child, w').
Proof.
  intros Hn Hdraw.
  destruct (sample_parents_total parent_candidates i w Hn Hdraw) as (ps & w1 & Hs).
  unfold generate_child, bind. rewrite Hs. unfold np_random_uniform, ret.
  destruct (uniform (dim1 parent_candidates) (rng w1)) as [u g]. eauto.
Qed.

Lemma generate_children_total
  (parent_candidates : @ndarray F) (cr_prob F_ : F) (round_ : bool) (w : @world F G) :
  2 <= dim0 parent_candidates ->
  draws_in_pool (RS := RS) (dim0 parent_candidates - 1) ->
  exists children w',
    generate_children parent_candidates cr_prob F_ round_ w = (Ok children, w')
    /\ dim0 children = dim0 parent_candidates
    /\ dim1 children = dim1 parent_candidates
    /\ dim2 children = dim2 parent_candidates
    /\ is_int (buf children) = round_ && is_int (buf parent_candidates).
Proof.
  intros Hn Hdraw.
  destruct (@for_each_total _ _ _
              (generate_child parent_candidates cr_prob F_ round_)
              (range (dim0 parent_candidates))) with (w := w)
    as (cs & w' & Hloop & Hlen).
  { intros i w0 _. now apply generate_child_total. }
  unfold range in Hlen. rewrite length_seq in Hlen.
  destruct (for_each_ok_nth _ _ _ Hloop) as [_ Hnth].
  unfold range in Hnth. rewrite length_seq in Hnth.
  destruct (@np_stack_ok (dim1 parent_candidates) (dim2 parent_candidates) cs
              (round_ && is_int (buf parent_candidates)))
    as (a & Hstack & D0 & D1 & D2 & Hint).
  { intros ->. cbn in Hlen. lia. }
  { intros i c0 Hi. rewrite Hlen in Hi.
    destruct (Hnth i 0 c0 Hi) as (w0 & w2 & Hchild).
    destruct (generate_child_ok _ _ _ _ _ _ Hchild) as (? & ? & ? & ? & ? & _ & _ & Hd & _).
    exact Hd. }
  exists a, w'. unfold generate_children, bind, lift. rewrite Hloop, Hstack.
  repeat split; congruence.
Qed.

(** X3.  With two agents or more and a generator that returns positions of the
    pool, the mutation engine returns, and the children have the shape of
    the parents; they are integers exactly when rounding is requested and
    the parents are integers, and float otherwise. *)
Theorem generate_children_returns_the_parents_shape
  (parent_candidates : @ndarray F) (cr_prob F_ : F) (round_ : bool) (w : @world F G) :
  2 <= dim0 parent_candidates ->
  draws_in_pool (RS := RS) (dim0 parent_candidates - 1) ->
  exists children w',
    generate_children parent_candidates cr_prob F_ round_ w = (Ok children, w')
    /\ dim0 children = dim0 parent_candidates
    /\ dim1 children = dim1 parent_candidates
    /\ dim2 children = dim2 parent_candidates
    /\ is_int (buf children) = round_ && is_int (buf parent_candidates).
Proof. exact (generate_children_total parent_candidates cr_prob F_ round_ w). Qed.

(** ** Image compositor *)

Lemma setitem_pixel_frame (t : batch) (i : nat) (x y : scalar)
  (value : nat -> scalar) (len : nat) :
  preserves (frame (G := G) (batch_ptr t)) (setitem_pixel t i x y value len).
Proof.
  intros w. unfold setitem_pixel, bind, lift, as_index, raise.
  destruct x as [x | x]; [| apply frame_refl].
  destruct y as [y | y]; [| apply frame_refl].
  destruct (normalize_index (batch_height t) x); [| apply frame_refl].
  destruct (normalize_index (batch_width t) y); [| apply frame_refl].
  destruct ((len =? batch_channels t) || (len =? 1)); [| apply frame_refl].
  cbn [snd]. unfold frame, set_tensors. cbn. repeat split.
  intros q Hq. destruct (Nat.eqb_spec q (batch_ptr t)); [contradiction | reflexivity].
Qed.

Lemma write_unit_frame (new_imgs : batch) (coords vals : @ndarray F) (i j : nat) :
  preserves (frame (G := G) (batch_ptr new_imgs)) (write_unit new_imgs coords vals i j).
Proof.
  unfold write_unit.
  apply (preserves_bind (@frame_trans F G (batch_ptr new_imgs))).
  { apply (preserves_lift _ (@frame_refl F G (batch_ptr new_imgs))). }
  intros x. apply (preserves_bind (@frame_trans F G (batch_ptr new_imgs))).
  { apply (preserves_lift _ (@frame_refl F G (batch_ptr new_imgs))). }
  intros y. apply setitem_pixel_frame.
Qed.

(** What a call of the compositor does to the world, whatever its inputs
    and its outcome. *)
Lemma generate_image_variants_frame (img : image) (coords vals : @ndarray F)
  (w : @world F G) :
  let outcome := generate_image_variants img coords vals w in
  rng (snd outcome) = rng w
  /\ queries (snd outcome) = queries w
  /\ stdout (snd outcome) = stdout w
  /\ next (tensors w) <= next (tensors (snd outcome)) <= S (next (tensors w))
  /\ (forall q, q <> next (tensors w) ->
        cell (tensors (snd outcome)) q = cell (tensors w) q)
  /\ (forall new_imgs, fst outcome = Ok new_imgs ->
        new_imgs = {| batch_ptr := next (tensors w);
                      batch_dtype := img_dtype img;
                      batch_size := dim0 coords;
                      batch_channels := channels img;
                      batch_height := height img;
                      batch_width := width img |}
        /\ next (tensors (snd outcome)) = S (next (tensors w))).
Proof.
  intros outcome.
  destruct ((dim0 coords =? dim0 vals) && (dim1 coords =? dim1 vals)) eqn:E.
  2: { unfold outcome, generate_image_variants. rewrite E. cbn.
       repeat split; auto; try lia; discriminate. }
  set (p := next (tensors w)).
  set (new_imgs := {| batch_ptr := p; batch_dtype := img_dtype img;
                      batch_size := dim0 coords;
                      batch_channels := channels img; batch_height := height img;
                      batch_width := width img |}).
  set (w1 := set_tensors w
               {| next := S p;
                  cell := fun q =>
                            if q =? p
                            then fun idx =>
                                   match idx with
                                   | [_; c; x; y] => cell (tensors w) (img_ptr img) [c; x; y]
                                   | _ => fzero
                                   end
                            else cell (tensors w) q |}).
  set (loop := for_each_ (range (dim0 coords))
                 (fun i => for_each_ (range (dim1 coords))
                             (fun j => write_unit (G := G) new_imgs coords vals i j))).
  assert (Hout : outcome = bind loop (fun _ => ret new_imgs) w1).
  { unfold outcome, generate_image_variants. rewrite E. reflexivity. }
  assert (Hloop : frame p w1 (snd (loop w1))).
  { apply (preserves_for_each_ (@frame_refl F G p) (@frame_trans F G p)).
    intros i. apply (preserves_for_each_ (@frame_refl F G p) (@frame_trans F G p)).
    intros j. apply (write_unit_frame new_imgs). }
  assert (Hworld : snd outcome = snd (loop w1)).
  { rewrite Hout. unfold bind. destruct (loop w1) as [[[] | e] w2]; reflexivity. }
  assert (Hres : forall b, fst outcome = Ok b -> b = new_imgs).
  { rewrite Hout. unfold bind.
    destruct (loop w1) as [[[] | e] w2]; cbn; intros b Hb; congruence. }
  rewrite Hworld.
  destruct Hloop as (Hn & Hr & Hq & Hs & Hc).
  change (next (tensors w1)) with (S p) in Hn.
  change (rng w1) with (rng w) in Hr.
  change (queries w1) with (queries w) in Hq.
  change (stdout w1) with (stdout w) in Hs.
  split; [exact Hr |]. split; [exact Hq |]. split; [exact Hs |].
  split; [lia |]. split.
  - intros q Hne. rewrite Hc by assumption. unfold w1, set_tensors. cbn.
    destruct (Nat.eqb_spec q p); [contradiction | reflexivity].
  - intros b Hb. split; [now apply Hres | exact Hn].
Qed.

(** X4.  Whatever its inputs and whether it returns or raises, the compositor
    changes no storage that existed when it was called, allocates at most one
    storage, and touches neither the generator, nor the record of queries,
    nor the printed output; when it returns, the batch is on the one new
    storage and has one variant per agent, of the shape of the base image. *)
Theorem generate_image_variants_keeps_existing_tensors
  (img : image) (coords vals : @ndarray F) (w : @world F G) :
  let outcome := generate_image_variants img coords vals w in
  rng (snd outcome) = rng w
  /\ queries (snd outcome) = queries w
  /\ stdout (snd outcome) = stdout w
  /\ next (tensors (snd outcome)) <= S (next (tensors w))
  /\ keeps_tensors_below (next (tensors w)) w (snd outcome)
  /\ (forall new_imgs, fst outcome = Ok new_imgs ->
        batch_ptr new_imgs = next (tensors w)
        /\ next (tensors (snd outcome)) = S (next (tensors w))
        /\ batch_size new_imgs = dim0 coords
        /\ batch_channels new_imgs = channels img
        /\ batch_height new_imgs = height img
        /\ batch_width new_imgs = width img).
Proof.
  destruct (generate_image_variants_frame img coords vals w)
    as (Hr & Hq & Hs & Hn & Hc & Hok).
  cbv zeta. repeat split; try assumption; try lia.
  - intros q Hlt. apply Hc. lia.
  - now destruct (Hok _ H) as [-> _].
  - now destruct (Hok _ H).
  - now destruct (Hok _ H) as [-> _].
  - now destruct (Hok _ H) as [-> _].
  - now destruct (Hok _ H) as [-> _].
  - now destruct (Hok _ H) as [-> _].
Qed.

(** X5.  A second composition leaves the batch of a first one alone: the two
    batches are on different storages and the contents of the first are
    what they were, whatever the second call is given and however it
    ends. *)
Theorem generate_image_variants_twice_do_not_interfere
  (img img' : image) (coords vals coords' vals' : @ndarray F) (w w1 : @world F G)
  (first : batch) :
  generate_image_variants img coords vals w = (Ok first, w1) ->
  let outcome := generate_image_variants img' coords' vals' w1 in
  cell (tensors (snd outcome)) (batch_ptr first) = cell (tensors w1) (batch_ptr first)
  /\ forall second, fst outcome = Ok second -> batch_ptr second <> batch_ptr first.
Proof.
  intros Hfirst outcome.
  destruct (generate_image_variants_frame img coords vals w) as (_ & _ & _ & _ & _ & Hok).
  rewrite Hfirst in Hok. cbn [fst snd] in Hok.
  destruct (Hok first eq_refl) as [Hb Hnext].
  destruct (generate_image_variants_frame img' coords' vals' w1)
    as (_ & _ & _ & _ & Hc & Hok').
  fold outcome in Hc, Hok'.
  assert (Hptr : batch_ptr first = next (tensors w)) by (rewrite Hb; reflexivity).
  split.
  - apply Hc. lia.
  - intros second Hsecond. destruct (Hok' second Hsecond) as [-> _].
    cbn [batch_ptr]. lia.
Qed.

(** When the first unit of the first agent cannot be written, the call
    raises what that write raises. *)
Lemma generate_image_variants_first_unit (img : image) (coords vals : @ndarray F)
  (w : @world F G) (e : error) :
  dim0 coords = dim0 vals ->
  dim1 coords = dim1 vals ->
  1 <= dim0 coords ->
  1 <= dim1 coords ->
  (forall (new_imgs : batch) (w1 : @world F G),
     batch_channels new_imgs = channels img ->
     batch_height new_imgs = height img ->
     batch_width new_imgs = width img ->
     exists w2, write_unit new_imgs coords vals 0 0 w1 = (Raise e, w2)) ->
  fst (generate_image_variants img coords vals w) = Raise e.
Proof.
  intros D0 D1 H0 H1 Hunit.
  unfold generate_image_variants. rewrite <- D0, <- D1, !Nat.eqb_refl. cbn [andb].
  unfold bind at 1. unfold repeat_batch, detach.
  destruct (dim0 coords) as [| n]; [lia |].
  destruct (dim1 coords) as [| m]; [lia |].
  unfold range. cbn [seq for_each_].
  match goal with
  | |- context [write_unit ?b coords vals 0 0] => set (new_imgs := b)
  end.
  unfold bind at 1. unfold bind at 1. unfold bind at 1.
  match goal with
  | |- context [write_unit new_imgs coords vals 0 0 ?w1] =>
      destruct (Hunit new_imgs w1 eq_refl eq_refl eq_refl) as (w2 & ->)
  end.
  reflexivity.
Qed.

(** X6.  With at least one agent and one unit, coordinates of fewer than two
    components make the compositor raise the index error, and float
    coordinates make it raise the error of a non-integer index. *)
Theorem generate_image_variants_rejects_unusable_coordinates
  (img : image) (coords vals : @ndarray F) (w : @world F G) :
  dim0 coords = dim0 vals ->
  dim1 coords = dim1 vals ->
  1 <= dim0 coords ->
  1 <= dim1 coords ->
  (dim2 coords < 2 ->
   fst (generate_image_variants img coords vals w) = Raise IndexOutOfRange)
  /\ (2 <= dim2 coords -> is_int (buf coords) = false ->
      fst (generate_image_variants img coords vals w) = Raise NonIntegerIndex).
Proof.
  intros D0 D1 H0 H1. split.
  - intros D2. apply generate_image_variants_first_unit; auto.
    intros new_imgs w1 _ _ _. exists w1.
    unfold write_unit, bind, lift, element.
    destruct (Nat.ltb_spec 0 (dim2 coords)); [| reflexivity].
    destruct (Nat.ltb_spec 1 (dim2 coords)); [lia | reflexivity].
  - intros D2 Hfloat. apply generate_image_variants_first_unit; auto.
    intros new_imgs w1 _ _ _. exists w1.
    unfold write_unit, bind, lift, element.
    destruct (Nat.ltb_spec 0 (dim2 coords)); [| lia].
    destruct (Nat.ltb_spec 1 (dim2 coords)); [| lia].
    destruct (buf coords); [discriminate |]. reflexivity.
Qed.

(** X7.  The length of the colour vectors.  A colour vector whose length is
    neither the number of channels nor one cannot be assigned to a pixel: the
    call raises the broadcasting error at the first unit.  A colour vector of
    one entry is written to every channel of its pixel, converted to the
    element type of the image (unchanged when it is a float and the image
    is float64). *)
Theorem generate_image_variants_broadcasts_one_entry_colors
  (img : image) (coords vals : @ndarray F) (f : index3 -> Z) (w : @world F G) :
  dim0 coords = dim0 vals ->
  dim1 coords = dim1 vals ->
  buf coords = IntBuf f ->
  2 <= dim2 coords ->
  (forall i j, i < dim0 coords -> j < dim1 coords ->
     exists x y, normalize_index (height img) (f (i, j, 0)) = Ok x
                 /\ normalize_index (width img) (f (i, j, 1)) = Ok y) ->
  (1 <= dim0 coords -> 1 <= dim1 coords ->
   dim2 vals <> channels img -> dim2 vals <> 1 ->
   fst (generate_image_variants img coords vals w) = Raise BroadcastMismatch)
  /\ (dim2 vals = 1 ->
      exists new_imgs w',
        generate_image_variants img coords vals w = (Ok new_imgs, w')
        /\ forall i j c x y,
             i < dim0 coords -> j < dim1 coords ->
             normalize_index (height img) (f (i, j, 0)) = Ok x ->
             normalize_index (width img) (f (i, j, 1)) = Ok y ->
             (forall j', j < j' < dim1 coords ->
                lands_on (height img) (width img) f i j' x y = false) ->
             cell (tensors w') (batch_ptr new_imgs) [i; c; x; y]
             = to_dtype (img_dtype img) (item (buf vals) (i, j, 0))
             /\ (img_dtype img = Float64 ->
                 cell (tensors w') (batch_ptr new_imgs) [i; c; x; y]
                 = as_float (buf vals) (i, j, 0))).
Proof.
  intros D0 D1 Hbuf D2 Hidx. split.
  - intros H0 H1 Hc H1'. apply generate_image_variants_first_unit; auto.
    intros new_imgs w1 Bc Bh Bw. exists w1.
    destruct (Hidx 0 0) as (x & y & Hx & Hy); [lia | lia |].
    unfold write_unit, bind, lift, element. rewrite Hbuf. cbn [item].
    destruct (Nat.ltb_spec 0 (dim2 coords)); [| lia].
    destruct (Nat.ltb_spec 1 (dim2 coords)); [| lia].
    unfold setitem_pixel, bind, lift, as_index. rewrite Bh, Bw, Hx, Hy, Bc.
    destruct (Nat.eqb_spec (dim2 vals) (channels img)); [contradiction |].
    destruct (Nat.eqb_spec (dim2 vals) 1); [contradiction |]. reflexivity.
  - intros Hone.
    destruct (@generate_image_variants_paints _ _ _ img coords vals f w)
      as (w' & Hrun & _ & _ & _ & _ & _ & Hpaint); auto.
    { rewrite Hone. cbn. apply orb_true_r. }
    eexists. exists w'. split; [exact Hrun |]. cbn [batch_ptr].
    intros i j c x y Hi Hj Hx Hy Hlast. rewrite Hpaint.
    destruct (Nat.ltb_spec i (dim0 coords)); [| lia].
    unfold painted.
    replace (last_such (fun j0 => lands_on (height img) (width img) f i j0 x y) (dim1 coords))
      with (Some j).
    + rewrite Hone. cbn [Nat.eqb]. split; [reflexivity |].
      intros ->. now rewrite to_dtype_float64, float_of_scalar_item.
    + symmetry. apply last_such_some. split; [assumption |]. split; [| assumption].
      rewrite (lands_on_normalized _ _ _ _ _ _ _ Hx Hy). now rewrite !Nat.eqb_refl.
Qed.

Lemma last_such_ext (hit hit' : nat -> bool) (p : nat) :
  (forall j, j < p -> hit j = hit' j) -> last_such hit p = last_such hit' p.
Proof.
  induction p as [| p IH]; intros H; cbn; [reflexivity |].
  rewrite (H p) by lia. rewrite IH by (intros j Hj; apply H; lia). reflexivity.
Qed.

(** X8.  The variant of an agent depends on the units of that agent only: two
    populations that agree on agent [i], composited over the same base
    image, give the same variant [i], whatever their other agents are. *)
Theorem generate_image_variants_agents_are_independent
  (img : image) (coords vals coords' vals' : @ndarray F) (f f' : index3 -> Z)
  (w : @world F G) (i : nat) :
  dim0 coords = dim0 vals -> dim1 coords = dim1 vals ->
  dim0 coords' = dim0 vals' -> dim1 coords' = dim1 vals' ->
  buf coords = IntBuf f -> buf coords' = IntBuf f' ->
  2 <= dim2 coords -> 2 <= dim2 coords' ->
  dim2 vals = channels img -> dim2 vals' = channels img ->
  (forall a j, a < dim0 coords -> j < dim1 coords ->
     exists x y, normalize_index (height img) (f (a, j, 0)) = Ok x
                 /\ normalize_index (width img) (f (a, j, 1)) = Ok y) ->
  (forall a j, a < dim0 coords' -> j < dim1 coords' ->
     exists x y, normalize_index (height img) (f' (a, j, 0)) = Ok x
                 /\ normalize_index (width img) (f' (a, j, 1)) = Ok y) ->
  i < dim0 coords -> i < dim0 coords' ->
  dim1 coords = dim1 coords' ->
  (forall j d, j < dim1 coords -> f (i, j, d) = f' (i, j, d)) ->
  (forall j c, j < dim1 coords ->
     item (buf vals) (i, j, c) = item (buf vals') (i, j, c)) ->
  exists new_imgs w1 new_imgs' w1',
    generate_image_variants img coords vals w = (Ok new_imgs, w1)
    /\ generate_image_variants img coords' vals' w = (Ok new_imgs', w1')
    /\ forall c x y,
         cell (tensors w1) (batch_ptr new_imgs) [i; c; x; y]
         = cell (tensors w1') (batch_ptr new_imgs') [i; c; x; y].
Proof.
  intros D0 D1 D0' D1' Hbuf Hbuf' D2 D2' Hlen Hlen' Hidx Hidx' Hi Hi' HP Hf Hv.
  destruct (@generate_image_variants_paints _ _ _ img coords vals f w)
    as (w1 & Hrun & _ & _ & _ & _ & _ & Hpaint); auto.
  { rewrite Hlen, Nat.eqb_refl. reflexivity. }
  destruct (@generate_image_variants_paints _ _ _ img coords' vals' f' w)
    as (w1' & Hrun' & _ & _ & _ & _ & _ & Hpaint'); auto.
  { rewrite Hlen', Nat.eqb_refl. reflexivity. }
  do 4 eexists. split; [exact Hrun |]. split; [exact Hrun' |]. cbn [batch_ptr].
  intros c x y. rewrite Hpaint, Hpaint'.
  destruct (Nat.ltb_spec i (dim0 coords)); [| lia].
  destruct (Nat.ltb_spec i (dim0 coords')); [| lia].
  unfold painted. rewrite <- HP.
  rewrite (@last_such_ext (fun j => lands_on (height img) (width img) f i j x y)
             (fun j => lands_on (height img) (width img) f' i j x y)).
  2: { intros j Hj. unfold lands_on. now rewrite !Hf. }
  destruct (last_such (fun j => lands_on (height img) (width img) f' i j x y) (dim1 coords))
    as [j |] eqn:El; [| reflexivity].
  apply last_such_some in El. destruct El as (Hj & _ & _).
  rewrite Hlen, Hlen'. f_equal. now apply Hv.
Qed.

(** ** Boundary repair *)

(** X16.  Where a repaired integer coordinate ends up, for an image of size
    [size >= 1] and a coordinate [v] other than the least int64: never above
    [size - 1]; inside [0, size - 1] exactly when [|v| <= size - 1]; accepted
    by the compositor as an index of an axis of length [size] exactly when
    [|v| <= 2 * size - 1]; and not below [- (size - 1)] when
    [|v| <= 2 * (size - 1)]. *)
Theorem repaired_coordinate_range
  (height : nat) (n p d : nat) (coords : index3 -> Z) (k : index3) :
  let size := Z.of_nat height in
  let v := coords k in
  1 <= height ->
  (- 2 ^ 63 < v < 2 ^ 63)%Z ->
  exists r,
    item (F := F) (buf (repair_coords size (NDArray n p d (IntBuf coords)))) k = SInt r
    /\ (r <= size - 1)%Z
    /\ ((0 <= r)%Z <-> (- (size - 1) <= v <= size - 1)%Z)
    /\ ((exists x, normalize_index height r = Ok x)
        <-> (- (2 * size - 1) <= v <= 2 * size - 1)%Z)
    /\ ((- (2 * (size - 1)) <= v <= 2 * (size - 1))%Z -> (- (size - 1) <= r)%Z).
Proof.
  intros size v Hh Hv.
  assert (Hsize : size = Z.of_nat height) by reflexivity.
  clearbody size.
  assert (Hneg : wrap64 (- v) = (- v)%Z) by (apply wrap64_small; unfold int64_range; lia).
  unfold repair_coords, with_buf.
  cbn [buf np_where np_lt_int np_gt_int np_neg np_int_sub item].
  fold v.
  set (v1 := if (v <? 0)%Z then wrap64 (- v) else v).
  assert (Hv1 : v1 = Z.abs v).
  { unfold v1. destruct (Z.ltb_spec v 0); [rewrite Hneg |]; lia. }
  set (r := if (size - 1 <? v1)%Z then wrap64 (size - 1 - v1) else v1).
  assert (Hr : r = if (size - 1 <? Z.abs v)%Z then (size - 1 - Z.abs v)%Z else Z.abs v).
  { unfold r. rewrite Hv1. destruct (Z.ltb_spec (size - 1) (Z.abs v)); [| reflexivity].
    apply wrap64_small. unfold int64_range. lia. }
  exists r. split; [reflexivity |].
  assert (Hnorm : (exists x, normalize_index height r = Ok x)
                  <-> (- size <= r < size)%Z).
  { rewrite Hsize.
    destruct (normalize_index_cases height r) as [(Hin & Hok) | (Hout & Hraise)].
    - split; [intros _; exact Hin | intros _; eauto].
    - split; [intros (x & Hx); congruence | intros Hin; contradiction]. }
  rewrite Hnorm. rewrite Hr.
  destruct (Z.ltb_spec (size - 1) (Z.abs v)); repeat split; try lia.
Qed.

(** ** Fitness evaluator *)

(** X9.  When the classifier fails on the parent batch, the evaluator raises
    that failure and the child batch is never submitted; when it fails on the
    child batch, the evaluator raises that failure after the two queries.
    Nothing is retried and nothing is printed. *)
Theorem evaluation_step_propagates_classifier_failures
  (model : classifier) (parent_imgs child_imgs : batch) (target_class actual_class : Z)
  (w : @world F G) (e : error) :
  (model (contents w parent_imgs) = Raise e ->
   evaluation_step model parent_imgs child_imgs target_class actual_class w
   = (Raise e,
      {| tensors := tensors w; rng := rng w;
         queries := queries w ++ [contents w parent_imgs];
         stdout := stdout w |}))
  /\ (forall parent_logits,
        model (contents w parent_imgs) = Ok parent_logits ->
        model (contents w child_imgs) = Raise e ->
        evaluation_step model parent_imgs child_imgs target_class actual_class w
        = (Raise e,
           {| tensors := tensors w; rng := rng w;
              queries := (queries w ++ [contents w parent_imgs])
                         ++ [contents w child_imgs];
              stdout := stdout w |})).
Proof.
  split.
  - intros Hp. unfold evaluation_step, bind, load, call_model. cbn [fst snd].
    rewrite Hp. reflexivity.
  - intros pl Hp Hc. unfold evaluation_step, bind, load, call_model. cbn [fst snd].
    rewrite Hp. cbn [tensors rng queries stdout].
    change (model (contents
                     {| tensors := tensors w; rng := rng w;
                        queries := queries w ++ [contents w parent_imgs];
                        stdout := stdout w |} child_imgs))
      with (model (contents w child_imgs)).
    rewrite Hc. reflexivity.
Qed.

Lemma nth_head_map_seq {A} (f : nat -> A) (n i : nat) (d : A) :
  i < S n -> nth i (f 0 :: map f (seq 1 n)) d = f i.
Proof.
  intros Hi. change (f 0 :: map f (seq 1 n)) with (map f (range (S n))).
  now apply nth_map_range.
Qed.

(** X10.  Under the conditions in which every agent has a mask entry (score
    tables of the same number [n > 0] of rows, valid class columns), the
    scores the evaluator returns are, agent by agent, those of the candidate
    the mask selects: the child's target and actual scores where the mask is
    True, the parent's where it is False. *)
Theorem evaluation_step_scores_follow_the_mask
  (model : classifier) (parent_imgs child_imgs : batch) (target_class actual_class : Z)
  (w : @world F G) (parent_logits child_logits : logits) (pt pa ct ca : nat) :
  model (contents w parent_imgs) = Ok parent_logits ->
  model (contents w child_imgs) = Ok child_logits ->
  rows child_logits = rows parent_logits ->
  0 < rows parent_logits ->
  normalize_index (classes parent_logits) target_class = Ok pt ->
  normalize_index (classes parent_logits) actual_class = Ok pa ->
  normalize_index (classes child_logits) target_class = Ok ct ->
  normalize_index (classes child_logits) actual_class = Ok ca ->
  exists update_mask new_target_logits new_actual_logits w',
    evaluation_step model parent_imgs child_imgs target_class actual_class w
    = (Ok (update_mask, new_target_logits, new_actual_logits), w')
    /\ length new_target_logits = rows parent_logits
    /\ length new_actual_logits = rows parent_logits
    /\ forall i, i < rows parent_logits ->
         nth i new_target_logits fzero
         = (if nth i update_mask false
            then logit child_logits i ct else logit parent_logits i pt)
         /\ nth i new_actual_logits fzero
            = (if nth i update_mask false
               then logit child_logits i ca else logit parent_logits i pa).
Proof.
  intros Hp Hc Hrows Hpos Hpt Hpa Hct Hca.
  set (n := rows parent_logits) in *.
  set (mask := fun r => fge (divergence child_logits ct ca r)
                            (divergence parent_logits pt pa r)).
  unfold evaluation_step, bind, load, call_model, lift, column, print, ret.
  simpl. rewrite Hp, Hc, Hpt, Hpa, Hct, Hca. simpl.
  rewrite Hrows. fold n.
  rewrite !broadcast2_map_range.
  rewrite !(torch_where_map_range mask).
  destruct n as [| n']; [lia |].
  unfold reduce_index, range. simpl seq. simpl map.
  do 4 eexists. split; [reflexivity |].
  split; [simpl; now rewrite length_map, length_seq |].
  split; [simpl; now rewrite length_map, length_seq |].
  intros i Hi.
  rewrite (nth_head_map_seq
             (fun r => if mask r then logit child_logits r ct else logit parent_logits r pt))
    by assumption.
  rewrite (nth_head_map_seq
             (fun r => if mask r then logit child_logits r ca else logit parent_logits r pa))
    by assumption.
  rewrite !(nth_head_map_seq mask) by assumption.
  split; reflexivity.
Qed.

Lemma column_cases (l : logits) (k : Z) :
  (exists k', normalize_index (classes l) k = Ok k'
              /\ column (F := F) l k = Ok (map (fun r => logit l r k') (range (rows l))))
  \/ (normalize_index (classes l) k = Raise IndexOutOfRange
      /\ column (F := F) l k = Raise IndexOutOfRange).
Proof.
  unfold column.
  destruct (normalize_index_cases (classes l) k) as [(_ & H) | (_ & H)]; rewrite H.
  - left. eexists. split; reflexivity.
  - right. split; reflexivity.
Qed.

(** X11.  A class index outside [-classes, classes) for the score table it is
    used on, be it the target or the actual class, on the parent or on the
    child table, makes the evaluator raise the index error; both batches
    have been submitted to the classifier by then. *)
Theorem evaluation_step_checks_class_indices_late
  (model : classifier) (parent_imgs child_imgs : batch) (target_class actual_class : Z)
  (w : @world F G) (parent_logits child_logits : logits) :
  model (contents w parent_imgs) = Ok parent_logits ->
  model (contents w child_imgs) = Ok child_logits ->
  (normalize_index (classes parent_logits) target_class = Raise IndexOutOfRange
   \/ normalize_index (classes parent_logits) actual_class = Raise IndexOutOfRange
   \/ normalize_index (classes child_logits) target_class = Raise IndexOutOfRange
   \/ normalize_index (classes child_logits) actual_class = Raise IndexOutOfRange) ->
  evaluation_step model parent_imgs child_imgs target_class actual_class w
  = (Raise IndexOutOfRange,
     {| tensors := tensors w; rng := rng w;
        queries := (queries w ++ [contents w parent_imgs]) ++ [contents w child_imgs];
        stdout := stdout w |}).
Proof.
  intros Hp Hc Hbad.
  unfold evaluation_step, bind, load, call_model, lift. cbn [fst snd].
  rewrite Hp. cbn [tensors rng queries stdout].
  change (model (contents
                   {| tensors := tensors w; rng := rng w;
                      queries := queries w ++ [contents w parent_imgs];
                      stdout := stdout w |} child_imgs))
    with (model (contents w child_imgs)).
  rewrite Hc.
  destruct (column_cases parent_logits target_class) as [(pt & Ept & ->) | (Ept & ->)];
    [| reflexivity].
  destruct (column_cases parent_logits actual_class) as [(pa & Epa & ->) | (Epa & ->)];
    [| reflexivity].
  rewrite broadcast2_map_range.
  destruct (column_cases child_logits target_class) as [(ct & Ect & ->) | (Ect & ->)];
    [| reflexivity].
  destruct (column_cases child_logits actual_class) as [(ca & Eca & ->) | (Eca & ->)];
    [| reflexivity].
  exfalso. destruct Hbad as [H | [H | [H | H]]]; congruence.
Qed.

(** X12.  Score tables without rows, as for an empty population, make the
    evaluator raise at the search for the best agent, after both queries and
    before anything is printed. *)
Theorem evaluation_step_rejects_empty_batches
  (model : classifier) (parent_imgs child_imgs : batch) (target_class actual_class : Z)
  (w : @world F G) (parent_logits child_logits : logits) (pt pa ct ca : nat) :
  model (contents w parent_imgs) = Ok parent_logits ->
  model (contents w child_imgs) = Ok child_logits ->
  rows parent_logits = 0 ->
  rows child_logits = 0 ->
  normalize_index (classes parent_logits) target_class = Ok pt ->
  normalize_index (classes parent_logits) actual_class = Ok pa ->
  normalize_index (classes child_logits) target_class = Ok ct ->
  normalize_index (classes child_logits) actual_class = Ok ca ->
  evaluation_step model parent_imgs child_imgs target_class actual_class w
  = (Raise EmptyReduction,
     {| tensors := tensors w; rng := rng w;
        queries := (queries w ++ [contents w parent_imgs]) ++ [contents w child_imgs];
        stdout := stdout w |}).
Proof.
  intros Hp Hc Rp Rc Hpt Hpa Hct Hca.
  unfold evaluation_step, bind, load, call_model, lift, column. cbn [fst snd].
  rewrite Hp. cbn [tensors rng queries stdout].
  change (model (contents
                   {| tensors := tensors w; rng := rng w;
                      queries := queries w ++ [contents w parent_imgs];
                      stdout := stdout w |} child_imgs))
    with (model (contents w child_imgs)).
  rewrite Hc, Hpt, Hpa, Hct, Hca, Rp, Rc. reflexivity.
Qed.

Lemma evaluation_step_world
  (model : classifier) (parent_imgs child_imgs : batch) (target_class actual_class : Z)
  (w : @world F G) :
  let outcome :=
    evaluation_step model parent_imgs child_imgs target_class actual_class w in
  tensors (snd outcome) = tensors w
  /\ rng (snd outcome) = rng w
  /\ (exists qs, queries (snd outcome) = queries w ++ qs /\ length qs <= 2)
  /\ (forall r, fst outcome = Ok r ->
        queries (snd outcome)
        = queries w ++ [contents w parent_imgs; contents w child_imgs]
        /\ exists x1 x2 x3 x4, stdout (snd outcome) = stdout w ++ [x1; x2; x3; x4])
  /\ (forall e, fst outcome = Raise e -> stdout (snd outcome) = stdout w).
Proof.
  intros outcome. subst outcome.
  unfold evaluation_step, bind, load, call_model, lift, print, ret.
  cbn [fst snd].
  destruct (model (contents w parent_imgs)) as [pl | e0];
    cbn [fst snd tensors rng queries stdout].
  2: { repeat split; try discriminate.
       exists [contents w parent_imgs]. split; [reflexivity | cbn; lia]. }
  destruct (model _) as [cl | e0]; cbn [fst snd tensors rng queries stdout].
  2: { repeat split; try discriminate.
       exists [contents w parent_imgs; contents w child_imgs].
       split; [now rewrite <- app_assoc | cbn; lia]. }
  repeat match goal with
         | |- context [match ?r with Ok _ => _ | Raise _ => _ end] =>
             destruct r; cbn [fst snd tensors rng queries stdout]
         end;
    (split; [reflexivity |]; split; [reflexivity |]; split;
     [exists [contents w parent_imgs; contents w child_imgs];
      split; [now rewrite <- app_assoc | cbn; lia] |];
     split; [intros r Hr;
             first [discriminate Hr
                   | split; [now rewrite <- app_assoc | do 4 eexists; reflexivity]]
            | intros e1 He1; first [discriminate He1 | reflexivity]]).
Qed.

(** X13.  The evaluator reads the two batches and changes no tensor and not the
    generator.  It submits at most two batches to the classifier; when it
    returns it has submitted exactly the parent batch and then the child
    batch, and has printed exactly four numbers; when it raises it has
    printed nothing. *)
Theorem evaluation_step_only_queries_and_prints
  (model : classifier) (parent_imgs child_imgs : batch) (target_class actual_class : Z)
  (w : @world F G) :
  let outcome :=
    evaluation_step model parent_imgs child_imgs target_class actual_class w in
  tensors (snd outcome) = tensors w
  /\ rng (snd outcome) = rng w
  /\ (exists qs, queries (snd outcome) = queries w ++ qs /\ length qs <= 2)
  /\ (forall r, fst outcome = Ok r ->
        queries (snd outcome)
        = queries w ++ [contents w parent_imgs; contents w child_imgs]
        /\ exists x1 x2 x3 x4, stdout (snd outcome) = stdout w ++ [x1; x2; x3; x4])
  /\ (forall e, fst outcome = Raise e -> stdout (snd outcome) = stdout w).
Proof. exact (evaluation_step_world model parent_imgs child_imgs target_class actual_class w). Qed.

Lemma column_length (l : logits) (k : Z) (v : list F) :
  column l k = Ok v -> length v = rows l.
Proof.
  destruct (column_cases l k) as [(k' & _ & ->) | (_ & ->)]; [| discriminate].
  intros [= <-]. apply length_map_range.
Qed.

Lemma torch_where_length (mask : list bool) (xs ys zs : list F) :
  torch_where mask xs ys = Ok zs ->
  length mask = (if length xs =? 1 then length ys else length xs) ->
  length zs = length mask.
Proof.
  unfold torch_where. intros H Hlen.
  destruct (broadcast2 (@pair F F) xs ys) as [xys | e] eqn:Hxys; [| discriminate].
  cbn [rbind] in H. apply broadcast2_ok_length in Hxys.
  rewrite broadcast2_same_length in H by congruence.
  injection H as <-. rewrite length_map, length_combine, Hxys, <- Hlen. apply Nat.min_id.
Qed.

Lemma stopping_criterion_same_length (ts acts : list F) :
  length ts = length acts -> exists verdict, stopping_criterion ts acts = Ok verdict.
Proof.
  intros H. unfold stopping_criterion. rewrite broadcast2_same_length by assumption.
  cbn [rbind]. destruct (existsb _ _); eauto.
Qed.

Lemma evaluation_step_ok_lengths
  (model : classifier) (parent_imgs child_imgs : batch) (target_class actual_class : Z)
  (w w' : @world F G) (update_mask : list bool) (new_target_logits new_actual_logits : list F) :
  evaluation_step model parent_imgs child_imgs target_class actual_class w
  = (Ok (update_mask, new_target_logits, new_actual_logits), w') ->
  1 <= length update_mask
  /\ length new_target_logits = length update_mask
  /\ length new_actual_logits = length update_mask
  /\ exists verdict, stopping_criterion new_target_logits new_actual_logits = Ok verdict.
Proof.
  unfold evaluation_step, bind, load, call_model, lift, print, ret.
  cbn [fst snd]. intros H.
  destruct (model (contents w parent_imgs)) as [pl | e]; [| discriminate].
  destruct (model _) as [cl | e]; [| discriminate].
  destruct (column pl target_class) as [ptv | e] eqn:Ept; [| discriminate].
  destruct (column pl actual_class) as [pav | e] eqn:Epa; [| discriminate].
  destruct (broadcast2 _ ptv pav) as [pdv | e] eqn:Epd; [| discriminate].
  destruct (column cl target_class) as [ctv | e] eqn:Ect; [| discriminate].
  destruct (column cl actual_class) as [cav | e] eqn:Eca; [| discriminate].
  destruct (broadcast2 _ ctv cav) as [cdv | e] eqn:Ecd; [| discriminate].
  destruct (broadcast2 _ pav cav) as [deg | e]; [| discriminate].
  destruct (broadcast2 fge cdv pdv) as [mask | e] eqn:Em; [| discriminate].
  destruct (torch_where mask ctv ptv) as [nt | e] eqn:Ent; [| discriminate].
  destruct (torch_where mask cav pav) as [na | e] eqn:Ena; [| discriminate].
  destruct (reduce_index argmax nt) as [bt | e] eqn:Ebt; [| discriminate].
  destruct (reduce_index argmin na) as [ba | e]; [| discriminate].
  injection H as <- <- <- _.
  apply column_length in Ept, Epa, Ect, Eca.
  apply broadcast2_ok_length in Epd, Ecd, Em.
  assert (Lpd : length pdv = rows pl).
  { rewrite Epd, Ept, Epa. now destruct (rows pl =? 1). }
  assert (Lcd : length cdv = rows cl).
  { rewrite Ecd, Ect, Eca. now destruct (rows cl =? 1). }
  rewrite Lcd, Lpd in Em.
  assert (Lnt : length nt = length mask).
  { apply (torch_where_length _ _ _ Ent). now rewrite Ect, Ept. }
  assert (Lna : length na = length mask).
  { apply (torch_where_length _ _ _ Ena). now rewrite Eca, Epa. }
  assert (Hpos : 1 <= length nt).
  { destruct nt; [discriminate | cbn; lia]. }
  repeat split; try lia.
  apply stopping_criterion_same_length. congruence.
Qed.

(** X14.  The scores the evaluator returns fit the convergence check: whenever it
    returns, there is at least one agent, the two score vectors have one
    entry per mask entry, and [stopping_criterion] returns on them. *)
Theorem evaluation_step_scores_fit_the_convergence_check
  (model : classifier) (parent_imgs child_imgs : batch) (target_class actual_class : Z)
  (w w' : @world F G) (update_mask : list bool) (new_target_logits new_actual_logits : list F) :
  evaluation_step model parent_imgs child_imgs target_class actual_class w
  = (Ok (update_mask, new_target_logits, new_actual_logits), w') ->
  1 <= length update_mask
  /\ length new_target_logits = length update_mask
  /\ length new_actual_logits = length update_mask
  /\ exists verdict, stopping_criterion new_target_logits new_actual_logits = Ok verdict.
Proof.
  exact (@evaluation_step_ok_lengths model parent_imgs child_imgs target_class
           actual_class w w' update_mask new_target_logits new_actual_logits).
Qed.

(** ** Convergence check *)

Lemma nonzero_from_sorted (p : nat -> bool) (len start : nat) :
  StronglySorted lt (filter p (seq start len))
  /\ Forall (fun k => start <= k) (filter p (seq start len)).
Proof.
  revert start. induction len as [| len IH]; intros start; cbn [seq filter].
  - split; constructor.
  - destruct (IH (S start)) as [Hs Hf].
    assert (Hf' : Forall (fun k => start <= k) (filter p (seq (S start) len))).
    { eapply Forall_impl; [| exact Hf]. cbn. intros; lia. }
    destruct (p start).
    + split.
      * constructor; [exact Hs |].
        eapply Forall_impl; [| exact Hf]. cbn. intros; lia.
      * constructor; [lia | exact Hf'].
    + split; assumption.
Qed.

(** X15.  The convergence check on vectors of any lengths: the only error it
    raises is the broadcasting error, and it raises it exactly when the two
    vectors have different lengths and neither has length one.  When it
    stops, the winners are listed in increasing order. *)
Theorem stopping_criterion_raises_only_on_length_clash
  (target_logits actual_logits : list F) :
  (stopping_criterion target_logits actual_logits = Raise BroadcastMismatch
   <-> broadcastable (length target_logits) (length actual_logits) = false)
  /\ (forall e, stopping_criterion target_logits actual_logits = Raise e ->
        e = BroadcastMismatch)
  /\ (forall stop winners,
        stopping_criterion target_logits actual_logits = Ok (stop, Some winners) ->
        stop = true /\ StronglySorted lt winners).
Proof.
  unfold stopping_criterion.
  destruct (broadcast2_cases fgt target_logits actual_logits)
    as [(Hb & gt & -> & _) | (Hb & ->)]; cbn [rbind]; rewrite Hb.
  - destruct (existsb (fun b : bool => b) gt).
    + split; [split; discriminate |]. split; [discriminate |].
      intros stop winners [= <- <-]. split; [reflexivity |].
      unfold nonzero, range. apply nonzero_from_sorted.
    + split; [split; discriminate |]. split; discriminate.
  - split; [split; reflexivity |]. split; [| discriminate].
    intros e [= <-]. reflexivity.
Qed.

(** ** Generation orchestrator *)

Lemma evolution_step_ok_inv
  (model : classifier) (img : image) (parent_coords parent_pixel_vals : @ndarray F)
  (target_class actual_class : Z) (cr_prob F_ : F) (w w' : @world F G)
  (update_mask : list bool) (next_gen_coords next_gen_pixel_vals : @ndarray F)
  (stop : bool) (best_agent : option (list nat)) :
  evolution_step model img parent_coords parent_pixel_vals target_class actual_class
    cr_prob F_ w
  = (Ok (update_mask, next_gen_coords, next_gen_pixel_vals, stop, best_agent), w') ->
  exists (mc mv : @ndarray F) (w1 w2 w3 w4 : @world F G) (pimgs cimgs : batch)
         (nt na : list F),
    generate_children parent_coords cr_prob F_ true w = (Ok mc, w1)
    /\ generate_children parent_pixel_vals cr_prob F_ false w1 = (Ok mv, w2)
    /\ generate_image_variants img parent_coords parent_pixel_vals w2 = (Ok pimgs, w3)
    /\ generate_image_variants img (repair_coords (Z.of_nat (height img)) mc)
         (repair_pixel_values mv) w3 = (Ok cimgs, w4)
    /\ evaluation_step model pimgs cimgs target_class actual_class w4
       = (Ok (update_mask, nt, na), w')
    /\ stopping_criterion nt na = Ok (stop, best_agent)
    /\ np_where_agents update_mask (repair_coords (Z.of_nat (height img)) mc) parent_coords
       = Ok next_gen_coords
    /\ np_where_agents update_mask (repair_pixel_values mv) parent_pixel_vals
       = Ok next_gen_pixel_vals.
Proof.
  unfold evolution_step. intros H.
  unfold bind at 1 in H.
  destruct (generate_children parent_coords cr_prob F_ true w)
    as [[mc | e] w1] eqn:Hmc; [| discriminate].
  unfold bind at 1 in H.
  destruct (generate_children parent_pixel_vals cr_prob F_ false w1)
    as [[mv | e] w2] eqn:Hmv; [| discriminate].
  cbv zeta in H.
  unfold bind at 1 in H.
  destruct (generate_image_variants img parent_coords parent_pixel_vals w2)
    as [[pimgs | e] w3] eqn:Hp; [| discriminate].
  unfold bind at 1 in H.
  destruct (generate_image_variants img _ _ w3) as [[cimgs | e] w4] eqn:Hc; [| discriminate].
  unfold bind at 1 in H.
  destruct (evaluation_step model pimgs cimgs target_class actual_class w4)
    as [[[[mask nt] na] | e] w5] eqn:He; [| discriminate].
  unfold bind at 1 in H. unfold lift at 1 in H.
  destruct (stopping_criterion nt na) as [[st best] | e] eqn:Hs; [| discriminate].
  unfold bind at 1 in H. unfold lift at 1 in H.
  destruct (np_where_agents mask (repair_coords (Z.of_nat (height img)) mc) parent_coords)
    as [ngc | e] eqn:Hngc; [| discriminate].
  unfold bind at 1 in H. unfold lift at 1 in H.
  destruct (np_where_agents mask (repair_pixel_values mv) parent_pixel_vals)
    as [ngv | e] eqn:Hngv; [| discriminate].
  unfold ret in H. injection H as <- <- <- <- <- <-.
  exists mc, mv, w1, w2, w3, w4, pimgs, cimgs, nt, na. repeat split; assumption.
Qed.

Lemma generate_children_ok_dtype (parent_candidates : @ndarray F) (cr_prob F_ : F)
  (round_ : bool) (w w' : @world F G) (children : @ndarray F) :
  generate_children parent_candidates cr_prob F_ round_ w = (Ok children, w') ->
  is_int (buf children) = round_ && is_int (buf parent_candidates).
Proof.
  unfold generate_children, bind, lift. intros H.
  destruct (for_each (range (dim0 parent_candidates))
              (generate_child parent_candidates cr_prob F_ round_) w)
    as [[cs | e] w1] eqn:Hloop; [| discriminate].
  destruct (np_stack (dim1 parent_candidates) (dim2 parent_candidates) cs)
    as [a | e] eqn:Hstack; [| discriminate].
  injection H as <- _.
  destruct (for_each_ok_nth _ _ _ Hloop) as [Hlen Hnth].
  unfold range in Hlen, Hnth. rewrite length_seq in Hlen, Hnth.
  destruct (@np_stack_ok (dim1 parent_candidates) (dim2 parent_candidates) cs
              (round_ && is_int (buf parent_candidates)))
    as (a' & Hstack' & _ & _ & _ & Hint).
  { intros ->. discriminate Hstack. }
  { intros i c0 Hi. rewrite Hlen in Hi.
    destruct (Hnth i 0 c0 Hi) as (w0 & w2 & Hchild).
    destruct (generate_child_ok _ _ _ _ _ _ Hchild) as (? & ? & ? & ? & ? & _ & _ & Hd & _).
    exact Hd. }
  congruence.
Qed.

Lemma generate_image_variants_ok_dims (img : image) (coords vals : @ndarray F)
  (w w' : @world F G) (b : batch) :
  generate_image_variants img coords vals w = (Ok b, w') ->
  dim0 coords = dim0 vals /\ dim1 coords = dim1 vals.
Proof.
  unfold generate_image_variants.
  destruct (Nat.eqb_spec (dim0 coords) (dim0 vals)),
    (Nat.eqb_spec (dim1 coords) (dim1 vals)); cbn [andb]; try discriminate.
  auto.
Qed.

Lemma np_where_agents_dims (mask : list bool) (x y a : @ndarray F) :
  dim0 x = dim0 y -> dim1 x = dim1 y -> dim2 x = dim2 y ->
  2 <= dim0 y ->
  np_where_agents mask x y = Ok a ->
  dim0 a = dim0 y /\ dim1 a = dim1 y /\ dim2 a = dim2 y
  /\ is_int (buf a) = is_int (buf x) && is_int (buf y)
  /\ (length mask = dim0 y \/ length mask = 1).
Proof.
  intros D0 D1 D2 Hn H.
  unfold np_where_agents in H. rewrite D0, D1, D2, !broadcast_dim_same in H.
  cbn [rbind] in H. unfold broadcast_dim in H.
  destruct (Nat.eqb_spec (length mask) (dim0 y)) as [E | E].
  - cbn [rbind] in H. injection H as <-. cbn [dim0 dim1 dim2 buf].
    rewrite is_int_np_where, !is_int_view. repeat split; auto.
  - destruct (Nat.eqb_spec (length mask) 1) as [E1 | E1].
    + cbn [rbind] in H. injection H as <-. cbn [dim0 dim1 dim2 buf].
      rewrite is_int_np_where, !is_int_view. repeat split; auto.
    + destruct (Nat.eqb_spec (dim0 y) 1); [lia | discriminate].
Qed.

Lemma is_int_repair_coords (size : Z) (a : @ndarray F) :
  is_int (buf (repair_coords size a)) = is_int (buf a).
Proof. unfold repair_coords, with_buf. cbn [buf]. destruct (buf a); reflexivity. Qed.

Lemma is_int_repair_pixel_values (a : @ndarray F) :
  is_int (buf (repair_pixel_values a)) = false.
Proof. unfold repair_pixel_values, with_buf. cbn [buf]. destruct (buf a); reflexivity. Qed.

(** X17.  A population of no agent or of a single agent cannot be evolved: the
    step raises at the first mutation, in the world it was called in, so
    that no tensor has been allocated, the classifier has not been queried
    and the generator has not been advanced. *)
Theorem evolution_step_needs_two_agents
  (model : classifier) (img : image) (parent_coords parent_pixel_vals : @ndarray F)
  (target_class actual_class : Z) (cr_prob F_ : F) (w : @world F G) :
  (dim0 parent_coords = 0 ->
   evolution_step model img parent_coords parent_pixel_vals target_class actual_class
     cr_prob F_ w = (Raise EmptyStack, w))
  /\ (dim0 parent_coords = 1 ->
      evolution_step model img parent_coords parent_pixel_vals target_class actual_class
        cr_prob F_ w = (Raise EmptyPool, w)).
Proof.
  destruct (generate_children_small_population parent_coords cr_prob F_ true w)
    as (H0 & H1 & _).
  split; intros H; unfold evolution_step; unfold bind at 1;
    [rewrite (H0 H) | rewrite (H1 H)]; reflexivity.
Qed.

(** X18.  A generation step that returns hands back a population that can be
    evolved again: there are two agents or more, the coordinates and the
    colours agree on the numbers of agents and of units, both
    next-generation arrays have the shapes of the parent arrays, the
    coordinates keep the dtype of the parent coordinates and the colours
    are float. *)
Theorem evolution_step_keeps_the_population_shape
  (model : classifier) (img : image) (parent_coords parent_pixel_vals : @ndarray F)
  (target_class actual_class : Z) (cr_prob F_ : F) (w w' : @world F G)
  (update_mask : list bool) (next_gen_coords next_gen_pixel_vals : @ndarray F)
  (stop : bool) (best_agent : option (list nat)) :
  evolution_step model img parent_coords parent_pixel_vals target_class actual_class
    cr_prob F_ w
  = (Ok (update_mask, next_gen_coords, next_gen_pixel_vals, stop, best_agent), w') ->
  2 <= dim0 parent_coords
  /\ dim0 parent_coords = dim0 parent_pixel_vals
  /\ dim1 parent_coords = dim1 parent_pixel_vals
  /\ (dim0 next_gen_coords = dim0 parent_coords
      /\ dim1 next_gen_coords = dim1 parent_coords
      /\ dim2 next_gen_coords = dim2 parent_coords)
  /\ (dim0 next_gen_pixel_vals = dim0 parent_pixel_vals
      /\ dim1 next_gen_pixel_vals = dim1 parent_pixel_vals
      /\ dim2 next_gen_pixel_vals = dim2 parent_pixel_vals)
  /\ is_int (buf next_gen_coords) = is_int (buf parent_coords)
  /\ is_int (buf next_gen_pixel_vals) = false
  /\ (length update_mask = dim0 parent_coords \/ length update_mask = 1).
Proof.
  intros H.
  destruct (evolution_step_ok_inv _ _ _ _ _ _ _ _ _ H)
    as (mc & mv & w1 & w2 & w3 & w4 & pimgs & cimgs & nt & na
        & Hmc & Hmv & Hp & Hc & He & Hs & Hngc & Hngv).
  destruct (generate_children_small_population parent_coords cr_prob F_ true w)
    as (_ & _ & Htwo).
  specialize (Htwo _ _ Hmc).
  destruct (generate_children_ok _ _ _ _ _ Hmc) as (C0 & C1 & C2 & _).
  destruct (generate_children_ok _ _ _ _ _ Hmv) as (V0 & V1 & V2 & _).
  destruct (generate_image_variants_ok_dims _ _ _ _ Hp) as (P0 & P1).
  destruct (@np_where_agents_dims update_mask
              (repair_coords (Z.of_nat (height img)) mc) parent_coords next_gen_coords
              C0 C1 C2 Htwo Hngc)
    as (A0 & A1 & A2 & Ai & Am).
  assert (Htwo' : 2 <= dim0 parent_pixel_vals) by lia.
  destruct (@np_where_agents_dims update_mask
              (repair_pixel_values mv) parent_pixel_vals next_gen_pixel_vals
              V0 V1 V2 Htwo' Hngv)
    as (B0 & B1 & B2 & Bi & Bm).
  rewrite is_int_repair_coords in Ai. rewrite is_int_repair_pixel_values in Bi.
  pose proof (generate_children_ok_dtype _ _ _ _ _ Hmc) as Hmci. cbn [andb] in Hmci.
  rewrite Hmci in Ai.
  assert (Hsame : is_int (buf parent_coords) && is_int (buf parent_coords)
                  = is_int (buf parent_coords)) by now destruct (is_int (buf parent_coords)).
  repeat split; try assumption; try congruence.
Qed.

Lemma keeps_tensors_from_refl (n : nat) (w : @world F G) : keeps_tensors_from n w w.
Proof. unfold keeps_tensors_from, keeps_tensors_below. auto. Qed.

Lemma keeps_tensors_from_trans (n : nat) (a b c : @world F G) :
  keeps_tensors_from n a b -> keeps_tensors_from n b c -> keeps_tensors_from n a c.
Proof.
  unfold keeps_tensors_from, keeps_tensors_below. intros Hab Hbc Hn.
  destruct (Hab Hn) as [Hnext Hcell]. destruct (Hbc ltac:(lia)) as [Hnext' Hcell'].
  split; [lia |]. intros q Hq. rewrite Hcell', Hcell; auto.
Qed.

Lemma same_tensors_keeps (n : nat) (w w' : @world F G) :
  tensors w' = tensors w -> keeps_tensors_from n w w'.
Proof.
  intros H. unfold keeps_tensors_from, keeps_tensors_below. rewrite H. auto.
Qed.

Lemma generate_children_keeps_tensors (n : nat) (parent_candidates : @ndarray F)
  (cr_prob F_ : F) (round_ : bool) :
  preserves (keeps_tensors_from n)
    (generate_children (G := G) parent_candidates cr_prob F_ round_).
Proof.
  intros w. apply same_tensors_keeps.
  now destruct (generate_children_only_rng parent_candidates cr_prob F_ round_ w).
Qed.

Lemma generate_image_variants_keeps_tensors (n : nat) (img : image)
  (coords vals : @ndarray F) :
  preserves (keeps_tensors_from (G := G) n) (generate_image_variants img coords vals).
Proof.
  intros w Hn.
  destruct (generate_image_variants_frame img coords vals w) as (_ & _ & _ & Hnext & Hc & _).
  split; [lia |]. intros q Hq. apply Hc. lia.
Qed.

Lemma evaluation_step_keeps_tensors (n : nat) (model : classifier)
  (parent_imgs child_imgs : batch) (target_class actual_class : Z) :
  preserves (keeps_tensors_from (G := G) n)
    (evaluation_step model parent_imgs child_imgs target_class actual_class).
Proof.
  intros w. apply same_tensors_keeps.
  now destruct (evaluation_step_world model parent_imgs child_imgs target_class
                  actual_class w).
Qed.

(** X19.  Whatever it is given and whether it returns or raises, a generation
    step changes no tensor that existed when it was called: the base image,
    in particular, is never written to. *)
Theorem evolution_step_keeps_existing_tensors
  (model : classifier) (img : image) (parent_coords parent_pixel_vals : @ndarray F)
  (target_class actual_class : Z) (cr_prob F_ : F) (w : @world F G) :
  keeps_tensors_below (next (tensors w)) w
    (snd (evolution_step model img parent_coords parent_pixel_vals target_class
            actual_class cr_prob F_ w)).
Proof.
  set (n := next (tensors w)).
  assert (Hstep : preserves (keeps_tensors_from (G := G) n)
                    (evolution_step model img parent_coords parent_pixel_vals
                       target_class actual_class cr_prob F_)).
  { pose proof (@keeps_tensors_from_refl n) as Hr.
    pose proof (@keeps_tensors_from_trans n) as Ht.
    unfold evolution_step.
    apply (preserves_bind Ht); [apply generate_children_keeps_tensors |]. intros cc.
    apply (preserves_bind Ht); [apply generate_children_keeps_tensors |]. intros cv.
    cbv zeta.
    apply (preserves_bind Ht); [apply generate_image_variants_keeps_tensors |]. intros pimgs.
    apply (preserves_bind Ht); [apply generate_image_variants_keeps_tensors |]. intros cimgs.
    apply (preserves_bind Ht); [apply evaluation_step_keeps_tensors |].
    intros [[mask nt] na].
    apply (preserves_bind Ht); [apply (preserves_lift _ Hr) |]. intros [st best].
    apply (preserves_bind Ht); [apply (preserves_lift _ Hr) |]. intros ngc.
    apply (preserves_bind Ht); [apply (preserves_lift _ Hr) |]. intros ngv.
    apply (preserves_ret _ Hr). }
  apply Hstep. unfold n. lia.
Qed.

Lemma contents_same_tensors (w w' : @world F G) (t : batch) :
  tensors w' = tensors w -> contents w' t = contents w t.
Proof. intros H. unfold contents. now rewrite H. Qed.

(** X20.  A generation step that returns has allocated exactly two tensors, the
    parent batch and then the child batch, each of one variant per agent and
    of the shape of the base image; it has queried the classifier exactly
    twice, on the parent batch and then on the child batch, and has printed
    four numbers. *)
Theorem evolution_step_queries_the_classifier_twice
  (model : classifier) (img : image) (parent_coords parent_pixel_vals : @ndarray F)
  (target_class actual_class : Z) (cr_prob F_ : F) (w w' : @world F G)
  (update_mask : list bool) (next_gen_coords next_gen_pixel_vals : @ndarray F)
  (stop : bool) (best_agent : option (list nat)) :
  evolution_step model img parent_coords parent_pixel_vals target_class actual_class
    cr_prob F_ w
  = (Ok (update_mask, next_gen_coords, next_gen_pixel_vals, stop, best_agent), w') ->
  let batch_at p :=
    {| batch_ptr := p; batch_dtype := img_dtype img; batch_size := dim0 parent_coords;
       batch_channels := channels img; batch_height := height img;
       batch_width := width img |} in
  next (tensors w') = 2 + next (tensors w)
  /\ queries w'
     = queries w ++ [contents w' (batch_at (next (tensors w)));
                     contents w' (batch_at (S (next (tensors w))))]
  /\ exists x1 x2 x3 x4, stdout w' = stdout w ++ [x1; x2; x3; x4].
Proof.
  intros H batch_at.
  destruct (evolution_step_ok_inv _ _ _ _ _ _ _ _ _ H)
    as (mc & mv & w1 & w2 & w3 & w4 & pimgs & cimgs & nt & na
        & Hmc & Hmv & Hp & Hc & He & _).
  destruct (generate_children_only_rng parent_coords cr_prob F_ true w) as (T1 & Q1 & S1).
  rewrite Hmc in T1, Q1, S1. cbn [snd] in T1, Q1, S1.
  destruct (generate_children_only_rng parent_pixel_vals cr_prob F_ false w1)
    as (T2 & Q2 & S2).
  rewrite Hmv in T2, Q2, S2. cbn [snd] in T2, Q2, S2.
  destruct (generate_image_variants_frame img parent_coords parent_pixel_vals w2)
    as (_ & Q3 & S3 & _ & _ & Hok3).
  rewrite Hp in Q3, S3, Hok3. cbn [fst snd] in Q3, S3, Hok3.
  destruct (Hok3 _ eq_refl) as [Ep N3].
  destruct (generate_image_variants_frame img (repair_coords (Z.of_nat (height img)) mc)
              (repair_pixel_values mv) w3)
    as (_ & Q4 & S4 & _ & _ & Hok4).
  rewrite Hc in Q4, S4, Hok4. cbn [fst snd] in Q4, S4, Hok4.
  destruct (Hok4 _ eq_refl) as [Ec N4].
  destruct (evaluation_step_world model pimgs cimgs target_class actual_class w4)
    as (T5 & _ & _ & Hok5 & _).
  rewrite He in T5, Hok5. cbn [fst snd] in T5, Hok5.
  destruct (Hok5 _ eq_refl) as [Q5 (x1 & x2 & x3 & x4 & S5)].
  destruct (generate_children_ok _ _ _ _ _ Hmc) as (C0 & _).
  assert (Hn2 : next (tensors w2) = next (tensors w)) by (rewrite T2, T1; reflexivity).
  split; [rewrite T5, N4, N3, Hn2; reflexivity |]. split.
  - rewrite Q5, Q4, Q3, Q2, Q1.
    rewrite !(fun t => @contents_same_tensors w4 w' t T5).
    rewrite Ep, Ec. cbn [repair_coords with_buf dim0].
    rewrite N3, Hn2, C0. reflexivity.
  - exists x1, x2, x3, x4. rewrite S5, S4, S3, S2, S1. reflexivity.
Qed.

Lemma stopping_criterion_ok_inv (ts acts : list F) (stop : bool)
  (best : option (list nat)) :
  length ts = length acts ->
  stopping_criterion ts acts = Ok (stop, best) ->
  (stop = false /\ best = None)
  \/ (stop = true
      /\ exists gt, length gt = length ts /\ best = Some (nonzero gt)
                    /\ existsb (fun b : bool => b) gt = true).
Proof.
  intros Hlen. unfold stopping_criterion.
  rewrite broadcast2_same_length by assumption. cbn [rbind].
  set (gt := map _ (combine ts acts)).
  assert (Lgt : length gt = length ts).
  { unfold gt. rewrite length_map, length_combine. lia. }
  destruct (existsb (fun b : bool => b) gt) eqn:E; intros [= <- <-].
  - right. split; [reflexivity |]. exists gt. auto.
  - left. auto.
Qed.

(** X21.  What a generation step reports: when it does not stop there is no
    winner; when it stops there is at least one, each winner is an agent
    that has a mask entry, and no winner is listed twice. *)
Theorem evolution_step_reports_winners_when_it_stops
  (model : classifier) (img : image) (parent_coords parent_pixel_vals : @ndarray F)
  (target_class actual_class : Z) (cr_prob F_ : F) (w w' : @world F G)
  (update_mask : list bool) (next_gen_coords next_gen_pixel_vals : @ndarray F)
  (stop : bool) (best_agent : option (list nat)) :
  evolution_step model img parent_coords parent_pixel_vals target_class actual_class
    cr_prob F_ w
  = (Ok (update_mask, next_gen_coords, next_gen_pixel_vals, stop, best_agent), w') ->
  (stop = false -> best_agent = None)
  /\ (stop = true ->
      exists winners,
        best_agent = Some winners /\ winners <> [] /\ NoDup winners
        /\ forall i, In i winners -> i < length update_mask).
Proof.
  intros H.
  destruct (evolution_step_ok_inv _ _ _ _ _ _ _ _ _ H)
    as (mc & mv & w1 & w2 & w3 & w4 & pimgs & cimgs & nt & na
        & _ & _ & _ & _ & He & Hs & _).
  destruct (evaluation_step_ok_lengths _ _ _ _ _ _ He) as (_ & Lnt & Lna & _).
  destruct (stopping_criterion_ok_inv nt na ltac:(congruence) Hs)
    as [(-> & ->) | (-> & gt & Lgt & -> & Hany)].
  - split; [reflexivity | discriminate].
  - split; [discriminate |]. intros _. exists (nonzero gt).
    split; [reflexivity |]. split; [| split; [apply NoDup_nonzero |]].
    + apply existsb_id_nth in Hany. destruct Hany as (i & Hi & Hnth).
      intros Hnil. assert (Hin : In i (nonzero gt)) by (apply in_nonzero; auto).
      rewrite Hnil in Hin. destruct Hin.
    + intros i Hin. apply in_nonzero in Hin. destruct Hin as [Hi _]. congruence.
Qed.

(** X22.  When the coordinates and the colours disagree on the number of agents
    or of units (with two agents or more in each and a generator that
    returns positions of the pool), a generation step mutates both arrays
    and then raises the shape assertion of the compositor: no tensor has
    been allocated and the classifier has not been queried. *)
Theorem evolution_step_asserts_matching_counts
  (model : classifier) (img : image) (parent_coords parent_pixel_vals : @ndarray F)
  (target_class actual_class : Z) (cr_prob F_ : F) (w : @world F G) :
  2 <= dim0 parent_coords ->
  2 <= dim0 parent_pixel_vals ->
  draws_in_pool (RS := RS) (dim0 parent_coords - 1) ->
  draws_in_pool (RS := RS) (dim0 parent_pixel_vals - 1) ->
  (dim0 parent_coords <> dim0 parent_pixel_vals
   \/ dim1 parent_coords <> dim1 parent_pixel_vals) ->
  let outcome :=
    evolution_step model img parent_coords parent_pixel_vals target_class actual_class
      cr_prob F_ w in
  fst outcome = Raise ShapeAssertion
  /\ tensors (snd outcome) = tensors w
  /\ queries (snd outcome) = queries w
  /\ stdout (snd outcome) = stdout w.
Proof.
  intros Hn Hn' Hd Hd' Hne outcome. subst outcome.
  destruct (generate_children_total parent_coords cr_prob F_ true w Hn Hd)
    as (mc & w1 & Hmc & _).
  destruct (generate_children_total parent_pixel_vals cr_prob F_ false w1 Hn' Hd')
    as (mv & w2 & Hmv & _).
  destruct (generate_children_only_rng parent_coords cr_prob F_ true w) as (T1 & Q1 & S1).
  rewrite Hmc in T1, Q1, S1. cbn [snd] in T1, Q1, S1.
  destruct (generate_children_only_rng parent_pixel_vals cr_prob F_ false w1)
    as (T2 & Q2 & S2).
  rewrite Hmv in T2, Q2, S2. cbn [snd] in T2, Q2, S2.
  assert (Hgiv : generate_image_variants img parent_coords parent_pixel_vals w2
                 = (Raise ShapeAssertion, w2)).
  { unfold generate_image_variants.
    destruct (Nat.eqb_spec (dim0 parent_coords) (dim0 parent_pixel_vals)),
      (Nat.eqb_spec (dim1 parent_coords) (dim1 parent_pixel_vals)); cbn [andb];
      try reflexivity.
    destruct Hne; contradiction. }
  assert (Hrun : evolution_step model img parent_coords parent_pixel_vals target_class
                   actual_class cr_prob F_ w = (Raise ShapeAssertion, w2)).
  { unfold evolution_step. unfold bind at 1. rewrite Hmc.
    unfold bind at 1. rewrite Hmv. cbv zeta.
    unfold bind at 1. rewrite Hgiv. reflexivity. }
  rewrite Hrun. cbn [fst snd]. repeat split; congruence.
Qed.

Lemma evaluation_step_ok_mask_length
  (model : classifier) (parent_imgs child_imgs : batch) (target_class actual_class : Z)
  (w w' : @world F G) (update_mask : list bool) (new_target_logits new_actual_logits : list F) :
  evaluation_step model parent_imgs child_imgs target_class actual_class w
  = (Ok (update_mask, new_target_logits, new_actual_logits), w') ->
  exists parent_logits child_logits,
    model (contents w parent_imgs) = Ok parent_logits
    /\ model (contents w child_imgs) = Ok child_logits
    /\ length update_mask
       = if rows child_logits =? 1 then rows parent_logits else rows child_logits.
Proof.
  unfold evaluation_step, bind, load, call_model, lift, print, ret.
  cbn [fst snd]. intros H.
  unfold contents in *. cbn [tensors] in H.
  set (parent_batch := BatchValue _ _ _ _ _ (cell (tensors w) (batch_ptr parent_imgs))) in *.
  set (child_batch := BatchValue _ _ _ _ _ (cell (tensors w) (batch_ptr child_imgs))) in *.
  destruct (model parent_batch) as [pl | e]; [| discriminate].
  destruct (model child_batch) as [cl | e]; [| discriminate].
  destruct (column pl target_class) as [ptv | e] eqn:Ept; [| discriminate].
  destruct (column pl actual_class) as [pav | e] eqn:Epa; [| discriminate].
  destruct (broadcast2 _ ptv pav) as [pdv | e] eqn:Epd; [| discriminate].
  destruct (column cl target_class) as [ctv | e] eqn:Ect; [| discriminate].
  destruct (column cl actual_class) as [cav | e] eqn:Eca; [| discriminate].
  destruct (broadcast2 _ ctv cav) as [cdv | e] eqn:Ecd; [| discriminate].
  destruct (broadcast2 _ pav cav) as [deg | e]; [| discriminate].
  destruct (broadcast2 fge cdv pdv) as [mask | e] eqn:Em; [| discriminate].
  destruct (torch_where mask ctv ptv) as [nt | e]; [| discriminate].
  destruct (torch_where mask cav pav) as [na | e]; [| discriminate].
  destruct (reduce_index argmax nt) as [bt | e]; [| discriminate].
  destruct (reduce_index argmin na) as [ba | e]; [| discriminate].
  injection H as <- _ _ _.
  apply column_length in Ept, Epa, Ect, Eca.
  apply broadcast2_ok_length in Epd, Ecd, Em.
  assert (Lpd : length pdv = rows pl).
  { rewrite Epd, Ept, Epa. now destruct (rows pl =? 1). }
  assert (Lcd : length cdv = rows cl).
  { rewrite Ecd, Ect, Eca. now destruct (rows cl =? 1). }
  rewrite Lcd, Lpd in Em.
  exists pl, cl. split; [reflexivity |]. split; [reflexivity | exact Em].
Qed.

Lemma np_where_agents_selects (mask : list bool) (x y a : @ndarray F) :
  dim0 x = dim0 y -> dim1 x = dim1 y -> dim2 x = dim2 y ->
  np_where_agents mask x y = Ok a ->
  forall i j d,
    i < dim0 x -> j < dim1 x -> d < dim2 x ->
    item (buf a) (i, j, d)
    = cast_like (is_int (buf x) && is_int (buf y))
        (if nth (broadcast_pos (length mask) i) mask false
         then item (buf x) (i, j, d) else item (buf y) (i, j, d)).
Proof.
  intros D0 D1 D2 H i j d Hi Hj Hd.
  unfold np_where_agents in H. rewrite <- D0, <- D1, <- D2, !broadcast_dim_same in H.
  cbn [rbind] in H.
  destruct (broadcast_dim (length mask) (dim0 x)) as [n0 | e]; [| discriminate].
  cbn [rbind] in H. injection H as <-. cbn [buf].
  rewrite item_np_where, !is_int_view, !item_view. cbn [fst].
  rewrite (broadcast_pos_inside Hi), (broadcast_pos_inside Hj), (broadcast_pos_inside Hd).
  reflexivity.
Qed.

(** C9.  When a generation step returns, the coordinates have been mutated
    by [generate_children] with rounding and the colours, next, by
    [generate_children] without rounding, both with the crossover
    probability and the weight the step was given; the children are the
    repaired outcomes.  The two arrays have the same agents, two or more,
    and the next-generation arrays have the shapes of the parent arrays.
    One mask selects both arrays: every element of the next-generation
    coordinates and of the next-generation colours of every agent [i] is the
    element of the child when the mask entry of the agent is True and of the
    parent when it is False (promoted as [np.where] does).  With a
    classifier that answers one row of scores per image the mask has one
    entry per agent and the entry of agent [i] is [mask[i]]; otherwise the
    mask has one entry per agent or a single entry, which [np.where]
    broadcasts to every agent. *)
Theorem evolution_step_selects_both_arrays_with_one_mask
  (model : classifier) (img : image) (parent_coords parent_pixel_vals : @ndarray F)
  (target_class actual_class : Z) (cr_prob F_ : F) (w w' : @world F G)
  (update_mask : list bool) (next_gen_coords next_gen_pixel_vals : @ndarray F)
  (stop : bool) (best_agent : option (list nat)) :
  evolution_step model img parent_coords parent_pixel_vals target_class actual_class
    cr_prob F_ w
  = (Ok (update_mask, next_gen_coords, next_gen_pixel_vals, stop, best_agent), w') ->
  exists (mutated_coords mutated_pixel_values : @ndarray F) (w1 w2 : @world F G),
    generate_children parent_coords cr_prob F_ true w = (Ok mutated_coords, w1)
    /\ generate_children parent_pixel_vals cr_prob F_ false w1
       = (Ok mutated_pixel_values, w2)
    /\ 2 <= dim0 parent_coords
    /\ dim0 parent_pixel_vals = dim0 parent_coords
    /\ (dim0 next_gen_coords = dim0 parent_coords
        /\ dim1 next_gen_coords = dim1 parent_coords
        /\ dim2 next_gen_coords = dim2 parent_coords)
    /\ (dim0 next_gen_pixel_vals = dim0 parent_pixel_vals
        /\ dim1 next_gen_pixel_vals = dim1 parent_pixel_vals
        /\ dim2 next_gen_pixel_vals = dim2 parent_pixel_vals)
    /\ (length update_mask = dim0 parent_coords \/ length update_mask = 1)
    /\ ((forall imgs scores, model imgs = Ok scores -> rows scores = bv_size imgs) ->
        length update_mask = dim0 parent_coords
        /\ forall i, i < dim0 parent_coords -> broadcast_pos (length update_mask) i = i)
    /\ (forall i j d,
          i < dim0 parent_coords ->
          j < dim1 parent_coords -> d < dim2 parent_coords ->
          let child_coords := repair_coords (Z.of_nat (height img)) mutated_coords in
          item (buf next_gen_coords) (i, j, d)
          = cast_like (is_int (buf child_coords) && is_int (buf parent_coords))
              (if nth (broadcast_pos (length update_mask) i) update_mask false
               then item (buf child_coords) (i, j, d)
               else item (buf parent_coords) (i, j, d)))
    /\ (forall i j d,
          i < dim0 parent_pixel_vals ->
          j < dim1 parent_pixel_vals -> d < dim2 parent_pixel_vals ->
          let child_pixel_values := repair_pixel_values mutated_pixel_values in
          item (buf next_gen_pixel_vals) (i, j, d)
          = cast_like (is_int (buf child_pixel_values) && is_int (buf parent_pixel_vals))
              (if nth (broadcast_pos (length update_mask) i) update_mask false
               then item (buf child_pixel_values) (i, j, d)
               else item (buf parent_pixel_vals) (i, j, d))).
Proof.
  intros H.
  destruct (evolution_step_ok_inv _ _ _ _ _ _ _ _ _ H)
    as (mc & mv & w1 & w2 & w3 & w4 & pimgs & cimgs & nt & na
        & Hmc & Hmv & Hp & Hc & He & Hs & Hngc & Hngv).
  destruct (generate_children_small_population parent_coords cr_prob F_ true w)
    as (_ & _ & Htwo).
  specialize (Htwo _ _ Hmc).
  destruct (generate_children_ok _ _ _ _ _ Hmc) as (C0 & C1 & C2 & _).
  destruct (generate_children_ok _ _ _ _ _ Hmv) as (V0 & V1 & V2 & _).
  destruct (generate_image_variants_ok_dims _ _ _ _ Hp) as (P0 & P1).
  destruct (@np_where_agents_dims update_mask
              (repair_coords (Z.of_nat (height img)) mc) parent_coords next_gen_coords
              C0 C1 C2 Htwo Hngc)
    as (A0 & A1 & A2 & _ & Am).
  assert (Htwo' : 2 <= dim0 parent_pixel_vals) by lia.
  destruct (@np_where_agents_dims update_mask
              (repair_pixel_values mv) parent_pixel_vals next_gen_pixel_vals
              V0 V1 V2 Htwo' Hngv)
    as (B0 & B1 & B2 & _ & _).
  exists mc, mv, w1, w2.
  split; [exact Hmc |]. split; [exact Hmv |]. split; [exact Htwo |].
  split; [symmetry; exact P0 |].
  split; [repeat split; assumption |]. split; [repeat split; assumption |].
  split; [exact Am |]. split; [| split].
  - intros Hrows.
    destruct (evaluation_step_ok_mask_length _ _ _ _ _ _ He) as (pl & cl & Mp & Mc & Lm).
    apply Hrows in Mp, Mc. cbn [contents bv_size] in Mp, Mc.
    destruct (generate_image_variants_frame img parent_coords parent_pixel_vals w2)
      as (_ & _ & _ & _ & _ & Hpb).
    destruct (generate_image_variants_frame img
                (repair_coords (Z.of_nat (height img)) mc) (repair_pixel_values mv) w3)
      as (_ & _ & _ & _ & _ & Hcb).
    rewrite Hp in Hpb. rewrite Hc in Hcb. cbn [fst] in Hpb, Hcb.
    destruct (Hpb _ eq_refl) as [-> _]. destruct (Hcb _ eq_refl) as [-> _].
    cbn [batch_size] in Mp, Mc.
    assert (Hcl : rows cl = dim0 parent_coords) by (rewrite Mc; exact C0).
    assert (Hlen : length update_mask = dim0 parent_coords).
    { rewrite Lm, Hcl, Mp. now destruct (dim0 parent_coords =? 1). }
    split; [exact Hlen |].
    intros i Hi. unfold broadcast_pos. rewrite Hlen.
    destruct (Nat.eqb_spec (dim0 parent_coords) 1); [lia | reflexivity].
  - intros i j d Hi Hj Hd. cbv zeta.
    apply (np_where_agents_selects update_mask (repair_coords (Z.of_nat (height img)) mc)
             parent_coords); auto;
      cbn [repair_coords with_buf dim0 dim1 dim2]; congruence.
  - intros i j d Hi Hj Hd. cbv zeta.
    apply (np_where_agents_selects update_mask (repair_pixel_values mv) parent_pixel_vals);
      auto; cbn [repair_pixel_values with_buf dim0 dim1 dim2]; congruence.
Qed.

End MoreTheory.

(** * The properties on concrete runs *)

Section Concrete.

Import PrimFloat Binary64 Replay Examples.

(** *** Fitness evaluator *)

(** Parent divergences [-0.25; 0.25; 0] against child divergences
    [0.25; 0; 0]: the first child wins, the second loses, the third ties and
    wins. *)
Example evaluation_step_scored :
  fst (evaluation_step two_pixel_model scored_parents scored_children 1 0 scored_world)
  = Ok ([true; false; true], [0.75; 0.5; 0.25]%float, [0.5; 0.25; 0.25]%float)%float.
Proof. vm_compute. reflexivity. Qed.

Lemma evaluation_step_mask_witness :
  exists update_mask new_target_logits new_actual_logits w',
    evaluation_step two_pixel_model scored_parents scored_children 1 0 scored_world
    = (Ok (update_mask, new_target_logits, new_actual_logits), w')
    /\ length update_mask = 3
    /\ (nth 2 update_mask false = true <-> fge 0 0 = true)%float.
Proof.
  destruct (@evaluation_step_mask_iff_child_ge_parent _ _ _
              two_pixel_model scored_parents scored_children 1 0 scored_world
              (scores_of two_pixel_model (contents scored_world scored_parents))
              (scores_of two_pixel_model (contents scored_world scored_children))
              1 0 1 0)
    as (m & nt & na & w' & Hrun & Hlen & Hiff & _);
    try reflexivity; [vm_compute; lia |].
  exists m, nt, na, w'. split; [exact Hrun |]. split; [exact Hlen |].
  apply (Hiff 2). vm_compute. lia.
Defined.

(** C8, the claim as stated fails: a parent batch of one image and a child
    batch of two images have different shapes, and the evaluator returns a
    mask instead of raising. *)
Lemma evaluation_step_accepts_unequal_batches :
  batch_size (grey_batch 1) <> batch_size (grey_batch 2)
  /\ fst (evaluation_step two_pixel_model (grey_batch 1) (grey_batch 2) 1 0
            (grey_world empty_tape))
     = Ok ([true; true], [0.25; 0.25]%float, [0.25; 0.25]%float)%float.
Proof. split; [discriminate | vm_compute; reflexivity]. Qed.

(** Batches of two and of three images: the broadcasting error arrives after
    both classifier queries.  One image against three: a mask of three
    entries.  One image against none: the error of a reduction over
    nothing. *)
Lemma evaluation_step_queries_before_broadcast_witness :
  (fst (evaluation_step two_pixel_model (grey_batch 2) (grey_batch 3) 1 0
          (grey_world empty_tape)) = Raise BroadcastMismatch
   /\ queries (snd (evaluation_step two_pixel_model (grey_batch 2) (grey_batch 3) 1 0
                      (grey_world empty_tape)))
      = [contents (grey_world empty_tape) (grey_batch 2);
         contents (grey_world empty_tape) (grey_batch 3)])
  /\ (exists update_mask new_target_logits new_actual_logits,
        fst (evaluation_step two_pixel_model (grey_batch 1) (grey_batch 3) 1 0
               (grey_world empty_tape))
        = Ok (update_mask, new_target_logits, new_actual_logits)
        /\ length update_mask = 3)
  /\ fst (evaluation_step two_pixel_model (grey_batch 1) (grey_batch 0) 1 0
            (grey_world empty_tape)) = Raise EmptyReduction.
Proof.
  split; [| split].
  - destruct (evaluation_step_queries_before_broadcast
                two_pixel_model (grey_batch 2) (grey_batch 3) 1 0 (grey_world empty_tape))
      as [_ H].
    destruct (H (scores_of two_pixel_model (contents (grey_world empty_tape) (grey_batch 2)))
                (scores_of two_pixel_model (contents (grey_world empty_tape) (grey_batch 3)))
                1 0 1 0 eq_refl eq_refl eq_refl eq_refl eq_refl eq_refl)
      as (Hq & Hraise & _).
    split; [apply Hraise; reflexivity | exact Hq].
  - destruct (evaluation_step_queries_before_broadcast
                two_pixel_model (grey_batch 1) (grey_batch 3) 1 0 (grey_world empty_tape))
      as [_ H].
    destruct (H (scores_of two_pixel_model (contents (grey_world empty_tape) (grey_batch 1)))
                (scores_of two_pixel_model (contents (grey_world empty_tape) (grey_batch 3)))
                1 0 1 0 eq_refl eq_refl eq_refl eq_refl eq_refl eq_refl)
      as (_ & _ & _ & Hok & _).
    apply Hok; [reflexivity | cbn; lia | cbn; lia].
  - destruct (evaluation_step_queries_before_broadcast
                two_pixel_model (grey_batch 1) (grey_batch 0) 1 0 (grey_world empty_tape))
      as [_ H].
    destruct (H (scores_of two_pixel_model (contents (grey_world empty_tape) (grey_batch 1)))
                (scores_of two_pixel_model (contents (grey_world empty_tape) (grey_batch 0)))
                1 0 1 0 eq_refl eq_refl eq_refl eq_refl eq_refl eq_refl)
      as (_ & _ & Hempty & _).
    apply Hempty. split; [reflexivity | right; reflexivity].
Defined.

(** Subtraction on float32 scores rounds to float32: [1 - 2^-25] is [1]
    there, and is kept in float64. *)
Example tensor_sub_in_the_element_type :
  tensor_sub Float32 1%float 0x1p-25%float = 1%float
  /\ tensor_sub Float64 1%float 0x1p-25%float = 0x1.ffffffp-1%float
  /\ tensor_sub Float32 0.75%float 0.5%float = 0.25%float.
Proof. vm_compute. repeat split. Qed.

(** The reductions take a NaN for the extreme value, as torch does. *)
Example argmax_argmin_take_nan :
  argmax [0.25; nan; 0.5; 0.75]%float = 1
  /\ argmin [0.25; nan; 0.5; 0.125]%float = 1
  /\ argmax [0.25; 0.75; 0.5; 0.75]%float = 1
  /\ argmin [0.25; 0.125; 0.5; 0.125]%float = 1.
Proof. vm_compute. repeat split. Qed.

(** *** Convergence check *)

Example stopping_criterion_one_winner :
  stopping_criterion [0.75; 0.25]%float [0.5; 0.5]%float = Ok (true, Some [0]).
Proof. vm_compute. reflexivity. Qed.

Example stopping_criterion_tie :
  stopping_criterion [0.25]%float [0.25]%float = Ok (false, None).
Proof. vm_compute. reflexivity. Qed.

Lemma stopping_criterion_strict_success_witness :
  length [0.75; 0.25; 0.5]%float = length [0.5; 0.5; 0.5]%float
  /\ exists stop best_agent,
       stopping_criterion [0.75; 0.25; 0.5]%float [0.5; 0.5; 0.5]%float = Ok (stop, best_agent)
       /\ (forall winners, best_agent = Some winners -> ~ In 2 winners).
Proof.
  split; [reflexivity |].
  destruct (stopping_criterion_strict_success (FL := binary64_laws)
              [0.75; 0.25; 0.5]%float [0.5; 0.5; 0.5]%float eq_refl)
    as (stop & best & Hrun & _ & _ & _ & Htie & _).
  exists stop, best. split; [exact Hrun |].
  apply (Htie 2). reflexivity.
Defined.

(** *** Boundary repair *)

(** C3, the claim as stated fails: in an image of size 5 the coordinate
    [-10] is negative, yet it is not replaced by [10] but by [-6], and the
    colour [-1.5] is not replaced by [1.5] but by [-0.5]: what the first
    rule produces is reflected again by the second. *)
Lemma boundary_repair_reflects_twice :
  ((-10 < 0)%Z
   /\ item (buf (repair_coords 5 (int_array 1 1 2 [[[-10; 3]]]%Z))) (0, 0, 0) = SInt (-6)
   /\ SInt (F := float) (-6) <> SInt (- (-10)))
  /\ (ltb (-1.5) 0 = true
      /\ item (buf (repair_pixel_values (float_array 1 1 3 [[[-1.5; 0.5; 0.5]]]%float)))
           (0, 0, 0) = SFloat (-0.5)%float
      /\ SFloat (-0.5)%float <> SFloat (- (-1.5))%float).
Proof.
  repeat split; try reflexivity; discriminate.
Qed.

Lemma boundary_repair_rules_in_sequence_witness :
  (- 2 ^ 63 < -10 < 2 ^ 63)%Z
  /\ item (buf (repair_coords 5 (int_array 1 1 2 [[[-10; 3]]]%Z))) (0, 0, 0)
     = SInt (5 - 1 + -10)
  /\ item (buf (repair_pixel_values (float_array 1 1 3 [[[-1.5; 0.5; 0.5]]]%float)))
       (0, 0, 0) = SFloat (1 - - -1.5)%float.
Proof.
  assert (Hv : (- 2 ^ 63 < -10 < 2 ^ 63)%Z) by lia.
  split; [exact Hv |].
  pose proof (@boundary_repair_rules_in_sequence float binary64 5 1 1 2
                (fun ijd : index3 =>
                   let '(i, j, k) := ijd in nth k (nth j (nth i [[[-10; 3]]] []) []) 0)%Z
                (fun ijd : index3 =>
                   let '(i, j, k) := ijd in
                   nth k (nth j (nth i [[[-1.5; 0.5; 0.5]]]%float []) []) zero)
                (0, 0, 0) Hv)
    as (_ & _ & _ & Htwice & _ & _ & _ & Hcolor).
  split.
  - apply Htwice. cbn. lia.
  - apply Hcolor; reflexivity.
Defined.

(** *** Mutation engine *)

(** With crossover probability 0.75 and weight 0.5: agent 0 draws agents
    1, 2, 1 and [0.5 < 0.75], so its child is the rounded proposal; agent 1
    draws [0.9375] and keeps its own unit; agent 2 draws agents 0, 0, 1 and
    [0.125]. *)
Example generate_children_coords :
  match generate_children example_coords 0.75%float 0.5%float true (grey_world example_tape) with
  | (Ok children, _) => dump children
  | (Raise _, _) => []
  end = [[[SInt 3; SInt 2]]; [[SInt 2; SInt 3]]; [[SInt (-1); SInt (-2)]]].
Proof. vm_compute. reflexivity. Qed.

Lemma sampled_parents_exclude_self_witness :
  0 < dim0 example_coords
  /\ fst (sample_parents example_coords 0 (grey_world duplicate_tape))
     = Ok (row example_coords 1, row example_coords 2, row example_coords 2)
  /\ 1 <> 0 /\ 2 <> 0.
Proof.
  assert (H : 0 < dim0 example_coords) by (cbn; lia).
  split; [exact H |].
  destruct (sampled_parents_exclude_self example_coords (grey_world duplicate_tape) H)
    as (_ & _ & _ & Hdraw).
  destruct (Hdraw 0 1 1 (snd (choice3 2 duplicate_tape))) as (Hs & Ha & Hb & _);
    try reflexivity; try (cbn; lia).
  rewrite Hs. repeat split; assumption.
Defined.

Lemma crossover_mask_per_pixel_unit_witness :
  exists children w',
    generate_children example_coords 0.75%float 0.5%float true (grey_world example_tape)
    = (Ok children, w')
    /\ dim0 children = 3 /\ dim1 children = 1 /\ dim2 children = 2.
Proof.
  destruct (generate_children example_coords 0.75%float 0.5%float true (grey_world example_tape))
    as [[children | e] w'] eqn:Hrun.
  - exists children, w'. split; [reflexivity |].
    destruct (crossover_mask_per_pixel_unit _ _ _ _ _ Hrun) as (D0 & D1 & D2 & _).
    rewrite D0, D1, D2. repeat split.
  - exfalso.
    assert (Hok : is_ok (fst (generate_children example_coords 0.75%float 0.5%float true
                                (grey_world example_tape))) = true)
      by (vm_compute; reflexivity).
    rewrite Hrun in Hok. discriminate Hok.
Defined.

(** *** Image compositor *)

(** C6, the claim as stated fails: the agent lists pixel [(1, 1)], inside
    the image, twice, first with red value 0.5 and then with red value 0.75;
    the variant holds 0.75 there, not the colour of the first listed unit. *)
Lemma image_variants_last_duplicate_wins :
  let outcome :=
    generate_image_variants grey_image twice_coords twice_colors (grey_world empty_tape) in
  is_ok (fst outcome) = true
  /\ item (buf twice_coords) (0, 0, 0) = SInt 1
  /\ item (buf twice_coords) (0, 0, 1) = SInt 1
  /\ item (buf twice_colors) (0, 0, 0) = SFloat 0.5%float
  /\ cell (tensors (snd outcome)) 1 [0; 0; 1; 1] = 0.75%float
  /\ PrimFloat.eqb 0.75 0.5 = false.
Proof. vm_compute. repeat split. Qed.

(** A colour that is not a float32 is stored rounded in a float32 image and
    as it is in a float64 image. *)
Example image_variants_convert_colors :
  cell (tensors (snd (generate_image_variants grey_image (single_coords 1 2) tenth_color
                        (grey_world empty_tape)))) 1 [0; 0; 1; 2]
  = 0x1.99999ap-4%float
  /\ cell (tensors (snd (generate_image_variants grey_image64 (single_coords 1 2)
                           tenth_color (grey_world empty_tape)))) 1 [0; 0; 1; 2]
     = 0x1.999999999999ap-4%float
  /\ PrimFloat.eqb 0x1.99999ap-4 0x1.999999999999ap-4 = false.
Proof. vm_compute. repeat split. Qed.

Lemma image_variants_overwrite_listed_pixels_witness :
  exists new_imgs w',
    generate_image_variants grey_image example_coords example_colors
      (grey_world empty_tape) = (Ok new_imgs, w')
    /\ cell (tensors w') (img_ptr grey_image) = cell (tensors (grey_world empty_tape)) 0
    /\ cell (tensors w') (batch_ptr new_imgs) [1; 0; 2; 3] = 0.5%float
    /\ cell (tensors w') (batch_ptr new_imgs) [1; 0; 0; 0] = 0.25%float.
Proof.
  destruct (@image_variants_overwrite_listed_pixels _ _ _ grey_image
              example_coords example_colors (as_int (buf example_coords))
              (grey_world empty_tape))
    as (new_imgs & w' & Hrun & _ & _ & _ & _ & _ & _ & _ & Hbase & Hrest & Hlisted);
    try reflexivity; try (cbn; lia).
  { intros i j Hi Hj. cbn in Hi, Hj.
    destruct i as [| [| [| i]]]; try lia; destruct j as [| j]; try lia; cbn; lia. }
  exists new_imgs, w'. split; [exact Hrun |]. split; [exact Hbase |]. split.
  - destruct (Hlisted 1 0 0) as [H _]; try (cbn; lia).
    refine (eq_trans H _). vm_compute. reflexivity.
  - rewrite (Hrest 1 0 0 0); [reflexivity | cbn; lia |].
    intros j Hj. cbn in Hj. destruct j as [| j]; [cbn; lia | lia].
Defined.

Lemma image_variants_assert_matching_counts_witness :
  dim0 example_coords <> dim0 two_colors
  /\ generate_image_variants grey_image example_coords two_colors (grey_world empty_tape)
     = (Raise ShapeAssertion, grey_world empty_tape).
Proof.
  assert (H : dim0 example_coords <> dim0 two_colors) by (cbn; lia).
  split; [exact H |].
  apply (image_variants_assert_matching_counts grey_image example_coords two_colors
           (grey_world empty_tape)).
  left. exact H.
Defined.

(** C10, the claim as stated fails: in an image of size 5 the coordinate 10
    is repaired to [-6], which is negative, and the compositor raises the
    index error for it.  A generation step with weight 1.5 gets there from
    parents inside the image: child 1 is proposed at [4 + 1.5 * (4 - 0)]. *)
Lemma repaired_coordinate_below_minus_size_raises :
  item (buf (repair_coords 5 (single_coords 10 2))) (0, 0, 0) = SInt (-6)
  /\ fst (generate_image_variants grey_image (repair_coords 5 (single_coords 10 2))
            single_color (grey_world empty_tape))
     = Raise IndexOutOfRange
  /\ fst (evolution_step two_pixel_model grey_image example_coords example_colors 1 0
            0.75%float 1.5%float (grey_world far_tape))
     = Raise IndexOutOfRange.
Proof. vm_compute. repeat split. Qed.

(** The coordinate 6 is repaired to [-2], and the unit is written in row
    [5 - 2]. *)
Lemma negative_coordinates_index_from_the_end_witness :
  item (buf (repair_coords 5 (single_coords 6 2))) (0, 0, 0) = SInt (-2)
  /\ exists new_imgs w',
       generate_image_variants grey_image (repair_coords 5 (single_coords 6 2))
         single_color (grey_world empty_tape) = (Ok new_imgs, w')
       /\ cell (tensors w') (batch_ptr new_imgs) [0; 0; 5 - 2; 2] = 0.5%float.
Proof.
  split; [reflexivity |].
  destruct (@negative_coordinates_index_from_the_end _ _ _ grey_image
              (repair_coords 5 (single_coords 6 2)) single_color
              (as_int (buf (repair_coords 5 (single_coords 6 2))))
              (grey_world empty_tape))
    as (Hinside & _ & _); try reflexivity; try (cbn; lia).
  destruct Hinside as (new_imgs & w' & Hrun & Hwrite).
  { intros i j Hi Hj. cbn in Hi, Hj.
    destruct i as [| i]; try lia; destruct j as [| j]; try lia. cbn. lia. }
  exists new_imgs, w'. split; [exact Hrun |].
  refine (eq_trans (Hwrite 0 0 0 3 2 _ _ _ _ _ _) _);
    try reflexivity; try (cbn; lia).
Defined.

(** *** Generation orchestrator *)

Example evolution_step_example :
  match evolution_step two_pixel_model grey_image example_coords example_colors 1 0
          0.75%float 0.5%float (grey_world example_tape) with
  | (Ok (update_mask, next_gen_coords, next_gen_pixel_vals, stop, best_agent), _) =>
      Some (update_mask, dump next_gen_coords, dump next_gen_pixel_vals, stop, best_agent)
  | (Raise _, _) => None
  end
  = Some ([true; false; true],
          [[[SInt 3; SInt 2]]; [[SInt 2; SInt 3]]; [[SInt 1; SInt 2]]],
          [[[SFloat 0.625; SFloat 0.375; SFloat 0.75]];
           [[SFloat 0.5; SFloat 0.5; SFloat 0.5]];
           [[SFloat 0.75; SFloat 0.25; SFloat 1]]]%float,
          true, Some [1]).
Proof. vm_compute. reflexivity. Qed.

Lemma two_pixel_model_row_per_image (imgs : batch_value) (scores : logits) :
  two_pixel_model imgs = Ok scores -> rows scores = bv_size imgs.
Proof. intros [= <-]. reflexivity. Qed.

(** A complete step on three agents: the mask has three entries and selects,
    agent by agent, both next-generation arrays. *)
Lemma evolution_step_selects_both_arrays_with_one_mask_witness :
  exists update_mask next_gen_coords next_gen_pixel_vals stop best_agent w',
    evolution_step two_pixel_model grey_image example_coords example_colors 1 0
      0.75%float 0.5%float (grey_world example_tape)
    = (Ok (update_mask, next_gen_coords, next_gen_pixel_vals, stop, best_agent), w')
    /\ length update_mask = 3
    /\ dim0 next_gen_coords = 3
    /\ dim0 next_gen_pixel_vals = 3
    /\ exists mutated_coords mutated_pixel_values w1 w2,
         generate_children example_coords 0.75%float 0.5%float true
           (grey_world example_tape) = (Ok mutated_coords, w1)
         /\ generate_children example_colors 0.75%float 0.5%float false w1
            = (Ok mutated_pixel_values, w2)
         /\ (forall i j d, i < 3 -> j < 1 -> d < 2 ->
               item (buf next_gen_coords) (i, j, d)
               = cast_like (is_int (buf (repair_coords 5 mutated_coords)) && true)
                   (if nth i update_mask false
                    then item (buf (repair_coords 5 mutated_coords)) (i, j, d)
                    else item (buf example_coords) (i, j, d)))
         /\ (forall i j d, i < 3 -> j < 1 -> d < 3 ->
               item (buf next_gen_pixel_vals) (i, j, d)
               = cast_like (is_int (buf (repair_pixel_values mutated_pixel_values)) && false)
                   (if nth i update_mask false
                    then item (buf (repair_pixel_values mutated_pixel_values)) (i, j, d)
                    else item (buf example_colors) (i, j, d))).
Proof.
  destruct (evolution_step two_pixel_model grey_image example_coords example_colors 1 0
              0.75%float 0.5%float (grey_world example_tape))
    as [[[[[[m c] v] s] b] | e] w'] eqn:Hrun.
  - exists m, c, v, s, b, w'. split; [reflexivity |].
    destruct (evolution_step_selects_both_arrays_with_one_mask _ _ _ _ _ _ _ _ _ Hrun)
      as (mc & mv & w1 & w2 & Hmc & Hmv & _ & _ & (Hc0 & _) & (Hv0 & _) & _
          & Hlen & Hcoords & Hvals).
    destruct (Hlen two_pixel_model_row_per_image) as [Hl Hpos].
    split; [exact Hl |]. split; [exact Hc0 |]. split; [exact Hv0 |].
    exists mc, mv, w1, w2. split; [exact Hmc |]. split; [exact Hmv |]. split.
    + intros i j d Hi Hj Hd.
      pose proof (Hcoords i j d Hi Hj Hd) as Hx. cbv zeta in Hx.
      rewrite (Hpos i Hi) in Hx. exact Hx.
    + intros i j d Hi Hj Hd.
      pose proof (Hvals i j d Hi Hj Hd) as Hx. cbv zeta in Hx.
      rewrite (Hpos i Hi) in Hx. exact Hx.
  - exfalso.
    assert (Hok : is_ok (fst (evolution_step two_pixel_model grey_image example_coords
                                example_colors 1 0 0.75%float 0.5%float
                                (grey_world example_tape))) = true)
      by (vm_compute; reflexivity).
    rewrite Hrun in Hok. discriminate Hok.
Defined.

End Concrete.

(** * The further properties on concrete runs *)

Section MoreConcrete.

Import PrimFloat Binary64 Replay Examples.

(** The replayed generator draws pool positions below the pool size. *)
Lemma replay_draws_in_pool (n : nat) : 0 < n -> draws_in_pool (RS := replay) n.
Proof.
  intros Hn g. cbn. repeat split; apply Nat.mod_upper_bound; lia.
Qed.

(** *** Mutation engine *)

Lemma generate_children_needs_two_agents_witness :
  generate_children (single_coords 1 2) 0.75%float 0.5%float true (grey_world example_tape)
  = (Raise EmptyPool, grey_world example_tape).
Proof.
  apply (generate_children_needs_two_agents
           (single_coords 1 2) 0.75%float 0.5%float true (grey_world example_tape)).
  reflexivity.
Defined.

Lemma generate_children_returns_the_parents_shape_witness :
  exists children w',
    generate_children example_coords 0.75%float 0.5%float true (grey_world example_tape)
    = (Ok children, w')
    /\ dim0 children = 3 /\ dim1 children = 1 /\ dim2 children = 2
    /\ is_int (buf children) = true.
Proof.
  apply (generate_children_returns_the_parents_shape
           example_coords 0.75%float 0.5%float true (grey_world example_tape)).
  - cbn. lia.
  - apply replay_draws_in_pool. cbn. lia.
Defined.

(** *** Compositor *)

Lemma generate_image_variants_twice_witness :
  exists first w1,
    generate_image_variants grey_image example_coords example_colors (grey_world empty_tape)
    = (Ok first, w1)
    /\ cell (tensors (snd (generate_image_variants grey_image other_coords other_colors w1)))
         (batch_ptr first)
       = cell (tensors w1) (batch_ptr first)
    /\ forall second,
         fst (generate_image_variants grey_image other_coords other_colors w1) = Ok second ->
         batch_ptr second <> batch_ptr first.
Proof.
  destruct (generate_image_variants grey_image example_coords example_colors
              (grey_world empty_tape)) as [[first | e] w1] eqn:Hrun.
  - exists first, w1. split; [reflexivity |].
    exact (@generate_image_variants_twice_do_not_interfere _ _ _
             grey_image grey_image example_coords example_colors
             other_coords other_colors (grey_world empty_tape) w1 first Hrun).
  - exfalso.
    assert (H : is_ok (fst (generate_image_variants grey_image example_coords
                              example_colors (grey_world empty_tape))) = true)
      by (vm_compute; reflexivity).
    rewrite Hrun in H. discriminate H.
Defined.

Lemma generate_image_variants_rejects_float_coordinates_witness :
  fst (generate_image_variants grey_image fractional_coords single_color
         (grey_world empty_tape)) = Raise NonIntegerIndex.
Proof.
  apply (generate_image_variants_rejects_unusable_coordinates
           grey_image fractional_coords single_color (grey_world empty_tape));
    try reflexivity; cbn; lia.
Defined.

Lemma generate_image_variants_one_entry_color_witness :
  exists new_imgs w',
    generate_image_variants grey_image (single_coords 1 2) one_entry_color
      (grey_world empty_tape) = (Ok new_imgs, w')
    /\ cell (tensors w') (batch_ptr new_imgs) [0; 2; 1; 2] = 0.75%float.
Proof.
  destruct (@generate_image_variants_broadcasts_one_entry_colors _ _ _
              grey_image (single_coords 1 2) one_entry_color
              (fun ijd : index3 =>
                 let '(i, j, k) := ijd in nth k (nth j (nth i [[[1; 2]]]%Z []) []) 0%Z)
              (grey_world empty_tape))
    as [_ H]; try reflexivity.
  - intros i j Hi Hj. cbn in Hi, Hj.
    assert (i = 0) as -> by lia. assert (j = 0) as -> by lia.
    exists 1, 2. split; reflexivity.
  - destruct (H eq_refl) as (new_imgs & w' & Hrun & Hcell).
    exists new_imgs, w'. split; [exact Hrun |].
    destruct (Hcell 0 0 2 1 2) as [Hc _]; try reflexivity; try (cbn; lia).
    refine (eq_trans Hc _). vm_compute. reflexivity.
Defined.

Lemma generate_image_variants_agents_are_independent_witness :
  exists new_imgs w1 new_imgs' w1',
    generate_image_variants grey_image example_coords example_colors (grey_world empty_tape)
    = (Ok new_imgs, w1)
    /\ generate_image_variants grey_image other_coords other_colors (grey_world empty_tape)
       = (Ok new_imgs', w1')
    /\ forall c x y,
         cell (tensors w1) (batch_ptr new_imgs) [0; c; x; y]
         = cell (tensors w1') (batch_ptr new_imgs') [0; c; x; y].
Proof.
  apply (@generate_image_variants_agents_are_independent _ _ _
           grey_image example_coords example_colors other_coords other_colors
           (fun ijd : index3 =>
              let '(i, j, k) := ijd in
              nth k (nth j (nth i [[[0; 0]]; [[2; 3]]; [[4; 1]]]%Z []) []) 0%Z)
           (fun ijd : index3 =>
              let '(i, j, k) := ijd in
              nth k (nth j (nth i [[[0; 0]]; [[1; 1]]; [[3; 3]]]%Z []) []) 0%Z)
           (grey_world empty_tape) 0);
    try reflexivity; try (cbn; lia).
  - intros a j Ha Hj. cbn in Ha, Hj. assert (j = 0) as -> by lia.
    destruct a as [| [| [| a]]]; [| | | lia].
    + exists 0, 0. split; reflexivity.
    + exists 2, 3. split; reflexivity.
    + exists 4, 1. split; reflexivity.
  - intros a j Ha Hj. cbn in Ha, Hj. assert (j = 0) as -> by lia.
    destruct a as [| [| [| a]]]; [| | | lia].
    + exists 0, 0. split; reflexivity.
    + exists 1, 1. split; reflexivity.
    + exists 3, 3. split; reflexivity.
Defined.

(** *** Boundary repair *)

(** Coordinate [7] in an image of height 5 is repaired to [-3], a valid
    index from the end but not a position counted from the front. *)
Lemma repaired_coordinate_range_witness :
  exists r,
    item (F := float) (buf (repair_coords 5 (single_coords 7 2))) (0, 0, 0) = SInt r
    /\ (r <= 4)%Z
    /\ ((0 <= r)%Z <-> (- 4 <= 7 <= 4)%Z)
    /\ ((exists x, normalize_index 5 r = Ok x) <-> (- 9 <= 7 <= 9)%Z).
Proof.
  destruct (@repaired_coordinate_range float binary64 5 1 1 2
              (fun ijd : index3 =>
                 let '(i, j, k) := ijd in nth k (nth j (nth i [[[7; 2]]]%Z []) []) 0%Z)
              (0, 0, 0))
    as (r & Hitem & Hle & Hpos & Hidx & _).
  - lia.
  - cbn. lia.
  - exists r. split; [exact Hitem |]. split; [exact Hle |].
    split; [exact Hpos | exact Hidx].
Defined.

(** *** Fitness evaluator *)

Lemma evaluation_step_propagates_classifier_failures_witness :
  evaluation_step failing_model scored_parents scored_children 1 0 scored_world
  = (Raise ClassifierFailure,
     {| tensors := tensors scored_world; rng := rng scored_world;
        queries := queries scored_world ++ [contents scored_world scored_parents];
        stdout := stdout scored_world |}).
Proof.
  apply (evaluation_step_propagates_classifier_failures
           failing_model scored_parents scored_children 1 0 scored_world ClassifierFailure).
  reflexivity.
Defined.

Lemma evaluation_step_scores_follow_the_mask_witness :
  exists update_mask new_target_logits new_actual_logits w',
    evaluation_step two_pixel_model scored_parents scored_children 1 0 scored_world
    = (Ok (update_mask, new_target_logits, new_actual_logits), w')
    /\ length new_target_logits = 3
    /\ nth 1 new_target_logits zero
       = (if nth 1 update_mask false
          then logit (scores_of two_pixel_model (contents scored_world scored_children)) 1 1
          else logit (scores_of two_pixel_model (contents scored_world scored_parents)) 1 1).
Proof.
  destruct (@evaluation_step_scores_follow_the_mask _ _ _
              two_pixel_model scored_parents scored_children 1 0 scored_world
              (scores_of two_pixel_model (contents scored_world scored_parents))
              (scores_of two_pixel_model (contents scored_world scored_children))
              1 0 1 0)
    as (m & nt & na & w' & Hrun & Hlt & _ & Hsel);
    try reflexivity; [vm_compute; lia |].
  exists m, nt, na, w'. split; [exact Hrun |]. split; [exact Hlt |].
  apply (Hsel 1). vm_compute. lia.
Defined.

Lemma evaluation_step_checks_class_indices_late_witness :
  evaluation_step two_pixel_model scored_parents scored_children 2 0 scored_world
  = (Raise IndexOutOfRange,
     {| tensors := tensors scored_world; rng := rng scored_world;
        queries := (queries scored_world ++ [contents scored_world scored_parents])
                   ++ [contents scored_world scored_children];
        stdout := stdout scored_world |}).
Proof.
  apply (@evaluation_step_checks_class_indices_late _ _ _
           two_pixel_model scored_parents scored_children 2 0 scored_world
           (scores_of two_pixel_model (contents scored_world scored_parents))
           (scores_of two_pixel_model (contents scored_world scored_children)));
    try reflexivity.
  left. reflexivity.
Defined.

Lemma evaluation_step_rejects_empty_batches_witness :
  evaluation_step silent_model scored_parents scored_children 1 0 scored_world
  = (Raise EmptyReduction,
     {| tensors := tensors scored_world; rng := rng scored_world;
        queries := (queries scored_world ++ [contents scored_world scored_parents])
                   ++ [contents scored_world scored_children];
        stdout := stdout scored_world |}).
Proof.
  apply (@evaluation_step_rejects_empty_batches _ _ _
           silent_model scored_parents scored_children 1 0 scored_world
           (scores_of silent_model (contents scored_world scored_parents))
           (scores_of silent_model (contents scored_world scored_children))
           1 0 1 0);
    reflexivity.
Defined.

Lemma evaluation_step_scores_fit_witness :
  exists update_mask new_target_logits new_actual_logits w',
    evaluation_step two_pixel_model scored_parents scored_children 1 0 scored_world
    = (Ok (update_mask, new_target_logits, new_actual_logits), w')
    /\ length new_target_logits = length update_mask
    /\ exists verdict, stopping_criterion new_target_logits new_actual_logits = Ok verdict.
Proof.
  destruct (evaluation_step two_pixel_model scored_parents scored_children 1 0 scored_world)
    as [[[[m nt] na] | e] w'] eqn:Hrun.
  - exists m, nt, na, w'. split; [reflexivity |].
    destruct (evaluation_step_scores_fit_the_convergence_check
                two_pixel_model scored_parents scored_children 1 0 scored_world Hrun)
      as (_ & Hnt & _ & Hstop).
    split; [exact Hnt | exact Hstop].
  - exfalso.
    assert (H : is_ok (fst (evaluation_step two_pixel_model scored_parents scored_children
                              1 0 scored_world)) = true)
      by (vm_compute; reflexivity).
    rewrite Hrun in H. discriminate H.
Defined.

(** *** Convergence check *)

Lemma stopping_criterion_length_clash_witness :
  stopping_criterion [0.75; 0.25]%float [0.5; 0.5; 0.5]%float = Raise BroadcastMismatch.
Proof.
  apply (stopping_criterion_raises_only_on_length_clash
           [0.75; 0.25]%float [0.5; 0.5; 0.5]%float).
  reflexivity.
Defined.

(** *** Generation orchestrator *)

Lemma evolution_step_needs_two_agents_witness :
  evolution_step two_pixel_model grey_image (single_coords 1 2) single_color 1 0
    0.75%float 0.5%float (grey_world example_tape)
  = (Raise EmptyPool, grey_world example_tape).
Proof.
  apply (evolution_step_needs_two_agents
           two_pixel_model grey_image (single_coords 1 2) single_color 1 0
           0.75%float 0.5%float (grey_world example_tape)).
  reflexivity.
Defined.

Lemma evolution_step_example_returns :
  is_ok (fst (evolution_step two_pixel_model grey_image example_coords example_colors 1 0
                0.75%float 0.5%float (grey_world example_tape))) = true.
Proof. vm_compute. reflexivity. Qed.

Lemma evolution_step_keeps_the_population_shape_witness :
  exists update_mask next_gen_coords next_gen_pixel_vals stop best_agent w',
    evolution_step two_pixel_model grey_image example_coords example_colors 1 0
      0.75%float 0.5%float (grey_world example_tape)
    = (Ok (update_mask, next_gen_coords, next_gen_pixel_vals, stop, best_agent), w')
    /\ (dim0 next_gen_coords = 3 /\ dim1 next_gen_coords = 1 /\ dim2 next_gen_coords = 2)
    /\ (dim0 next_gen_pixel_vals = 3 /\ dim1 next_gen_pixel_vals = 1
        /\ dim2 next_gen_pixel_vals = 3)
    /\ is_int (buf next_gen_coords) = true
    /\ is_int (buf next_gen_pixel_vals) = false.
Proof.
  destruct (evolution_step two_pixel_model grey_image example_coords example_colors 1 0
              0.75%float 0.5%float (grey_world example_tape))
    as [[[[[[m c] v] stop] best] | e] w'] eqn:Hrun.
  - exists m, c, v, stop, best, w'. split; [reflexivity |].
    destruct (evolution_step_keeps_the_population_shape _ _ _ _ _ _ _ _ _ Hrun)
      as (_ & _ & _ & Hc & Hv & Hic & Hiv & _).
    split; [exact Hc |]. split; [exact Hv |]. split; [exact Hic | exact Hiv].
  - exfalso. pose proof evolution_step_example_returns as H.
    rewrite Hrun in H. discriminate H.
Defined.

Lemma evolution_step_queries_the_classifier_twice_witness :
  exists update_mask next_gen_coords next_gen_pixel_vals stop best_agent w',
    evolution_step two_pixel_model grey_image example_coords example_colors 1 0
      0.75%float 0.5%float (grey_world example_tape)
    = (Ok (update_mask, next_gen_coords, next_gen_pixel_vals, stop, best_agent), w')
    /\ next (tensors w') = 3
    /\ length (queries w') = 2
    /\ length (stdout w') = 4.
Proof.
  destruct (evolution_step two_pixel_model grey_image example_coords example_colors 1 0
              0.75%float 0.5%float (grey_world example_tape))
    as [[[[[[m c] v] stop] best] | e] w'] eqn:Hrun.
  - exists m, c, v, stop, best, w'. split; [reflexivity |].
    destruct (evolution_step_queries_the_classifier_twice _ _ _ _ _ _ _ _ _ Hrun)
      as (Hn & Hq & x1 & x2 & x3 & x4 & Hs).
    split; [exact Hn |]. split; [rewrite Hq; reflexivity | rewrite Hs; reflexivity].
  - exfalso. pose proof evolution_step_example_returns as H.
    rewrite Hrun in H. discriminate H.
Defined.

Lemma evolution_step_reports_winners_witness :
  exists update_mask next_gen_coords next_gen_pixel_vals stop best_agent w',
    evolution_step two_pixel_model grey_image example_coords example_colors 1 0
      0.75%float 0.5%float (grey_world example_tape)
    = (Ok (update_mask, next_gen_coords, next_gen_pixel_vals, stop, best_agent), w')
    /\ (stop = false -> best_agent = None)
    /\ (stop = true ->
        exists winners, best_agent = Some winners /\ winners <> [] /\ NoDup winners
                        /\ forall i, In i winners -> i < length update_mask).
Proof.
  destruct (evolution_step two_pixel_model grey_image example_coords example_colors 1 0
              0.75%float 0.5%float (grey_world example_tape))
    as [[[[[[m c] v] stop] best] | e] w'] eqn:Hrun.
  - exists m, c, v, stop, best, w'. split; [reflexivity |].
    exact (evolution_step_reports_winners_when_it_stops _ _ _ _ _ _ _ _ _ Hrun).
  - exfalso. pose proof evolution_step_example_returns as H.
    rewrite Hrun in H. discriminate H.
Defined.

Lemma evolution_step_asserts_matching_counts_witness :
  fst (evolution_step two_pixel_model grey_image example_coords two_colors 1 0
         0.75%float 0.5%float (grey_world example_tape)) = Raise ShapeAssertion
  /\ queries (snd (evolution_step two_pixel_model grey_image example_coords two_colors 1 0
                     0.75%float 0.5%float (grey_world example_tape))) = [].
Proof.
  destruct (evolution_step_asserts_matching_counts
              two_pixel_model grey_image example_coords two_colors 1 0
              0.75%float 0.5%float (grey_world example_tape))
    as (Hraise & _ & Hq & _).
  - cbn. lia.
  - cbn. lia.
  - apply replay_draws_in_pool. cbn. lia.
  - apply replay_draws_in_pool. cbn. lia.
  - left. cbn. lia.
  - split; [exact Hraise | exact Hq].
Defined.

End MoreConcrete.
